(** * The editing core of the DIRA terminal editor (main.c)

    A shallow embedding of the gap buffer, the coordinate mapper, the
    undo/redo history, the selection and clipboard operations and the
    highlight classifier of [main.c], with the properties the specification
    states about them.

    Conventions of the embedding.
    - A C [int] is a [Z]; signed overflow is undefined in C and is not
      modelled, so all sizes are taken to fit an [int].
    - A C [char] is an [ascii]; a [char] array is a [list ascii].
    - The globals [g] and [E] are threaded explicitly.
    - An access outside an array is undefined in C.  [load] and [store] are
      made total (a load yields NUL, a store does nothing); the theorems on
      what a buffer or a snapshot holds assume the bounds under which every
      access of the code is in range. *)

From Stdlib Require Import ZArith List Ascii String Bool Lia.
Import ListNotations.
Local Open Scope Z_scope.

(** ** Memory *)

Definition NUL : ascii := Ascii.zero.
Definition LF : ascii := "010"%char.
Definition DQUOTE : ascii := "034"%char.
Definition BACKSLASH : ascii := "092"%char.

Definition zlen {A : Type} (l : list A) : Z := Z.of_nat (List.length l).
Definition ztake {A : Type} (z : Z) (l : list A) : list A := firstn (Z.to_nat z) l.
Definition zdrop {A : Type} (z : Z) (l : list A) : list A := skipn (Z.to_nat z) l.

(** [m[i]] as an rvalue. *)
Definition load (m : list ascii) (i : Z) : ascii :=
  if i <? 0 then NUL else nth (Z.to_nat i) m NUL.

(** [m[i] = c]. *)
Definition store (m : list ascii) (i : Z) (c : ascii) : list ascii :=
  if (i <? 0) || (zlen m <=? i) then m
  else ztake i m ++ c :: zdrop (i + 1) m.

(** [memcpy(dst + doff, src + soff, n)]; with [src = dst] it is [memmove]:
    the source bytes are read before any is written. *)
Definition memcpy (dst : list ascii) (doff : Z) (src : list ascii) (soff n : Z)
  : list ascii :=
  ztake doff dst ++ ztake n (zdrop soff src) ++ zdrop (doff + n) dst.

Definition memmove (m : list ascii) (doff soff n : Z) : list ascii :=
  memcpy m doff m soff n.

Section Editor.

(** The byte found at each offset of a block fresh from [malloc]. *)
Variable uninit : nat -> ascii.

Definition malloc (n : Z) : list ascii := map uninit (seq 0 (Z.to_nat n)).

(** ** Gap buffer *)

Record gapbuf : Type := mkGap {
  buf : list ascii;
  cap : Z;
  gap_start : Z;
  gap_end : Z
}.

Definition gap_init (initial_cap : Z) : gapbuf :=
  let c := if initial_cap >? 0 then initial_cap else 1024 in
  mkGap (malloc c) c 0 c.

Definition gap_length (g : gapbuf) : Z := cap g - (gap_end g - gap_start g).

Definition gap_move (g : gapbuf) (pos : Z) : gapbuf :=
  let pos := if pos <? 0 then 0 else pos in
  let len := gap_length g in
  let pos := if pos >? len then len else pos in
  if pos <? gap_start g then
    let move_len := gap_start g - pos in
    let ge := gap_end g - move_len in
    mkGap (memmove (buf g) ge pos move_len) (cap g) pos ge
  else if pos >? gap_start g then
    let move_len := pos - gap_start g in
    mkGap (memmove (buf g) (gap_start g) (gap_end g) move_len) (cap g)
          (gap_start g + move_len) (gap_end g + move_len)
  else g.

(** The reallocation of [gap_insert], taken when the gap is empty. *)
Definition gap_grow (g : gapbuf) : gapbuf :=
  let gap_size := Z.quot (cap g) 2 in
  let newcap := cap g + gap_size in
  let nb := malloc newcap in
  let prefix := gap_start g in
  let suffix := cap g - gap_end g in
  let nb := if prefix =? 0 then nb else memcpy nb 0 (buf g) 0 prefix in
  let nb := if suffix =? 0 then nb
            else memcpy nb (newcap - suffix) (buf g) (gap_end g) suffix in
  mkGap nb newcap (gap_start g) (newcap - suffix).

Definition gap_insert (g : gapbuf) (c : ascii) : gapbuf :=
  let g := if gap_start g =? gap_end g then gap_grow g else g in
  mkGap (store (buf g) (gap_start g) c) (cap g) (gap_start g + 1) (gap_end g).

Definition gap_backspace (g : gapbuf) : Z * gapbuf :=
  if gap_start g =? 0 then (0, g)
  else (1, mkGap (buf g) (cap g) (gap_start g - 1) (gap_end g)).

Definition gap_delete (g : gapbuf) : Z * gapbuf :=
  if gap_end g =? cap g then (0, g)
  else (1, mkGap (buf g) (cap g) (gap_start g) (gap_end g + 1)).

(** [gap_get(g, out, outcap)]: the return value and the destination after
    the call. *)
Definition gap_get (g : gapbuf) (out : list ascii) (outcap : Z)
  : Z * list ascii :=
  let len := gap_length g in
  if outcap <? len then (-1, out)
  else
    let prefix := gap_start g in
    let suffix := cap g - gap_end g in
    let out := if prefix =? 0 then out else memcpy out 0 (buf g) 0 prefix in
    let out := if suffix =? 0 then out
               else memcpy out prefix (buf g) (gap_end g) suffix in
    (len, out).

Definition gap_char_at (g : gapbuf) (pos : Z) : ascii :=
  if (pos <? 0) || (pos >=? gap_length g) then NUL
  else if pos <? gap_start g then load (buf g) pos
  else load (buf g) (gap_end g + (pos - gap_start g)).

(** The logical byte sequence: the prefix, then the suffix. *)
Definition gap_content (g : gapbuf) : list ascii :=
  ztake (gap_start g) (buf g) ++ zdrop (gap_end g) (buf g).

(** The structural invariant of the text store. *)
Definition gap_inv (g : gapbuf) : Prop :=
  zlen (buf g) = cap g /\
  0 <= gap_start g /\ gap_start g <= gap_end g /\ gap_end g <= cap g.

(** ** Coordinate mapper *)

(** The [for] loop of [pos_to_rowcol], from index [i] with the running
    [*row] and [*col]. *)
Fixpoint pos_to_rowcol_loop (fuel : nat) (g : gapbuf) (pos i row col : Z)
  : Z * Z :=
  match fuel with
  | O => (row, col)
  | S fuel' =>
      if i <? pos then
        if Ascii.eqb (gap_char_at g i) LF
        then pos_to_rowcol_loop fuel' g pos (i + 1) (row + 1) 0
        else pos_to_rowcol_loop fuel' g pos (i + 1) row (col + 1)
      else (row, col)
  end.

Definition pos_to_rowcol (g : gapbuf) (pos : Z) : Z * Z :=
  pos_to_rowcol_loop (Z.to_nat pos) g pos 0 0 0.

(** First [while] of [rowcol_to_pos]: advance to the target row. *)
Fixpoint rowcol_rows_loop (fuel : nat) (g : gapbuf) (len row : Z)
  (pos cur_row cur_col : Z) : Z * Z * Z :=
  match fuel with
  | O => (pos, cur_row, cur_col)
  | S fuel' =>
      if (pos <? len) && (cur_row <? row) then
        if Ascii.eqb (gap_char_at g pos) LF
        then rowcol_rows_loop fuel' g len row (pos + 1) (cur_row + 1) 0
        else rowcol_rows_loop fuel' g len row (pos + 1) cur_row (cur_col + 1)
      else (pos, cur_row, cur_col)
  end.

(** Second [while] of [rowcol_to_pos]: advance inside the row. *)
Fixpoint rowcol_cols_loop (fuel : nat) (g : gapbuf) (len col : Z)
  (pos cur_col : Z) : Z :=
  match fuel with
  | O => pos
  | S fuel' =>
      if (pos <? len) && (cur_col <? col) then
        if Ascii.eqb (gap_char_at g pos) LF then pos
        else rowcol_cols_loop fuel' g len col (pos + 1) (cur_col + 1)
      else pos
  end.

(** Both loops advance [pos] by one per iteration and stop at [len], so
    [len - pos] iterations are all they can take. *)
Definition rowcol_to_pos (g : gapbuf) (row col : Z) : Z :=
  let len := gap_length g in
  let '(pos, _, cur_col) :=
    rowcol_rows_loop (Z.to_nat len) g len row 0 0 0 in
  rowcol_cols_loop (Z.to_nat (len - pos)) g len col pos cur_col.

Fixpoint count_rows_loop (fuel : nat) (g : gapbuf) (len i rows : Z) : Z :=
  match fuel with
  | O => rows
  | S fuel' =>
      if i <? len then
        count_rows_loop fuel' g len (i + 1)
          (if Ascii.eqb (gap_char_at g i) LF then rows + 1 else rows)
      else rows
  end.

Definition count_rows (g : gapbuf) : Z :=
  let len := gap_length g in
  count_rows_loop (Z.to_nat len) g len 0 1.

(** ** Undo/redo history *)

Inductive editType : Type :=
  | EDIT_INSERT
  | EDIT_DELETE
  | EDIT_INSERT_NEWLINE
  | EDIT_DELETE_NEWLINE.

(** A [struct edit] without its links: the stacks are lists, head first. *)
Record edit : Type := mkEdit {
  e_type : editType;
  e_pos : Z;
  e_ch : ascii
}.

Record editHistory : Type := mkHist {
  undoStack : list edit;
  redoStack : list edit;
  grouping : Z
}.

Definition history_init : editHistory := mkHist [] [] 0.

Definition history_push (h : editHistory) (type : editType) (pos : Z)
  (ch : ascii) : editHistory :=
  mkHist (mkEdit type pos ch :: undoStack h) [] (grouping h).

(** [history_undo] and [history_redo] act on the history and on the global
    buffer; the result is the return value and both after the call. *)
Definition history_undo (h : editHistory) (g : gapbuf)
  : Z * editHistory * gapbuf :=
  match undoStack h with
  | [] => (0, h, g)
  | e :: rest =>
      let h := mkHist rest (e :: redoStack h) (grouping h) in
      let g := gap_move g (e_pos e) in
      let g :=
        match e_type e with
        | EDIT_INSERT => snd (gap_delete g)
        | EDIT_DELETE => gap_insert g (e_ch e)
        | EDIT_INSERT_NEWLINE => snd (gap_delete g)
        | EDIT_DELETE_NEWLINE => gap_insert g LF
        end in
      (1, h, g)
  end.

Definition history_redo (h : editHistory) (g : gapbuf)
  : Z * editHistory * gapbuf :=
  match redoStack h with
  | [] => (0, h, g)
  | e :: rest =>
      let h := mkHist (e :: undoStack h) rest (grouping h) in
      let g := gap_move g (e_pos e) in
      let g :=
        match e_type e with
        | EDIT_INSERT => gap_insert g (e_ch e)
        | EDIT_DELETE => snd (gap_delete g)
        | EDIT_INSERT_NEWLINE => gap_insert g LF
        | EDIT_DELETE_NEWLINE => snd (gap_delete g)
        end in
      (1, h, g)
  end.

(** ** Selection *)

Record selection : Type := mkSel {
  active : Z;
  start_row : Z;
  start_col : Z;
  end_row : Z;
  end_col : Z
}.

Definition selection_start (sel : selection) (row col : Z) : selection :=
  mkSel 1 row col row col.

Definition selection_update (sel : selection) (row col : Z) : selection :=
  mkSel (active sel) (start_row sel) (start_col sel) row col.

Definition selection_clear (sel : selection) : selection :=
  mkSel 0 (start_row sel) (start_col sel) (end_row sel) (end_col sel).

Definition selection_contains (sel : selection) (row col : Z) : Z :=
  if active sel =? 0 then 0
  else
    let sr := start_row sel in
    let sc := start_col sel in
    let er := end_row sel in
    let ec := end_col sel in
    let '(sr, sc, er, ec) :=
      if (sr >? er) || ((sr =? er) && (sc >? ec))
      then (er, ec, sr, sc) else (sr, sc, er, ec) in
    if (row <? sr) || (row >? er) then 0
    else if (row =? sr) && (row =? er)
         then Z.b2z ((col >=? sc) && (col <? ec))
    else if row =? sr then Z.b2z (col >=? sc)
    else if row =? er then Z.b2z (col <? ec)
    else 1.

(** ** Editor state and clipboard *)

(** [data = None] is the NULL pointer. *)
Record clipboard : Type := mkClip {
  data : option (list ascii);
  clip_len : Z
}.

(** The fields of [struct editorConfig] the editing core reads or writes. *)
Record editorConfig : Type := mkConfig {
  cx : Z;
  cy : Z;
  dirty : Z;
  history : editHistory;
  sel : selection;
  clip : clipboard
}.

(** The two globals, [E] and [g]. *)
Record state : Type := mkState {
  st_E : editorConfig;
  st_g : gapbuf
}.

Definition editorInsertChar (c : ascii) (s : state) : state :=
  let E := st_E s in
  let pos := rowcol_to_pos (st_g s) (cy E) (cx E) in
  let g := gap_move (st_g s) pos in
  let g := gap_insert g c in
  let h := history_push (history E) EDIT_INSERT pos c in
  mkState (mkConfig (cx E + 1) (cy E) 1 h (sel E) (clip E)) g.

(** The [for] loop of [clipboard_paste]. *)
Fixpoint clipboard_paste_loop (fuel : nat) (d : list ascii) (len pos i : Z)
  (h : editHistory) (g : gapbuf) : editHistory * gapbuf :=
  match fuel with
  | O => (h, g)
  | S fuel' =>
      if i <? len then
        let g := gap_insert g (load d i) in
        let h := history_push h EDIT_INSERT (pos + i) (load d i) in
        clipboard_paste_loop fuel' d len pos (i + 1) h g
      else (h, g)
  end.

(** [clipboard_paste(&E.clip)]. *)
Definition clipboard_paste (s : state) : state :=
  let E := st_E s in
  match data (clip E) with
  | None => s
  | Some d =>
      if clip_len (clip E) =? 0 then s
      else
        let pos := rowcol_to_pos (st_g s) (cy E) (cx E) in
        let g := gap_move (st_g s) pos in
        let '(h, g) :=
          clipboard_paste_loop (Z.to_nat (clip_len (clip E))) d
            (clip_len (clip E)) pos 0 (history E) g in
        mkState (mkConfig (cx E) (cy E) 1 h (sel E) (clip E)) g
  end.

(** The Ctrl-Z and Ctrl-Y branches of [editorProcessKeypress]. *)
Definition editorUndo (s : state) : state :=
  let E := st_E s in
  let '(r, h, g) := history_undo (history E) (st_g s) in
  if r =? 0
  then mkState (mkConfig (cx E) (cy E) (dirty E) h (selection_clear (sel E))
                  (clip E)) g
  else
    let '(row, col) := pos_to_rowcol g (gap_start g) in
    mkState (mkConfig col row 1 h (selection_clear (sel E)) (clip E)) g.

Definition editorRedo (s : state) : state :=
  let E := st_E s in
  let '(r, h, g) := history_redo (history E) (st_g s) in
  if r =? 0
  then mkState (mkConfig (cx E) (cy E) (dirty E) h (selection_clear (sel E))
                  (clip E)) g
  else
    let '(row, col) := pos_to_rowcol g (gap_start g) in
    mkState (mkConfig col row 1 h (selection_clear (sel E)) (clip E)) g.

(** ** Highlight classifier *)

Inductive editorHighlight : Type :=
  | HL_NORMAL
  | HL_KEYWORD
  | HL_STRING
  | HL_COMMENT
  | HL_NUMBER.

(** [strrchr(s, c)] for [c] other than NUL: the suffix of [s] that starts at
    the last [c]. *)
Fixpoint strrchr (s : string) (c : ascii) : option string :=
  match s with
  | EmptyString => None
  | String a s' =>
      match strrchr s' c with
      | Some r => Some r
      | None => if Ascii.eqb a c then Some s else None
      end
  end.

(** [strchr(s, c) != NULL]; the terminator of [s] matches NUL. *)
Fixpoint strchr_found (s : string) (c : ascii) : bool :=
  match s with
  | EmptyString => Ascii.eqb c NUL
  | String a s' => Ascii.eqb a c || strchr_found s' c
  end.

(** [isspace] and [isdigit] in the "C" locale. *)
Definition isspace (c : ascii) : bool :=
  let n := Z.of_nat (nat_of_ascii c) in
  (n =? 32) || ((9 <=? n) && (n <=? 13)).

Definition isdigit (c : ascii) : bool :=
  let n := Z.of_nat (nat_of_ascii c) in
  (48 <=? n) && (n <=? 57).

Definition is_separator (c : ascii) : bool :=
  isspace c || Ascii.eqb c NUL || strchr_found ",.()+-/*=~%<>[];" c.

Definition keywords : list string :=
  ["if"; "else"; "while"; "for"; "return"; "int"; "char"; "void";
   "struct"; "enum"; "static"; "const"; "break"; "continue"; "switch";
   "case"; "default"; "sizeof"; "typedef"]%string.

(** [memcmp(content + pos, k, strlen(k)) == 0]. *)
Fixpoint memcmp_eq (content : list ascii) (pos : Z) (k : string) : bool :=
  match k with
  | EmptyString => true
  | String a k' => Ascii.eqb (load content pos) a && memcmp_eq content (pos + 1) k'
  end.

Definition is_c_file (filename : option string) : bool :=
  match filename with
  | None => false
  | Some f =>
      match strrchr f "."%char with
      | None => false
      | Some ext =>
          String.eqb ext ".c" || String.eqb ext ".h" ||
          String.eqb ext ".cpp" || String.eqb ext ".cc"
      end
  end.

Definition keyword_at (content : list ascii) (len pos : Z) (k : string)
  : bool :=
  let klen := Z.of_nat (String.length k) in
  (pos + klen <=? len) && memcmp_eq content pos k &&
  ((pos + klen >=? len) || is_separator (load content (pos + klen))) &&
  ((pos =? 0) || is_separator (load content (pos - 1))).

(** [!x] on an [int]. *)
Definition lnot (x : Z) : Z := if x =? 0 then 1 else 0.

(** [get_highlight]; the function-local [static int in_string] is passed in
    and returned. *)
Definition get_highlight (content : list ascii) (len pos : Z)
  (filename : option string) (in_string : Z) : editorHighlight * Z :=
  if pos >=? len then (HL_NORMAL, in_string)
  else if negb (is_c_file filename) then (HL_NORMAL, in_string)
  else
    let c := load content pos in
    if (pos + 1 <? len) && Ascii.eqb (load content pos) "/"
       && Ascii.eqb (load content (pos + 1)) "/"
    then (HL_COMMENT, in_string)
    else if isdigit c && ((pos =? 0) || is_separator (load content (pos - 1)))
    then (HL_NUMBER, in_string)
    else
      let in_string := if Ascii.eqb c DQUOTE then lnot in_string else in_string in
      if negb (in_string =? 0) then (HL_STRING, in_string)
      else if existsb (keyword_at content len pos) keywords
      then (HL_KEYWORD, in_string)
      else (HL_NORMAL, in_string).

(** A left-to-right classification pass over the snapshot: [get_highlight]
    at the positions [i], [i + 1], ... below [len] in order, the static flag
    carried from each call to the next; the result is the classes in order
    and the value the flag is left with. *)
Fixpoint highlight_pass (fuel : nat) (content : list ascii) (len i : Z)
  (filename : option string) (in_string : Z) : list editorHighlight * Z :=
  match fuel with
  | O => ([], in_string)
  | S fuel' =>
      if i <? len then
        let '(hl, st) := get_highlight content len i filename in_string in
        let '(hls, st') := highlight_pass fuel' content len (i + 1) filename st in
        (hl :: hls, st')
      else ([], in_string)
  end.

(** ** More of the coordinate mapper *)

Definition TAB_STOP : Z := 4.

Fixpoint line_length_loop (fuel : nat) (g : gapbuf) (len pos line_len : Z)
  : Z :=
  match fuel with
  | O => line_len
  | S fuel' =>
      if pos <? len then
        if Ascii.eqb (gap_char_at g pos) LF then line_len
        else line_length_loop fuel' g len (pos + 1) (line_len + 1)
      else line_len
  end.

Definition get_line_length (g : gapbuf) (row : Z) : Z :=
  let pos := rowcol_to_pos g row 0 in
  let len := gap_length g in
  line_length_loop (Z.to_nat (len - pos)) g len pos 0.

Fixpoint line_indent_loop (fuel : nat) (g : gapbuf) (len pos indent : Z)
  : Z :=
  match fuel with
  | O => indent
  | S fuel' =>
      if pos <? len then
        let c := gap_char_at g pos in
        if Ascii.eqb c " " then
          line_indent_loop fuel' g len (pos + 1) (indent + 1)
        else if Ascii.eqb c "009" then
          line_indent_loop fuel' g len (pos + 1) (indent + TAB_STOP)
        else indent
      else indent
  end.

Definition get_line_indent (g : gapbuf) (row : Z) : Z :=
  let pos := rowcol_to_pos g row 0 in
  let len := gap_length g in
  line_indent_loop (Z.to_nat (len - pos)) g len pos 0.

(** ** Clipboard copy and selection delete *)

(** The normalisation that [clipboard_copy] and [selection_delete] share
    with [selection_contains]: the earlier end first. *)
Definition selection_normalize (sel : selection) : Z * Z * Z * Z :=
  let sr := start_row sel in
  let sc := start_col sel in
  let er := end_row sel in
  let ec := end_col sel in
  if (sr >? er) || ((sr =? er) && (sc >? ec))
  then (er, ec, sr, sc) else (sr, sc, er, ec).

(** The [for] loop of [clipboard_copy], writing into the fresh block. *)
Fixpoint clipboard_copy_loop (fuel : nat) (g : gapbuf) (start_pos copy_len : Z)
  (i : Z) (d : list ascii) : list ascii :=
  match fuel with
  | O => d
  | S fuel' =>
      if i <? copy_len then
        clipboard_copy_loop fuel' g start_pos copy_len (i + 1)
          (store d i (gap_char_at g (start_pos + i)))
      else d
  end.

Definition clipboard_copy (c : clipboard) (sel : selection) (g : gapbuf)
  : clipboard :=
  if active sel =? 0 then c
  else
    let '(sr, sc, er, ec) := selection_normalize sel in
    let start_pos := rowcol_to_pos g sr sc in
    let end_pos := rowcol_to_pos g er ec in
    let copy_len := end_pos - start_pos in
    if copy_len <=? 0 then c
    else
      let d := malloc (copy_len + 1) in
      let d := clipboard_copy_loop (Z.to_nat copy_len) g start_pos copy_len 0 d in
      mkClip (Some (store d copy_len NUL)) copy_len.

(** The [for] loop of [selection_delete], [i] running up to [end_pos]. *)
Fixpoint selection_delete_loop (fuel : nat) (start_pos end_pos i : Z)
  (h : editHistory) (g : gapbuf) : editHistory * gapbuf :=
  match fuel with
  | O => (h, g)
  | S fuel' =>
      if i <? end_pos then
        let ch := gap_char_at g start_pos in
        let g := snd (gap_delete g) in
        let h := history_push h EDIT_DELETE start_pos ch in
        selection_delete_loop fuel' start_pos end_pos (i + 1) h g
      else (h, g)
  end.

(** [selection_delete(&E.sel)]. *)
Definition selection_delete (s : state) : state :=
  let E := st_E s in
  if active (sel E) =? 0 then s
  else
    let '(sr, sc, er, ec) := selection_normalize (sel E) in
    let start_pos := rowcol_to_pos (st_g s) sr sc in
    let end_pos := rowcol_to_pos (st_g s) er ec in
    let g := gap_move (st_g s) start_pos in
    let '(h, g) :=
      selection_delete_loop (Z.to_nat (end_pos - start_pos)) start_pos end_pos
        start_pos (history E) g in
    mkState (mkConfig sc sr 1 h (selection_clear (sel E)) (clip E)) g.

(** ** More editor operations *)

(** The indentation loop of [editorInsertNewline]; the result is [E.cx],
    the history and the buffer. *)
Fixpoint newline_indent_loop (fuel : nat) (prev_indent pos i : Z)
  (x : Z) (h : editHistory) (g : gapbuf) : Z * editHistory * gapbuf :=
  match fuel with
  | O => (x, h, g)
  | S fuel' =>
      if i <? prev_indent then
        let g := gap_insert g " " in
        let h := history_push h EDIT_INSERT (pos + 1 + i) " " in
        newline_indent_loop fuel' prev_indent pos (i + 1) (x + 1) h g
      else (x, h, g)
  end.

Definition editorInsertNewline (s : state) : state :=
  let E := st_E s in
  let pos := rowcol_to_pos (st_g s) (cy E) (cx E) in
  let g := gap_move (st_g s) pos in
  let g := gap_insert g LF in
  let h := history_push (history E) EDIT_INSERT_NEWLINE pos LF in
  let prev_indent := get_line_indent g (cy E) in
  let '(x, h, g) :=
    newline_indent_loop (Z.to_nat prev_indent) prev_indent pos 0 0 h g in
  mkState (mkConfig x (cy E + 1) 1 h (sel E) (clip E)) g.

Definition editorDelChar (s : state) : state :=
  let E := st_E s in
  if cx E >? 0 then
    let pos := rowcol_to_pos (st_g s) (cy E) (cx E) in
    let g := gap_move (st_g s) pos in
    let ch := gap_char_at g (pos - 1) in
    let '(r, g) := gap_backspace g in
    if r =? 0
    then mkState E g
    else mkState (mkConfig (cx E - 1) (cy E) 1
                    (history_push (history E) EDIT_DELETE (pos - 1) ch)
                    (sel E) (clip E)) g
  else if cy E >? 0 then
    let prev_line_len := get_line_length (st_g s) (cy E - 1) in
    let pos := rowcol_to_pos (st_g s) (cy E) 0 in
    let g := gap_move (st_g s) pos in
    let '(r, g) := gap_backspace g in
    if r =? 0
    then mkState E g
    else mkState (mkConfig prev_line_len (cy E - 1) 1
                    (history_push (history E) EDIT_DELETE_NEWLINE (pos - 1) LF)
                    (sel E) (clip E)) g
  else s.

(** The [DEL_KEY] case of [editorProcessKeypress]: the selection is
    deleted when one is active, the byte at the cursor otherwise. *)
Definition editorDelForward (s : state) : state :=
  let E := st_E s in
  if negb (active (sel E) =? 0) then selection_delete s
  else
    let pos := rowcol_to_pos (st_g s) (cy E) (cx E) in
    let g := gap_move (st_g s) pos in
    let ch := gap_char_at g pos in
    let '(r, g) := gap_delete g in
    if r =? 0
    then mkState E g
    else mkState (mkConfig (cx E) (cy E) 1
                    (history_push (history E) EDIT_DELETE pos ch)
                    (sel E) (clip E)) g.

(** The Ctrl-C, Ctrl-X and Ctrl-V branches of [editorProcessKeypress]
    ([E.statusmsg] is not modelled). *)
Definition editorCopy (s : state) : state :=
  let E := st_E s in
  if active (sel E) =? 0 then s
  else mkState (mkConfig (cx E) (cy E) (dirty E) (history E)
                  (selection_clear (sel E))
                  (clipboard_copy (clip E) (sel E) (st_g s)))
               (st_g s).

Definition editorCut (s : state) : state :=
  let E := st_E s in
  if active (sel E) =? 0 then s
  else selection_delete
         (mkState (mkConfig (cx E) (cy E) (dirty E) (history E) (sel E)
                     (clipboard_copy (clip E) (sel E) (st_g s)))
                  (st_g s)).

Definition editorPaste (s : state) : state :=
  clipboard_paste
    (if active (sel (st_E s)) =? 0 then s else selection_delete s).

(** The Ctrl-A branch of [editorProcessKeypress]. *)
Definition editorSelectAll (s : state) : state :=
  let E := st_E s in
  let sl := selection_start (sel E) 0 0 in
  let y := count_rows (st_g s) - 1 in
  let x := get_line_length (st_g s) y in
  mkState (mkConfig x y (dirty E) (history E) (selection_update sl y x)
             (clip E)) (st_g s).

(** [editorOpen].  The file is what [fopen] and [getline] give: [None]
    when [fopen] fails, and otherwise the lines [getline] returns, each
    with its [linelen] bytes; [E.filename] is not modelled. *)
Definition editorOpen_line (g : gapbuf) (line : list ascii) : gapbuf :=
  fold_left gap_insert line g.

Definition editorOpen (file : option (list (list ascii))) (s : state)
  : state :=
  match file with
  | None => s
  | Some lines =>
    let E := st_E s in
    mkState (mkConfig (cx E) (cy E) 0 (history E) (sel E) (clip E))
            (fold_left editorOpen_line lines (st_g s))
  end.

(** ** Append buffer *)

Definition ABUF_SIZE : Z := 32768.

(** The statics [abuf] and [abuf_len]. *)
Record abuf_state : Type := mkAbuf {
  abuf : list ascii;
  abuf_len : Z
}.

Definition abufAppend (a : abuf_state) (s : list ascii) (len : Z)
  : abuf_state :=
  if abuf_len a + len <? ABUF_SIZE
  then mkAbuf (memcpy (abuf a) (abuf_len a) s 0 len) (abuf_len a + len)
  else a.

(** ** Keys, cursor movement and scrolling *)

Definition ARROW_LEFT : Z := 1000.
Definition ARROW_RIGHT : Z := 1001.
Definition ARROW_UP : Z := 1002.
Definition ARROW_DOWN : Z := 1003.
Definition DEL_KEY : Z := 1004.
Definition HOME_KEY : Z := 1005.
Definition END_KEY : Z := 1006.
Definition PAGE_UP : Z := 1007.
Definition PAGE_DOWN : Z := 1008.

Definition is_shift_arrow (key : Z) : Z := Z.land key 4096.

Definition get_base_key (key : Z) : Z := Z.land key 4095.

(** The window fields of [struct editorConfig]. *)
Record viewport : Type := mkView {
  rowoff : Z;
  coloff : Z;
  screenrows : Z;
  screencols : Z
}.

(** [editorScroll], on the cursor [E.cx], [E.cy] and the window. *)
Definition editorScroll (x y : Z) (v : viewport) : viewport :=
  let ro := if y <? rowoff v then y else rowoff v in
  let ro := if y >=? ro + screenrows v - 2
            then y - screenrows v + 3 else ro in
  let co := if x <? coloff v then x else coloff v in
  let co := if x >=? co + screencols v - 5
            then x - screencols v + 6 else co in
  mkView ro co (screenrows v) (screencols v).

(** The number of bytes [snprintf(NULL, 0, "%d", n)] reports for an [int],
    which has at most ten digits: the decimal digits of [n], after a minus
    sign when [n] is negative. *)
Fixpoint decimal_digits (fuel : nat) (n : Z) : Z :=
  match fuel with
  | O => 1
  | S fuel' => if n <? 10 then 1 else 1 + decimal_digits fuel' (n / 10)
  end.

Definition snprintf_int_len (n : Z) : Z :=
  if n <? 0 then 1 + decimal_digits 10 (- n) else decimal_digits 10 n.

(** [num_width] of [editorRefreshScreen], the width of the line numbers. *)
Definition num_width (g : gapbuf) : Z := snprintf_int_len (count_rows g) + 1.

(** The test of [editorRefreshScreen] for drawing the byte of column
    [col], and the line and column of the cursor it sends to the
    terminal. *)
Definition column_drawn (v : viewport) (nw col : Z) : bool :=
  (col >=? coloff v) && (col <? coloff v + screencols v - nw - 1).

Definition cursor_line (v : viewport) (y : Z) : Z := (y - rowoff v) + 1.

Definition cursor_column (v : viewport) (nw x : Z) : Z :=
  (x - coloff v) + 1 + nw + 1.

(** The loops of the page keys: [n] times one row up, or down. *)
Fixpoint page_up_loop (fuel : nat) (n i y : Z) : Z :=
  match fuel with
  | O => y
  | S fuel' =>
      if i <? n
      then page_up_loop fuel' n (i + 1) (if y >? 0 then y - 1 else y)
      else y
  end.

Fixpoint page_down_loop (fuel : nat) (n total_rows i y : Z) : Z :=
  match fuel with
  | O => y
  | S fuel' =>
      if i <? n
      then page_down_loop fuel' n total_rows (i + 1)
             (if y <? total_rows - 1 then y + 1 else y)
      else y
  end.

(** [editorMoveCursor(key)]: the new [E.cx] and [E.cy]. *)
Definition editorMoveCursor (key : Z) (v : viewport) (g : gapbuf) (x y : Z)
  : Z * Z :=
  let total_rows := count_rows g in
  if key =? ARROW_LEFT then
    if x >? 0 then (x - 1, y)
    else if y >? 0 then (get_line_length g (y - 1), y - 1)
    else (x, y)
  else if key =? ARROW_RIGHT then
    let line_len := get_line_length g y in
    if x <? line_len then (x + 1, y)
    else if y <? total_rows - 1 then (0, y + 1)
    else (x, y)
  else if key =? ARROW_UP then
    if y >? 0 then
      let line_len := get_line_length g (y - 1) in
      (if x >? line_len then line_len else x, y - 1)
    else (x, y)
  else if key =? ARROW_DOWN then
    if y <? total_rows - 1 then
      let line_len := get_line_length g (y + 1) in
      (if x >? line_len then line_len else x, y + 1)
    else (x, y)
  else if key =? HOME_KEY then (0, y)
  else if key =? END_KEY then (get_line_length g y, y)
  else if key =? PAGE_UP then
    let n := screenrows v - 2 in
    (x, page_up_loop (Z.to_nat n) n 0 (rowoff v))
  else if key =? PAGE_DOWN then
    let n := screenrows v - 2 in
    let y := rowoff v + screenrows v - 2 in
    let y := if y >? total_rows - 1 then total_rows - 1 else y in
    (x, page_down_loop (Z.to_nat n) n total_rows 0 y)
  else (x, y).

(** ** Vocabulary of the statements *)

(** A buffer in which [gap_insert] finds room, at once or by growing. *)
Definition gap_room (g : gapbuf) : Prop :=
  gap_start g < gap_end g \/ 2 <= cap g.

(** The position [gap_move] settles on. *)
Definition clamp (pos len : Z) : Z := Z.min (Z.max 0 pos) len.

(** Insertion and deletion of one byte in a logical sequence. *)
Definition list_insert (p : Z) (c : ascii) (s : list ascii) : list ascii :=
  ztake p s ++ c :: zdrop p s.

Definition list_delete (p : Z) (s : list ascii) : list ascii :=
  ztake p s ++ zdrop (p + 1) s.

(** What undoing and redoing one record do to the logical sequence. *)
Definition undo_content (e : edit) (s : list ascii) : list ascii :=
  let p := clamp (e_pos e) (zlen s) in
  match e_type e with
  | EDIT_INSERT => list_delete p s
  | EDIT_DELETE => list_insert p (e_ch e) s
  | EDIT_INSERT_NEWLINE => list_delete p s
  | EDIT_DELETE_NEWLINE => list_insert p LF s
  end.

Definition redo_content (e : edit) (s : list ascii) : list ascii :=
  let p := clamp (e_pos e) (zlen s) in
  match e_type e with
  | EDIT_INSERT => list_insert p (e_ch e) s
  | EDIT_DELETE => list_delete p s
  | EDIT_INSERT_NEWLINE => list_insert p LF s
  | EDIT_DELETE_NEWLINE => list_delete p s
  end.

(** [replays s0 es s1]: the records [es], newest first, lead from the
    sequence [s0] to [s1], each one an edit that its undo takes back. *)
Inductive replays : list ascii -> list edit -> list ascii -> Prop :=
  | replays_nil : forall s, replays s [] s
  | replays_cons : forall s0 es s1 e s2,
      replays s0 es s1 ->
      redo_content e s1 = s2 ->
      undo_content e s2 = s1 ->
      replays s0 (e :: es) s2.

(** [n] calls of [history_undo], of [history_redo]. *)
Fixpoint undo_n (n : nat) (h : editHistory) (g : gapbuf)
  : editHistory * gapbuf :=
  match n with
  | O => (h, g)
  | S n' => let '(_, h', g') := history_undo h g in undo_n n' h' g'
  end.

Fixpoint redo_n (n : nat) (h : editHistory) (g : gapbuf)
  : editHistory * gapbuf :=
  match n with
  | O => (h, g)
  | S n' => let '(_, h', g') := history_redo h g in redo_n n' h' g'
  end.

(** One call of [editorInsertChar] per byte of [cs], in order. *)
Definition insert_chars (cs : list ascii) (s : state) : state :=
  fold_left (fun s c => editorInsertChar c s) cs s.

(** The records [clipboard_paste] pushes for the bytes [d[i]], [d[i+1]],
    ... of the clipboard, oldest first. *)
Fixpoint paste_records (d : list ascii) (pos i : Z) (n : nat) : list edit :=
  match n with
  | O => []
  | S n' => mkEdit EDIT_INSERT (pos + i) (load d i)
            :: paste_records d pos (i + 1) n'
  end.

(** The text "ab\ncd" with the gap after it, in a block of six bytes. *)
Definition buf_ab_cd : gapbuf :=
  mkGap ["a"; "b"; LF; "c"; "d"; NUL]%char 6 5 6.

(** The empty buffer [gap_init(&g, 1024)] leaves, and an editor on it. *)
Definition empty_state (c : clipboard) : state :=
  mkState (mkConfig 0 0 0 history_init (mkSel 0 0 0 0 0) c) (gap_init 1024).


(** The number of line feeds in a byte sequence. *)
Definition count_lf (l : list ascii) : Z :=
  Z.of_nat (count_occ ascii_dec l LF).

(** Lexicographic order on (row, column) pairs. *)
Definition lex_leb (r1 c1 r2 c2 : Z) : bool :=
  (r1 <? r2) || ((r1 =? r2) && (c1 <=? c2)).

Definition lex_ltb (r1 c1 r2 c2 : Z) : bool :=
  (r1 <? r2) || ((r1 =? r2) && (c1 <? c2)).

(** The bytes of a logical sequence from position [a] up to [b]. *)
Definition slice (a b : Z) (s : list ascii) : list ascii :=
  ztake (b - a) (zdrop a s).

(** The records [selection_delete] pushes for the bytes [bs] removed at
    [pos], newest first. *)
Definition delete_records (pos : Z) (bs : list ascii) : list edit :=
  rev (map (fun ch => mkEdit EDIT_DELETE pos ch) bs).

(** A state whose buffer is well formed and can grow. *)
Definition well_formed (s : state) : Prop :=
  gap_inv (st_g s) /\ 2 <= cap (st_g s).

(** "ab\nc" with the gap after "ab", a line of one space and an "x", and an
    editor with the cursor at column [x] of row [y] on a buffer. *)
Definition buf_ab_c : gapbuf :=
  mkGap ["a"; "b"; NUL; NUL; LF; "c"]%char 6 2 4.

Definition buf_sp_x : gapbuf :=
  mkGap [" "; "x"; NUL; NUL]%char 4 2 4.

Definition editor_on (g : gapbuf) (x y : Z) (sl : selection) (c : clipboard)
  : state :=
  mkState (mkConfig x y 0 history_init sl c) g.

(** * Properties *)

(** ** Arrays, pointwise *)

(** Case analysis on the integer comparisons of the goal, innermost
    first. *)
Ltac no_if t :=
  lazymatch t with
  | context [if _ then _ else _] => fail
  | _ => idtac
  end.

Ltac zcases :=
  repeat match goal with
  | |- context [Z.gtb ?a ?b] => rewrite (Z.gtb_ltb a b)
  | |- context [Z.geb ?a ?b] => rewrite (Z.geb_leb a b)
  | |- context [Z.ltb ?a ?b] =>
      no_if a; no_if b; destruct (Z.ltb_spec a b)
  | |- context [Z.leb ?a ?b] =>
      no_if a; no_if b; destruct (Z.leb_spec a b)
  | |- context [Z.eqb ?a ?b] =>
      no_if a; no_if b; destruct (Z.eqb_spec a b)
  end; cbn [andb orb negb].

Lemma zlen_nonneg {A : Type} (l : list A) : 0 <= zlen l.
Proof. unfold zlen. lia. Qed.

Lemma zlen_app {A : Type} (a b : list A) : zlen (a ++ b) = zlen a + zlen b.
Proof. unfold zlen. rewrite length_app. lia. Qed.

Lemma zlen_cons {A : Type} (x : A) (l : list A) : zlen (x :: l) = 1 + zlen l.
Proof. unfold zlen. cbn [List.length]. lia. Qed.

Lemma zlen_ztake {A : Type} (z : Z) (l : list A) :
  0 <= z <= zlen l -> zlen (ztake z l) = z.
Proof. unfold zlen, ztake. rewrite length_firstn. lia. Qed.

Lemma zlen_zdrop {A : Type} (z : Z) (l : list A) :
  0 <= z <= zlen l -> zlen (zdrop z l) = zlen l - z.
Proof. unfold zlen, zdrop. rewrite length_skipn. lia. Qed.

Lemma zlen_malloc (n : Z) : 0 <= n -> zlen (malloc n) = n.
Proof. intros. unfold zlen, malloc. rewrite length_map, length_seq. lia. Qed.

Lemma load_app (a b : list ascii) (i : Z) :
  0 <= i ->
  load (a ++ b) i = if i <? zlen a then load a i else load b (i - zlen a).
Proof.
  intros Hi. unfold load, zlen.
  destruct (Z.ltb_spec i 0); [lia|].
  destruct (Z.ltb_spec i (Z.of_nat (List.length a))).
  - apply app_nth1. lia.
  - destruct (Z.ltb_spec (i - Z.of_nat (List.length a)) 0); [lia|].
    rewrite app_nth2 by lia. f_equal. lia.
Qed.

Lemma load_cons (c : ascii) (l : list ascii) (i : Z) :
  0 <= i -> load (c :: l) i = if i =? 0 then c else load l (i - 1).
Proof.
  intros Hi. unfold load.
  destruct (Z.ltb_spec i 0); [lia|].
  destruct (Z.eqb_spec i 0).
  - subst. reflexivity.
  - destruct (Z.ltb_spec (i - 1) 0); [lia|].
    replace (Z.to_nat i) with (S (Z.to_nat (i - 1))) by lia. reflexivity.
Qed.

Lemma load_ztake (z : Z) (l : list ascii) (i : Z) :
  0 <= i < z -> load (ztake z l) i = load l i.
Proof.
  intros Hi. unfold load, ztake.
  destruct (Z.ltb_spec i 0); [lia|].
  rewrite nth_firstn.
  destruct (Nat.ltb_spec (Z.to_nat i) (Z.to_nat z)); [reflexivity|lia].
Qed.

Lemma load_zdrop (z : Z) (l : list ascii) (i : Z) :
  0 <= z -> 0 <= i -> load (zdrop z l) i = load l (z + i).
Proof.
  intros Hz Hi. unfold load, zdrop.
  destruct (Z.ltb_spec i 0); [lia|].
  destruct (Z.ltb_spec (z + i) 0); [lia|].
  rewrite nth_skipn. f_equal. lia.
Qed.

(** Two arrays of one size with the same byte at every index are equal. *)
Lemma load_ext (a b : list ascii) :
  zlen a = zlen b ->
  (forall i, 0 <= i < zlen a -> load a i = load b i) ->
  a = b.
Proof.
  unfold zlen. intros Hlen Hnth.
  apply (nth_ext a b NUL NUL); [lia|].
  intros n Hn. specialize (Hnth (Z.of_nat n)).
  unfold load in Hnth.
  destruct (Z.ltb_spec (Z.of_nat n) 0); [lia|].
  rewrite Nat2Z.id in Hnth. apply Hnth. lia.
Qed.

Lemma zlen_memcpy (dst : list ascii) (doff : Z) (src : list ascii)
  (soff n : Z) :
  0 <= doff -> 0 <= n -> doff + n <= zlen dst ->
  0 <= soff -> soff + n <= zlen src ->
  zlen (memcpy dst doff src soff n) = zlen dst.
Proof.
  intros. unfold memcpy.
  rewrite !zlen_app, !zlen_ztake, !zlen_zdrop; try lia.
  rewrite zlen_zdrop; lia.
Qed.

Lemma load_memcpy (dst : list ascii) (doff : Z) (src : list ascii)
  (soff n : Z) (i : Z) :
  0 <= doff -> 0 <= n -> doff + n <= zlen dst ->
  0 <= soff -> soff + n <= zlen src ->
  0 <= i ->
  load (memcpy dst doff src soff n) i =
  if (doff <=? i) && (i <? doff + n) then load src (soff + (i - doff))
  else load dst i.
Proof.
  intros. unfold memcpy.
  assert (zlen (zdrop soff src) = zlen src - soff) by (apply zlen_zdrop; lia).
  rewrite load_app by lia. rewrite zlen_ztake by lia.
  destruct (Z.ltb_spec i doff).
  - rewrite load_ztake by lia.
    destruct (Z.leb_spec doff i); [lia|]. reflexivity.
  - rewrite load_app by lia. rewrite zlen_ztake by lia.
    destruct (Z.leb_spec doff i); [|lia].
    destruct (Z.ltb_spec (i - doff) n), (Z.ltb_spec i (doff + n));
      try lia; cbn [andb].
    + rewrite load_ztake by lia. apply load_zdrop; lia.
    + rewrite load_zdrop by lia. f_equal. lia.
Qed.

Lemma zlen_store (m : list ascii) (i : Z) (c : ascii) :
  zlen (store m i c) = zlen m.
Proof.
  unfold store.
  destruct (Z.ltb_spec i 0); cbn [orb]; [reflexivity|].
  destruct (Z.leb_spec (zlen m) i); [reflexivity|].
  rewrite zlen_app, zlen_cons, zlen_ztake, zlen_zdrop; lia.
Qed.

Lemma load_store (m : list ascii) (j : Z) (c : ascii) (i : Z) :
  0 <= j < zlen m -> 0 <= i ->
  load (store m j c) i = if i =? j then c else load m i.
Proof.
  intros Hj Hi. unfold store.
  destruct (Z.ltb_spec j 0); [lia|]. cbn [orb].
  destruct (Z.leb_spec (zlen m) j); [lia|].
  rewrite load_app by lia. rewrite zlen_ztake by lia.
  destruct (Z.ltb_spec i j).
  - rewrite load_ztake by lia.
    destruct (Z.eqb_spec i j); [lia|reflexivity].
  - rewrite load_cons by lia.
    destruct (Z.eqb_spec (i - j) 0), (Z.eqb_spec i j); try lia.
    + reflexivity.
    + rewrite load_zdrop by lia. f_equal. lia.
Qed.

(** ** Gap buffer *)

Ltac gsimp := cbn [buf cap gap_start gap_end fst snd] in *.

Lemma gap_length_nonneg (g : gapbuf) : gap_inv g -> 0 <= gap_length g.
Proof. unfold gap_inv, gap_length. lia. Qed.

Lemma zlen_gap_content (g : gapbuf) :
  gap_inv g -> zlen (gap_content g) = gap_length g.
Proof.
  unfold gap_inv, gap_content, gap_length. intros (Hb & H0 & H1 & H2).
  rewrite zlen_app, zlen_ztake, zlen_zdrop; lia.
Qed.

(** [gap_char_at] reads the logical sequence. *)
Lemma load_gap_content (g : gapbuf) (i : Z) :
  gap_inv g -> 0 <= i < gap_length g ->
  load (gap_content g) i = gap_char_at g i.
Proof.
  unfold gap_inv, gap_content, gap_char_at, gap_length.
  intros (Hb & H0 & H1 & H2) Hi.
  rewrite load_app by lia. rewrite zlen_ztake by lia.
  zcases; try lia.
  - apply load_ztake. lia.
  - rewrite load_zdrop by lia. reflexivity.
Qed.

(** Two well-formed buffers that [gap_char_at] cannot tell apart hold the
    same logical sequence. *)
Lemma gap_content_ext (g1 g2 : gapbuf) :
  gap_inv g1 -> gap_inv g2 ->
  gap_length g1 = gap_length g2 ->
  (forall i, 0 <= i < gap_length g1 -> gap_char_at g1 i = gap_char_at g2 i) ->
  gap_content g1 = gap_content g2.
Proof.
  intros I1 I2 Hlen Hch. apply load_ext.
  - rewrite !zlen_gap_content; assumption.
  - intros i Hi. rewrite zlen_gap_content in Hi by assumption.
    rewrite !load_gap_content by (assumption || lia). apply Hch. exact Hi.
Qed.

Lemma gap_char_at_out (g : gapbuf) (i : Z) :
  i < 0 \/ gap_length g <= i -> gap_char_at g i = NUL.
Proof. unfold gap_char_at. intros H. zcases; try lia; reflexivity. Qed.

(** The gap boundaries after [gap_move]. *)
Lemma gap_move_fields (g : gapbuf) (pos : Z) :
  gap_inv g ->
  let p := Z.min (Z.max 0 pos) (gap_length g) in
  cap (gap_move g pos) = cap g /\
  gap_start (gap_move g pos) = p /\
  gap_end (gap_move g pos) = gap_end g + (p - gap_start g).
Proof.
  unfold gap_inv, gap_move, gap_length. intros (Hb & H0 & H1 & H2).
  zcases; cbn [cap gap_start gap_end]; lia.
Qed.

Lemma gap_move_inv (g : gapbuf) (pos : Z) :
  gap_inv g -> gap_inv (gap_move g pos).
Proof.
  intros I. pose proof (gap_move_fields g pos I) as (Hc & Hs & He).
  revert Hc Hs He. generalize I.
  unfold gap_inv at 1 2, gap_length. intros (Hb & H0 & H1 & H2) Hc Hs He.
  rewrite Hc, Hs, He. split; [|lia].
  unfold gap_move, gap_length, memmove. zcases; cbn [buf]; try assumption.
  all: rewrite zlen_memcpy; lia.
Qed.

Lemma gap_move_length (g : gapbuf) (pos : Z) :
  gap_inv g -> gap_length (gap_move g pos) = gap_length g.
Proof.
  intros I. pose proof (gap_move_fields g pos I) as (Hc & Hs & He).
  unfold gap_length in *. lia.
Qed.

Lemma gap_move_char_at (g : gapbuf) (pos i : Z) :
  gap_inv g -> gap_char_at (gap_move g pos) i = gap_char_at g i.
Proof.
  intros I.
  destruct (Z.lt_ge_cases i 0) as [Hneg|Hi].
  { rewrite !gap_char_at_out by lia. reflexivity. }
  destruct (Z.le_gt_cases (gap_length g) i) as [Hbig|Hlt].
  { rewrite !gap_char_at_out; [reflexivity|lia|].
    rewrite gap_move_length by assumption. lia. }
  pose proof (gap_move_length g pos I) as HL.
  revert HL. unfold gap_char_at. intros ->.
  destruct I as (Hb & H0 & H1 & H2).
  unfold gap_move, memmove, gap_length in *.
  zcases; gsimp; try lia; try reflexivity.
  all: rewrite load_memcpy by lia; zcases; gsimp; try lia; try reflexivity.
  all: f_equal; lia.
Qed.

Lemma gap_move_content (g : gapbuf) (pos : Z) :
  gap_inv g -> gap_content (gap_move g pos) = gap_content g.
Proof.
  intros I. apply gap_content_ext.
  - apply gap_move_inv, I.
  - exact I.
  - apply gap_move_length, I.
  - intros i _. apply gap_move_char_at, I.
Qed.

(** The reallocation keeps the boundaries well formed and the logical
    sequence intact, and it opens the gap when the capacity is at least 2. *)
Lemma gap_grow_spec (g : gapbuf) :
  gap_inv g ->
  gap_inv (gap_grow g) /\
  cap (gap_grow g) = cap g + Z.quot (cap g) 2 /\
  gap_start (gap_grow g) = gap_start g /\
  gap_length (gap_grow g) = gap_length g /\
  (forall i, gap_char_at (gap_grow g) i = gap_char_at g i).
Proof.
  intros (Hb & H0 & H1 & H2).
  assert (Hq : Z.quot (cap g) 2 = cap g / 2)
    by (apply Z.quot_div_nonneg; lia).
  assert (Hq0 : 0 <= cap g / 2) by (apply Z.div_pos; lia).
  assert (Hm : zlen (malloc (cap g + cap g / 2)) = cap g + cap g / 2)
    by (apply zlen_malloc; lia).
  assert (Hlen : zlen (buf (gap_grow g)) = cap g + cap g / 2).
  { unfold gap_grow. rewrite Hq. cbn [buf].
    destruct (Z.eqb_spec (gap_start g) 0), (Z.eqb_spec (cap g - gap_end g) 0);
      rewrite ?zlen_memcpy; rewrite ?zlen_memcpy; lia. }
  split; [|split; [|split; [|split]]].
  - split; [|unfold gap_grow in *; gsimp; lia].
    rewrite Hlen. unfold gap_grow. gsimp. lia.
  - reflexivity.
  - reflexivity.
  - unfold gap_grow, gap_length. gsimp. lia.
  - intros i. unfold gap_char_at, gap_length, gap_grow. rewrite Hq. gsimp.
    zcases; try lia; try reflexivity.
    all: repeat (rewrite load_memcpy by (rewrite ?zlen_memcpy; lia)).
    all: zcases; try lia; try reflexivity.
    all: f_equal; lia.
Qed.

(** Writing [c] at the gap start when the gap is not empty. *)
Lemma gap_put_spec (g : gapbuf) (c : ascii) :
  gap_inv g -> gap_start g < gap_end g ->
  let g' := mkGap (store (buf g) (gap_start g) c) (cap g)
                  (gap_start g + 1) (gap_end g) in
  gap_inv g' /\
  gap_length g' = gap_length g + 1 /\
  (forall i, 0 <= i < gap_length g + 1 ->
     gap_char_at g' i =
     if i <? gap_start g then gap_char_at g i
     else if i =? gap_start g then c
     else gap_char_at g (i - 1)).
Proof.
  intros (Hb & H0 & H1 & H2) Hroom g'. subst g'.
  split; [|split].
  - unfold gap_inv. gsimp. rewrite zlen_store. lia.
  - unfold gap_length. gsimp. lia.
  - intros i Hi. unfold gap_char_at, gap_length in *. gsimp.
    zcases; try lia.
    all: rewrite load_store by lia; zcases; try lia; try reflexivity.
    f_equal. lia.
Qed.

Lemma gap_insert_spec (g : gapbuf) (c : ascii) :
  gap_inv g -> gap_room g ->
  gap_inv (gap_insert g c) /\
  cap g <= cap (gap_insert g c) /\
  gap_start (gap_insert g c) = gap_start g + 1 /\
  gap_length (gap_insert g c) = gap_length g + 1 /\
  (forall i, 0 <= i < gap_length g + 1 ->
     gap_char_at (gap_insert g c) i =
     if i <? gap_start g then gap_char_at g i
     else if i =? gap_start g then c
     else gap_char_at g (i - 1)).
Proof.
  intros I R. unfold gap_insert.
  destruct (Z.eqb_spec (gap_start g) (gap_end g)) as [He|Hne].
  - pose proof (gap_grow_spec g I) as (I1 & Hc & Hs & HL & Hch).
    assert (Hq : Z.quot (cap g) 2 = cap g / 2).
    { destruct I as (_ & ? & ? & ?). apply Z.quot_div_nonneg; lia. }
    assert (Hroom : gap_start (gap_grow g) < gap_end (gap_grow g)).
    { destruct I as (_ & ? & ? & ?). destruct R as [R|R]; [lia|].
      unfold gap_grow. rewrite Hq. gsimp.
      assert (1 <= cap g / 2) by (apply Z.div_le_lower_bound; lia). lia. }
    pose proof (gap_put_spec (gap_grow g) c I1 Hroom) as (I2 & HL2 & Hch2).
    cbv zeta in I2, HL2, Hch2.
    split; [exact I2|]. gsimp.
    split; [rewrite Hc, Hq; destruct I as (_ & ? & ? & ?);
            assert (0 <= cap g / 2) by (apply Z.div_pos; lia); lia|].
    split; [lia|]. split; [lia|].
    intros i Hi. rewrite Hch2 by lia. rewrite Hs, !Hch. reflexivity.
  - assert (Hroom : gap_start g < gap_end g)
      by (destruct I as (_ & ? & ? & ?); lia).
    pose proof (gap_put_spec g c I Hroom) as (I2 & HL2 & Hch2).
    cbv zeta in I2, HL2, Hch2.
    split; [exact I2|]. gsimp.
    split; [lia|]. split; [reflexivity|]. split; [exact HL2|exact Hch2].
Qed.

Lemma gap_room_insert (g : gapbuf) (c : ascii) :
  gap_inv g -> 2 <= cap g -> 2 <= cap (gap_insert g c).
Proof.
  intros I R. pose proof (gap_insert_spec g c I (or_intror R)). lia.
Qed.

Lemma gap_delete_spec (g : gapbuf) :
  gap_inv g ->
  gap_inv (snd (gap_delete g)) /\
  cap (snd (gap_delete g)) = cap g /\
  gap_start (snd (gap_delete g)) = gap_start g /\
  (fst (gap_delete g) = 0 /\ snd (gap_delete g) = g /\
     gap_start g = gap_length g
   \/
   fst (gap_delete g) = 1 /\ gap_start g < gap_length g /\
     gap_length (snd (gap_delete g)) = gap_length g - 1 /\
     (forall i, 0 <= i < gap_length g - 1 ->
        gap_char_at (snd (gap_delete g)) i =
        if i <? gap_start g then gap_char_at g i
        else gap_char_at g (i + 1))).
Proof.
  intros (Hb & H0 & H1 & H2). unfold gap_delete, gap_inv, gap_length.
  destruct (Z.eqb_spec (gap_end g) (cap g)); gsimp.
  - repeat split; try lia. left. repeat split; lia.
  - repeat split; try lia. right. repeat split; try lia.
    intros i Hi. unfold gap_char_at, gap_length. gsimp.
    zcases; try lia; try reflexivity. f_equal. lia.
Qed.

Lemma gap_backspace_spec (g : gapbuf) :
  gap_inv g ->
  gap_inv (snd (gap_backspace g)) /\
  cap (snd (gap_backspace g)) = cap g /\
  (fst (gap_backspace g) = 0 /\ snd (gap_backspace g) = g /\ gap_start g = 0
   \/
   fst (gap_backspace g) = 1 /\ 0 < gap_start g /\
     gap_start (snd (gap_backspace g)) = gap_start g - 1 /\
     gap_length (snd (gap_backspace g)) = gap_length g - 1 /\
     (forall i, 0 <= i < gap_length g - 1 ->
        gap_char_at (snd (gap_backspace g)) i =
        if i <? gap_start g - 1 then gap_char_at g i
        else gap_char_at g (i + 1))).
Proof.
  intros (Hb & H0 & H1 & H2). unfold gap_backspace, gap_inv, gap_length.
  destruct (Z.eqb_spec (gap_start g) 0); gsimp.
  - repeat split; try lia. left. repeat split; lia.
  - repeat split; try lia. right. repeat split; try lia.
    intros i Hi. unfold gap_char_at, gap_length. gsimp.
    zcases; try lia; try reflexivity. f_equal. lia.
Qed.

(** The structural invariant is kept by [gap_move], [gap_backspace] and
    [gap_delete] always, and by [gap_insert] when the gap is not empty or
    the capacity is at least 2; the length is unchanged by [gap_move], one
    more after [gap_insert], one less after a backspace or delete that
    returns 1, and unchanged after one that returns 0. *)
Lemma gap_invariant_preserved (g : gapbuf) :
  gap_inv g ->
  (forall pos, gap_inv (gap_move g pos) /\
               gap_length (gap_move g pos) = gap_length g) /\
  (forall c, gap_room g ->
             gap_inv (gap_insert g c) /\
             gap_length (gap_insert g c) = gap_length g + 1) /\
  (gap_inv (snd (gap_backspace g)) /\
   (fst (gap_backspace g) = 0 /\ snd (gap_backspace g) = g \/
    fst (gap_backspace g) = 1 /\
    gap_length (snd (gap_backspace g)) = gap_length g - 1)) /\
  (gap_inv (snd (gap_delete g)) /\
   (fst (gap_delete g) = 0 /\ snd (gap_delete g) = g \/
    fst (gap_delete g) = 1 /\
    gap_length (snd (gap_delete g)) = gap_length g - 1)).
Proof.
  intros I. split; [|split; [|split]].
  - intros pos. split; [apply gap_move_inv, I|apply gap_move_length, I].
  - intros c R. pose proof (gap_insert_spec g c I R) as (H1 & _ & _ & H2 & _).
    split; assumption.
  - pose proof (gap_backspace_spec g I) as (H1 & _ & H2).
    split; [exact H1|].
    destruct H2 as [(? & ? & _)|(? & _ & _ & ? & _)]; [left|right]; split;
      assumption.
  - pose proof (gap_delete_spec g I) as (H1 & _ & _ & H2).
    split; [exact H1|].
    destruct H2 as [(? & ? & _)|(? & _ & ? & _)]; [left|right]; split;
      assumption.
Qed.

(** With room in the destination, [gap_get] writes the logical sequence
    over its first bytes and returns the length. *)
Lemma gap_get_ok (g : gapbuf) (out : list ascii) (outcap : Z) :
  gap_inv g -> gap_length g <= outcap -> outcap <= zlen out ->
  gap_get g out outcap =
  (gap_length g, gap_content g ++ zdrop (gap_length g) out).
Proof.
  intros I Hcap Hout. pose proof I as (Hb & H0 & H1 & H2).
  unfold gap_get. destruct (Z.ltb_spec outcap (gap_length g)); [lia|].
  f_equal. apply load_ext.
  - rewrite zlen_app, zlen_gap_content, zlen_zdrop
      by (assumption || (unfold gap_length in *; lia)).
    unfold gap_length in *.
    zcases; rewrite ?zlen_memcpy; rewrite ?zlen_memcpy; lia.
  - intros i Hi.
    assert (Hz : zlen (if gap_start g =? 0 then out
                       else memcpy out 0 (buf g) 0 (gap_start g)) = zlen out).
    { unfold gap_length in *. zcases; rewrite ?zlen_memcpy; lia. }
    assert (Hi' : 0 <= i) by lia. clear Hi.
    rewrite load_app by lia. rewrite zlen_gap_content by assumption.
    destruct (Z.ltb_spec i (gap_length g)).
    + rewrite load_gap_content by (assumption || lia).
      unfold gap_char_at, gap_length in *.
      zcases; try lia.
      all: repeat (rewrite load_memcpy by (rewrite ?zlen_memcpy; lia));
        zcases; try lia; try reflexivity.
      all: f_equal; lia.
    + rewrite load_zdrop by (unfold gap_length in *; lia).
      unfold gap_length in *.
      zcases; try lia.
      all: repeat (rewrite load_memcpy by (rewrite ?zlen_memcpy; lia));
        zcases; try lia; try reflexivity.
      all: f_equal; lia.
Qed.

(** ** Coordinate mapper *)

(** The scan of [pos_to_rowcol] never lowers the row; when it leaves the row
    as it was, it crossed no line feed and advanced the column by the
    distance scanned. *)
Lemma pos_to_rowcol_loop_row (g : gapbuf) (p : Z) (fuel : nat) :
  forall i cr cc, Z.of_nat fuel = p - i ->
  cr <= fst (pos_to_rowcol_loop fuel g p i cr cc) /\
  (fst (pos_to_rowcol_loop fuel g p i cr cc) = cr ->
   snd (pos_to_rowcol_loop fuel g p i cr cc) = cc + (p - i) /\
   forall j, i <= j < p -> Ascii.eqb (gap_char_at g j) LF = false).
Proof.
  induction fuel as [|f IH]; intros i cr cc Hf; cbn [pos_to_rowcol_loop].
  - cbn [fst snd]. split; [lia|]. intros _. split; [lia|]. intros j Hj. lia.
  - destruct (Z.ltb_spec i p); [|lia].
    destruct (Ascii.eqb (gap_char_at g i) LF) eqn:Hc.
    + destruct (IH (i + 1) (cr + 1) 0 ltac:(lia)) as [Hle _].
      split; [lia|]. intros Heq. lia.
    + destruct (IH (i + 1) cr (cc + 1) ltac:(lia)) as [Hle Hsame].
      split; [exact Hle|]. intros Heq. destruct (Hsame Heq) as [Hcol Hnl].
      split; [lia|]. intros j Hj.
      destruct (Z.eq_dec j i) as [->|Hne]; [exact Hc|]. apply Hnl. lia.
Qed.

(** The second loop of [rowcol_to_pos] walks a stretch free of line feeds
    up to the requested column. *)
Lemma rowcol_cols_loop_walk (g : gapbuf) (len p : Z) (fuel : nat) :
  forall i cc, i <= p <= len -> p - i <= Z.of_nat fuel ->
  (forall j, i <= j < p -> Ascii.eqb (gap_char_at g j) LF = false) ->
  rowcol_cols_loop fuel g len (cc + (p - i)) i cc = p.
Proof.
  induction fuel as [|f IH]; intros i cc Hi Hf Hnl; cbn [rowcol_cols_loop].
  - lia.
  - destruct (Z.eq_dec i p) as [->|Hne].
    + destruct (Z.ltb_spec cc (cc + (p - p))); [lia|].
      rewrite andb_false_r. reflexivity.
    + destruct (Z.ltb_spec i len); [|lia].
      destruct (Z.ltb_spec cc (cc + (p - i))); [|lia]. cbn [andb].
      rewrite Hnl by lia.
      replace (cc + (p - i)) with ((cc + 1) + (p - (i + 1))) by lia.
      apply IH; try lia. intros j Hj. apply Hnl. lia.
Qed.

Lemma rowcol_cols_loop_stay (g : gapbuf) (len c pos : Z) (fuel : nat) :
  rowcol_cols_loop fuel g len c pos c = pos.
Proof.
  destruct fuel; cbn [rowcol_cols_loop]; [reflexivity|].
  rewrite Z.ltb_irrefl, andb_false_r. reflexivity.
Qed.

(** From any state of the scan, the two loops of [rowcol_to_pos] aimed at
    the coordinates the scan ends with stop where the scan ends. *)
Lemma rowcol_loops_invert (g : gapbuf) (len p : Z) (fuel : nat) :
  forall i cr cc (fuel1 : nat),
  Z.of_nat fuel = p - i -> p <= len -> len - i <= Z.of_nat fuel1 ->
  let rc := pos_to_rowcol_loop fuel g p i cr cc in
  (let '(pos, _, cur_col) :=
     rowcol_rows_loop fuel1 g len (fst rc) i cr cc in
   rowcol_cols_loop (Z.to_nat (len - pos)) g len (snd rc) pos cur_col) = p.
Proof.
  induction fuel as [|f IH]; intros i cr cc fuel1 Hf Hp Hf1.
  - cbn [pos_to_rowcol_loop fst snd]. assert (i = p) by lia. subst i.
    destruct fuel1; cbn [rowcol_rows_loop].
    + apply rowcol_cols_loop_stay.
    + rewrite Z.ltb_irrefl, andb_false_r. apply rowcol_cols_loop_stay.
  - pose proof (pos_to_rowcol_loop_row g p (S f) i cr cc Hf) as [Hle Hsame].
    destruct fuel1 as [|f1]; [lia|].
    cbv zeta. cbn [rowcol_rows_loop].
    destruct (Z.ltb_spec i len); [|lia]. cbn [andb].
    destruct (Z.ltb_spec cr (fst (pos_to_rowcol_loop (S f) g p i cr cc)))
      as [Hlt|Hge].
    + cbn [pos_to_rowcol_loop]. destruct (Z.ltb_spec i p); [|lia].
      destruct (Ascii.eqb (gap_char_at g i) LF).
      * apply (IH (i + 1) (cr + 1) 0 f1); lia.
      * apply (IH (i + 1) cr (cc + 1) f1); lia.
    + destruct (Hsame ltac:(lia)) as [Hcol Hnl]. rewrite Hcol.
      apply rowcol_cols_loop_walk; try lia. exact Hnl.
Qed.

(** [rowcol_to_pos] undoes [pos_to_rowcol]. *)
Lemma rowcol_to_pos_of_pos (g : gapbuf) (p : Z) :
  0 <= p <= gap_length g ->
  rowcol_to_pos g (fst (pos_to_rowcol g p)) (snd (pos_to_rowcol g p)) = p.
Proof.
  intros Hp. unfold rowcol_to_pos, pos_to_rowcol.
  apply (rowcol_loops_invert g (gap_length g) p (Z.to_nat p) 0 0 0
           (Z.to_nat (gap_length g))); lia.
Qed.

(** Both loops of [rowcol_to_pos] stay between their start and [len]. *)
Lemma rowcol_rows_loop_bounds (g : gapbuf) (len row : Z) (fuel : nat) :
  forall pos cr cc, pos <= len ->
  pos <= fst (fst (rowcol_rows_loop fuel g len row pos cr cc)) <= len.
Proof.
  induction fuel as [|f IH]; intros pos cr cc Hpos; cbn [rowcol_rows_loop].
  - cbn [fst]. lia.
  - destruct (Z.ltb_spec pos len); cbn [andb]; [|cbn [fst]; lia].
    destruct (cr <? row); [|cbn [fst]; lia].
    destruct (Ascii.eqb (gap_char_at g pos) LF).
    + specialize (IH (pos + 1) (cr + 1) 0). lia.
    + specialize (IH (pos + 1) cr (cc + 1)). lia.
Qed.

Lemma rowcol_cols_loop_bounds (g : gapbuf) (len col : Z) (fuel : nat) :
  forall pos cc, pos <= len ->
  pos <= rowcol_cols_loop fuel g len col pos cc <= len.
Proof.
  induction fuel as [|f IH]; intros pos cc Hpos; cbn [rowcol_cols_loop].
  - lia.
  - destruct (Z.ltb_spec pos len); cbn [andb]; [|lia].
    destruct (cc <? col); [|lia].
    destruct (Ascii.eqb (gap_char_at g pos) LF); [lia|].
    specialize (IH (pos + 1) (cc + 1)). lia.
Qed.

(** The loops are given all the iterations they can use: more change
    nothing. *)
Lemma rowcol_rows_loop_fuel (g : gapbuf) (len row : Z) (fuel : nat) :
  forall (fuel' : nat) pos cr cc,
  len - pos <= Z.of_nat fuel -> (fuel <= fuel')%nat ->
  rowcol_rows_loop fuel' g len row pos cr cc =
  rowcol_rows_loop fuel g len row pos cr cc.
Proof.
  induction fuel as [|f IH]; intros [|f'] pos cr cc Hf Hle;
    cbn [rowcol_rows_loop]; try reflexivity; try lia.
  - destruct (Z.ltb_spec pos len); [lia|]. reflexivity.
  - destruct ((pos <? len) && (cr <? row)); [|reflexivity].
    destruct (Ascii.eqb (gap_char_at g pos) LF); apply IH; lia.
Qed.

Lemma rowcol_cols_loop_fuel (g : gapbuf) (len col : Z) (fuel : nat) :
  forall (fuel' : nat) pos cc,
  len - pos <= Z.of_nat fuel -> (fuel <= fuel')%nat ->
  rowcol_cols_loop fuel' g len col pos cc =
  rowcol_cols_loop fuel g len col pos cc.
Proof.
  induction fuel as [|f IH]; intros [|f'] pos cc Hf Hle;
    cbn [rowcol_cols_loop]; try reflexivity; try lia.
  - destruct (Z.ltb_spec pos len); [lia|]. reflexivity.
  - destruct ((pos <? len) && (cc <? col)); [|reflexivity].
    destruct (Ascii.eqb (gap_char_at g pos) LF); [reflexivity|].
    apply IH; lia.
Qed.

Lemma rowcol_to_pos_bounds (g : gapbuf) (row col : Z) :
  0 <= gap_length g -> 0 <= rowcol_to_pos g row col <= gap_length g.
Proof.
  intros HL. unfold rowcol_to_pos.
  pose proof (rowcol_rows_loop_bounds g (gap_length g) row
                (Z.to_nat (gap_length g)) 0 0 0 HL) as Hb.
  destruct (rowcol_rows_loop (Z.to_nat (gap_length g)) g (gap_length g) row
              0 0 0) as [[pos cr] cc].
  cbn [fst] in Hb.
  pose proof (rowcol_cols_loop_bounds g (gap_length g) col
                (Z.to_nat (gap_length g - pos)) pos cc ltac:(lia)).
  lia.
Qed.

(** [rowcol_to_pos] is the result of its two loops run to their exit,
    however many more iterations they are allowed. *)
Lemma rowcol_to_pos_fuel (g : gapbuf) (row col : Z) (fuel1 fuel2 : nat) :
  0 <= gap_length g ->
  (Z.to_nat (gap_length g) <= fuel1)%nat ->
  (Z.to_nat (gap_length g) <= fuel2)%nat ->
  (let '(pos, _, cur_col) :=
     rowcol_rows_loop fuel1 g (gap_length g) row 0 0 0 in
   rowcol_cols_loop fuel2 g (gap_length g) col pos cur_col) =
  rowcol_to_pos g row col.
Proof.
  intros HL H1 H2. unfold rowcol_to_pos.
  rewrite (rowcol_rows_loop_fuel g (gap_length g) row
             (Z.to_nat (gap_length g)) fuel1) by lia.
  pose proof (rowcol_rows_loop_bounds g (gap_length g) row
                (Z.to_nat (gap_length g)) 0 0 0 HL) as Hb.
  destruct (rowcol_rows_loop (Z.to_nat (gap_length g)) g (gap_length g) row
              0 0 0) as [[pos cr] cc].
  cbn [fst] in Hb.
  apply rowcol_cols_loop_fuel; lia.
Qed.

(** [count_rows] only counts up. *)
Lemma count_rows_loop_mono (g : gapbuf) (len : Z) (fuel : nat) :
  forall i rows, rows <= count_rows_loop fuel g len i rows.
Proof.
  induction fuel as [|f IH]; intros i rows; cbn [count_rows_loop]; [lia|].
  destruct (i <? len); [|lia].
  destruct (Ascii.eqb (gap_char_at g i) LF).
  - specialize (IH (i + 1) (rows + 1)). lia.
  - apply IH.
Qed.

(** Aimed at a row the text does not have, the first loop of
    [rowcol_to_pos] runs to the end of the text. *)
Lemma rowcol_rows_loop_past (g : gapbuf) (len row : Z) (fuel : nat) :
  forall pos cr cc, Z.of_nat fuel = len - pos ->
  count_rows_loop fuel g len pos (cr + 1) <= row ->
  fst (fst (rowcol_rows_loop fuel g len row pos cr cc)) = len.
Proof.
  induction fuel as [|f IH]; intros pos cr cc Hf Hrows;
    cbn [rowcol_rows_loop count_rows_loop] in *.
  - cbn [fst]. lia.
  - destruct (Z.ltb_spec pos len); [|lia]. cbn [andb].
    pose proof (count_rows_loop_mono g len f (pos + 1)
                  (if Ascii.eqb (gap_char_at g pos) LF
                   then cr + 1 + 1 else cr + 1)) as Hm.
    destruct (Ascii.eqb (gap_char_at g pos) LF).
    + destruct (Z.ltb_spec cr row); [|lia]. apply IH; [lia|exact Hrows].
    + destruct (Z.ltb_spec cr row); [|lia]. apply IH; [lia|exact Hrows].
Qed.

Lemma rowcol_to_pos_past (g : gapbuf) (row col : Z) :
  0 <= gap_length g -> count_rows g <= row ->
  rowcol_to_pos g row col = gap_length g.
Proof.
  intros HL Hrow. unfold rowcol_to_pos, count_rows in *.
  pose proof (rowcol_rows_loop_past g (gap_length g) row
                (Z.to_nat (gap_length g)) 0 0 0 ltac:(lia) Hrow) as Hp.
  destruct (rowcol_rows_loop (Z.to_nat (gap_length g)) g (gap_length g) row
              0 0 0) as [[pos cr] cc].
  cbn [fst] in Hp. subst pos.
  rewrite Z.sub_diag. reflexivity.
Qed.

(** ** Edits on the logical sequence *)

Lemma zlen_list_insert (p : Z) (c : ascii) (s : list ascii) :
  0 <= p <= zlen s -> zlen (list_insert p c s) = zlen s + 1.
Proof.
  intros. unfold list_insert.
  rewrite zlen_app, zlen_cons, zlen_ztake, zlen_zdrop; lia.
Qed.

Lemma load_list_insert (p : Z) (c : ascii) (s : list ascii) (i : Z) :
  0 <= p <= zlen s -> 0 <= i ->
  load (list_insert p c s) i =
  if i <? p then load s i else if i =? p then c else load s (i - 1).
Proof.
  intros Hp Hi. unfold list_insert.
  rewrite load_app by lia. rewrite zlen_ztake by lia.
  destruct (Z.ltb_spec i p).
  - apply load_ztake. lia.
  - rewrite load_cons by lia.
    destruct (Z.eqb_spec (i - p) 0), (Z.eqb_spec i p); try lia.
    + reflexivity.
    + rewrite load_zdrop by lia. f_equal. lia.
Qed.

Lemma zlen_list_delete (p : Z) (s : list ascii) :
  0 <= p < zlen s -> zlen (list_delete p s) = zlen s - 1.
Proof.
  intros. unfold list_delete.
  rewrite zlen_app, zlen_ztake, zlen_zdrop; lia.
Qed.

Lemma load_list_delete (p : Z) (s : list ascii) (i : Z) :
  0 <= p <= zlen s -> 0 <= i ->
  load (list_delete p s) i = if i <? p then load s i else load s (i + 1).
Proof.
  intros Hp Hi. unfold list_delete.
  rewrite load_app by lia. rewrite zlen_ztake by lia.
  destruct (Z.ltb_spec i p).
  - apply load_ztake. lia.
  - rewrite load_zdrop by lia. f_equal. lia.
Qed.

Lemma list_delete_end (p : Z) (s : list ascii) :
  zlen s <= p -> list_delete p s = s.
Proof.
  intros Hp. unfold list_delete, ztake, zdrop, zlen in *.
  rewrite firstn_all2, skipn_all2 by lia. apply app_nil_r.
Qed.

(** Deleting the byte just inserted gives the sequence back. *)
Lemma list_delete_insert (p : Z) (c : ascii) (s : list ascii) :
  0 <= p <= zlen s -> list_delete p (list_insert p c s) = s.
Proof.
  intros Hp. apply load_ext.
  - rewrite zlen_list_delete; rewrite zlen_list_insert; lia.
  - intros i Hi.
    rewrite zlen_list_delete in Hi by (rewrite zlen_list_insert; lia).
    rewrite zlen_list_insert in Hi by lia.
    rewrite load_list_delete by (rewrite ?zlen_list_insert; lia).
    rewrite !load_list_insert by lia.
    zcases; try lia; try reflexivity. f_equal. lia.
Qed.

(** Inserting back the byte a deletion removed gives the sequence back. *)
Lemma list_insert_delete (p : Z) (s : list ascii) :
  0 <= p < zlen s -> list_insert p (load s p) (list_delete p s) = s.
Proof.
  intros Hp. apply load_ext.
  - rewrite zlen_list_insert; rewrite zlen_list_delete; lia.
  - intros i Hi.
    rewrite zlen_list_insert in Hi by (rewrite zlen_list_delete; lia).
    rewrite zlen_list_delete in Hi by lia.
    rewrite load_list_insert by (rewrite ?zlen_list_delete; lia).
    zcases; try lia; subst; try reflexivity.
    all: rewrite load_list_delete by lia; zcases; try lia; try reflexivity.
    f_equal. lia.
Qed.

Lemma gap_insert_content (g : gapbuf) (c : ascii) :
  gap_inv g -> gap_room g ->
  gap_content (gap_insert g c) = list_insert (gap_start g) c (gap_content g).
Proof.
  intros I R.
  pose proof (gap_insert_spec g c I R) as (I' & _ & _ & HL & Hch).
  pose proof (zlen_gap_content g I) as Hz.
  pose proof I as (_ & H0 & H1 & H2).
  assert (Hgs : 0 <= gap_start g <= zlen (gap_content g))
    by (unfold gap_length in *; lia).
  apply load_ext.
  - rewrite zlen_gap_content, zlen_list_insert by assumption. lia.
  - intros i Hi. rewrite zlen_gap_content in Hi by assumption.
    rewrite load_gap_content by (assumption || lia).
    rewrite Hch by lia. rewrite load_list_insert by lia.
    zcases; try reflexivity; apply eq_sym, load_gap_content; try assumption;
      lia.
Qed.

Lemma gap_delete_content (g : gapbuf) :
  gap_inv g ->
  gap_content (snd (gap_delete g)) = list_delete (gap_start g) (gap_content g).
Proof.
  intros I.
  pose proof (gap_delete_spec g I) as (I' & _ & _ & Hcase).
  pose proof (zlen_gap_content g I) as Hz.
  pose proof I as (_ & H0 & H1 & H2).
  destruct Hcase as [(_ & Hsame & Hfull)|(_ & Hlt & HL & Hch)].
  - rewrite Hsame. symmetry. apply list_delete_end. lia.
  - apply load_ext.
    + rewrite zlen_gap_content, zlen_list_delete by (assumption || lia). lia.
    + intros i Hi. rewrite zlen_gap_content in Hi by assumption.
      rewrite load_gap_content by (assumption || lia).
      rewrite Hch by lia. rewrite load_list_delete by lia.
      zcases; apply eq_sym, load_gap_content; try assumption; lia.
Qed.

(** ** History *)

Lemma clamp_range (pos len : Z) : 0 <= len -> 0 <= clamp pos len <= len.
Proof. unfold clamp. lia. Qed.

Lemma clamp_id (pos len : Z) : 0 <= pos <= len -> clamp pos len = pos.
Proof. unfold clamp. lia. Qed.

(** [gap_move] and then [gap_delete], on the logical sequence. *)
Lemma gap_move_delete_content (g : gapbuf) (pos : Z) :
  gap_inv g ->
  let g' := snd (gap_delete (gap_move g pos)) in
  gap_inv g' /\ cap g' = cap g /\
  gap_content g' =
  list_delete (clamp pos (zlen (gap_content g))) (gap_content g).
Proof.
  intros I g'. subst g'.
  pose proof (gap_move_inv g pos I) as Im.
  pose proof (gap_move_fields g pos I) as (Hc & Hs & _).
  pose proof (gap_delete_spec _ Im) as (Id & Hcd & _).
  split; [exact Id|]. split; [lia|].
  rewrite gap_delete_content by exact Im.
  rewrite gap_move_content, zlen_gap_content by exact I.
  rewrite Hs. reflexivity.
Qed.

(** [gap_move] and then [gap_insert], on the logical sequence. *)
Lemma gap_move_insert_content (g : gapbuf) (pos : Z) (c : ascii) :
  gap_inv g -> 2 <= cap g ->
  let g' := gap_insert (gap_move g pos) c in
  gap_inv g' /\ 2 <= cap g' /\
  gap_content g' =
  list_insert (clamp pos (zlen (gap_content g))) c (gap_content g).
Proof.
  intros I R g'. subst g'.
  pose proof (gap_move_inv g pos I) as Im.
  pose proof (gap_move_fields g pos I) as (Hc & Hs & _).
  assert (Rm : gap_room (gap_move g pos)) by (right; lia).
  pose proof (gap_insert_spec _ c Im Rm) as (Ii & Hci & _).
  split; [exact Ii|]. split; [lia|].
  rewrite gap_insert_content by assumption.
  rewrite gap_move_content, zlen_gap_content by exact I.
  rewrite Hs. reflexivity.
Qed.

(** One [history_undo] on a stack that is not empty: the record moves to the
    redo stack and the logical sequence changes by [undo_content]. *)
Lemma history_undo_step (h : editHistory) (g : gapbuf) (e : edit)
  (u : list edit) :
  undoStack h = e :: u -> gap_inv g -> 2 <= cap g ->
  exists g',
    history_undo h g = (1, mkHist u (e :: redoStack h) (grouping h), g') /\
    gap_inv g' /\ 2 <= cap g' /\
    gap_content g' = undo_content e (gap_content g).
Proof.
  intros Hu I R. unfold history_undo. rewrite Hu.
  eexists. split; [reflexivity|]. unfold undo_content.
  pose proof (gap_move_delete_content g (e_pos e) I) as (Id & Hcd & Hd).
  pose proof (gap_move_insert_content g (e_pos e) (e_ch e) I R)
    as (Ii & Hci & Hi).
  pose proof (gap_move_insert_content g (e_pos e) LF I R) as (Il & Hcl & Hl).
  destruct (e_type e); (split; [assumption|split; [lia|assumption]]).
Qed.

Lemma history_redo_step (h : editHistory) (g : gapbuf) (e : edit)
  (r : list edit) :
  redoStack h = e :: r -> gap_inv g -> 2 <= cap g ->
  exists g',
    history_redo h g = (1, mkHist (e :: undoStack h) r (grouping h), g') /\
    gap_inv g' /\ 2 <= cap g' /\
    gap_content g' = redo_content e (gap_content g).
Proof.
  intros Hr I R. unfold history_redo. rewrite Hr.
  eexists. split; [reflexivity|]. unfold redo_content.
  pose proof (gap_move_delete_content g (e_pos e) I) as (Id & Hcd & Hd).
  pose proof (gap_move_insert_content g (e_pos e) (e_ch e) I R)
    as (Ii & Hci & Hi).
  pose proof (gap_move_insert_content g (e_pos e) LF I R) as (Il & Hcl & Hl).
  destruct (e_type e); (split; [assumption|split; [lia|assumption]]).
Qed.

(** As many undos as the records [es] on top of the undo stack. *)
Lemma undo_n_spec (es : list edit) :
  forall (h : editHistory) (g : gapbuf) (u : list edit),
  undoStack h = es ++ u -> gap_inv g -> 2 <= cap g ->
  exists g',
    undo_n (List.length es) h g =
      (mkHist u (rev es ++ redoStack h) (grouping h), g') /\
    gap_inv g' /\ 2 <= cap g' /\
    gap_content g' = fold_left (fun s e => undo_content e s) es (gap_content g).
Proof.
  induction es as [|e es IH]; intros h g u Hu I R.
  - exists g. cbn [List.length undo_n rev app fold_left] in *.
    destruct h; cbn in *; subst. split; [reflexivity|]. auto.
  - destruct (history_undo_step h g e (es ++ u) Hu I R)
      as (g1 & Hstep & I1 & R1 & Hc1).
    destruct (IH (mkHist (es ++ u) (e :: redoStack h) (grouping h)) g1 u
                eq_refl I1 R1) as (g2 & Hn & I2 & R2 & Hc2).
    exists g2. cbn [List.length undo_n]. rewrite Hstep, Hn.
    cbn [redoStack grouping rev fold_left]. rewrite <- app_assoc.
    split; [reflexivity|]. split; [assumption|]. split; [assumption|].
    rewrite Hc2, Hc1. reflexivity.
Qed.

Lemma redo_n_spec (es : list edit) :
  forall (h : editHistory) (g : gapbuf) (r : list edit),
  redoStack h = es ++ r -> gap_inv g -> 2 <= cap g ->
  exists g',
    redo_n (List.length es) h g =
      (mkHist (rev es ++ undoStack h) r (grouping h), g') /\
    gap_inv g' /\ 2 <= cap g' /\
    gap_content g' = fold_left (fun s e => redo_content e s) es (gap_content g).
Proof.
  induction es as [|e es IH]; intros h g r Hr I R.
  - exists g. cbn [List.length redo_n rev app fold_left] in *.
    destruct h; cbn in *; subst. split; [reflexivity|]. auto.
  - destruct (history_redo_step h g e (es ++ r) Hr I R)
      as (g1 & Hstep & I1 & R1 & Hc1).
    destruct (IH (mkHist (e :: undoStack h) (es ++ r) (grouping h)) g1 r
                eq_refl I1 R1) as (g2 & Hn & I2 & R2 & Hc2).
    exists g2. cbn [List.length redo_n]. rewrite Hstep, Hn.
    cbn [undoStack grouping rev fold_left]. rewrite <- app_assoc.
    split; [reflexivity|]. split; [assumption|]. split; [assumption|].
    rewrite Hc2, Hc1. reflexivity.
Qed.

(** Undoing a replayable stack from its end gives its start, and redoing the
    same records in the opposite order gives its end again. *)
Lemma replays_undo (s0 s1 : list ascii) (es : list edit) :
  replays s0 es s1 ->
  fold_left (fun s e => undo_content e s) es s1 = s0.
Proof.
  induction 1 as [s|s0 es s1 e s2 Hr IH Hredo Hundo]; cbn [fold_left].
  - reflexivity.
  - rewrite Hundo. exact IH.
Qed.

Lemma replays_redo (s0 s1 : list ascii) (es : list edit) :
  replays s0 es s1 ->
  fold_left (fun s e => redo_content e s) (rev es) s0 = s1.
Proof.
  induction 1 as [s|s0 es s1 e s2 Hr IH Hredo Hundo]; cbn [rev fold_left].
  - reflexivity.
  - rewrite fold_left_app. cbn [fold_left]. rewrite IH. exact Hredo.
Qed.

Lemma replays_app (s0 s1 s2 : list ascii) (es1 es2 : list edit) :
  replays s0 es1 s1 -> replays s1 es2 s2 -> replays s0 (es2 ++ es1) s2.
Proof.
  intros H1 H2. induction H2 as [s|s1 es s1' e s2 Hr IH Hredo Hundo].
  - exact H1.
  - cbn [app]. eapply replays_cons; eauto.
Qed.

(** ** Typing *)

(** One [editorInsertChar]: the record it pushes replays the change it makes
    to the logical sequence. *)
Lemma editorInsertChar_spec (c : ascii) (s : state) :
  gap_inv (st_g s) -> 2 <= cap (st_g s) ->
  let s' := editorInsertChar c s in
  let e := mkEdit EDIT_INSERT
             (rowcol_to_pos (st_g s) (cy (st_E s)) (cx (st_E s))) c in
  gap_inv (st_g s') /\ 2 <= cap (st_g s') /\
  undoStack (history (st_E s')) = e :: undoStack (history (st_E s)) /\
  redoStack (history (st_E s')) = [] /\
  replays (gap_content (st_g s)) [e] (gap_content (st_g s')).
Proof.
  intros I R s' e. subst s' e. unfold editorInsertChar.
  cbn [st_g st_E history history_push undoStack redoStack].
  set (p := rowcol_to_pos (st_g s) (cy (st_E s)) (cx (st_E s))).
  pose proof (zlen_gap_content _ I) as Hz.
  pose proof (gap_length_nonneg _ I) as HL.
  pose proof (rowcol_to_pos_bounds (st_g s) (cy (st_E s)) (cx (st_E s)) HL)
    as Hp. fold p in Hp.
  pose proof (gap_move_insert_content (st_g s) p c I R) as (Ii & Ri & Hc).
  cbv zeta in Ii, Ri, Hc.
  rewrite clamp_id in Hc by lia.
  split; [exact Ii|]. split; [exact Ri|].
  split; [reflexivity|]. split; [reflexivity|].
  eapply replays_cons; [apply replays_nil| |].
  - unfold redo_content. cbn [e_type e_pos e_ch].
    rewrite clamp_id by lia. symmetry. exact Hc.
  - unfold undo_content. cbn [e_type e_pos e_ch]. rewrite Hc.
    rewrite zlen_list_insert by lia. rewrite clamp_id by lia.
    apply list_delete_insert. lia.
Qed.

(** A run of [editorInsertChar]: its records sit on top of the undo stack
    and replay the whole change. *)
Lemma insert_chars_spec (cs : list ascii) :
  forall s : state,
  gap_inv (st_g s) -> 2 <= cap (st_g s) ->
  exists es,
    List.length es = List.length cs /\
    undoStack (history (st_E (insert_chars cs s))) =
      es ++ undoStack (history (st_E s)) /\
    (cs <> [] -> redoStack (history (st_E (insert_chars cs s))) = []) /\
    replays (gap_content (st_g s)) es (gap_content (st_g (insert_chars cs s)))
    /\ gap_inv (st_g (insert_chars cs s)) /\
    2 <= cap (st_g (insert_chars cs s)).
Proof.
  induction cs as [|c cs IH]; intros s I R.
  - exists []. unfold insert_chars. cbn [fold_left List.length app].
    split; [reflexivity|]. split; [reflexivity|].
    split; [intros H; congruence|].
    split; [apply replays_nil|]. split; assumption.
  - pose proof (editorInsertChar_spec c s I R) as (I1 & R1 & Hu & Hr & Hrep).
    cbv zeta in I1, R1, Hu, Hr, Hrep.
    destruct (IH (editorInsertChar c s) I1 R1)
      as (es & Hlen & Hus & Hrs & Hreps & I2 & R2).
    unfold insert_chars in *. cbn [fold_left].
    eexists (es ++ [_]). split; [|split; [|split; [|split; [|split]]]].
    + rewrite length_app. cbn [List.length]. lia.
    + rewrite Hus, Hu, <- app_assoc. reflexivity.
    + intros _. destruct cs as [|c' cs'].
      * cbn [fold_left]. exact Hr.
      * apply Hrs. discriminate.
    + eapply replays_app; eassumption.
    + exact I2.
    + exact R2.
Qed.

(** ** Pasting *)

(** The loop of [clipboard_paste], entered with the gap at [pos + i]. *)
Lemma clipboard_paste_loop_spec (d : list ascii) (len pos : Z) (fuel : nat) :
  forall (i : Z) (h : editHistory) (g : gapbuf),
  Z.of_nat fuel = len - i -> 0 <= i -> 0 <= pos ->
  gap_inv g -> 2 <= cap g -> gap_start g = pos + i ->
  let r := clipboard_paste_loop fuel d len pos i h g in
  gap_inv (snd r) /\ 2 <= cap (snd r) /\
  gap_start (snd r) = pos + len /\
  gap_length (snd r) = gap_length g + (len - i) /\
  (forall j, 0 <= j < gap_length g + (len - i) ->
     gap_char_at (snd r) j =
     if j <? pos + i then gap_char_at g j
     else if j <? pos + len then load d (j - pos)
     else gap_char_at g (j - (len - i))) /\
  undoStack (fst r) = rev (paste_records d pos i fuel) ++ undoStack h /\
  (fuel <> O -> redoStack (fst r) = []).
Proof.
  induction fuel as [|f IH]; intros i h g Hf Hi Hpos I R Hgs r; subst r;
    cbn [clipboard_paste_loop paste_records rev app fst snd].
  - split; [exact I|]. split; [exact R|]. split; [lia|]. split; [lia|].
    split; [|split; [reflexivity|congruence]].
    intros j Hj. zcases; try lia; try reflexivity. f_equal. lia.
  - destruct (Z.ltb_spec i len); [|lia].
    pose proof (gap_insert_spec g (load d i) I (or_intror R))
      as (I1 & Hc1 & Hs1 & HL1 & Hch1).
    set (g1 := gap_insert g (load d i)) in *.
    set (h1 := history_push h EDIT_INSERT (pos + i) (load d i)).
    assert (Hh1 : undoStack h1 =
                  mkEdit EDIT_INSERT (pos + i) (load d i) :: undoStack h)
      by reflexivity.
    assert (Hr1 : redoStack h1 = []) by reflexivity.
    destruct (IH (i + 1) h1 g1 ltac:(lia) ltac:(lia) Hpos I1 ltac:(lia)
                ltac:(lia)) as (I2 & R2 & Hs2 & HL2 & Hch2 & Hu2 & Hr2).
    clearbody g1 h1.
    assert (Hgl : gap_start g <= gap_length g)
      by (destruct I as (_ & ? & ? & ?); unfold gap_length; lia).
    split; [exact I2|]. split; [exact R2|]. split; [exact Hs2|].
    split; [lia|]. split; [|split].
    + intros j Hj. rewrite Hch2 by lia.
      zcases; try lia; try reflexivity.
      all: rewrite Hch1 by lia; zcases; try lia; try reflexivity.
      all: f_equal; lia.
    + rewrite Hu2, Hh1, <- app_assoc. reflexivity.
    + intros _. destruct f as [|f'].
      * cbn [clipboard_paste_loop fst]. exact Hr1.
      * apply Hr2. discriminate.
Qed.

(** An empty clipboard: [clipboard_paste] changes nothing. *)
Lemma clipboard_paste_empty (s : state) :
  data (clip (st_E s)) = None \/ clip_len (clip (st_E s)) = 0 ->
  clipboard_paste s = s.
Proof.
  intros [H|H]; unfold clipboard_paste; rewrite H; [reflexivity|].
  destruct (data (clip (st_E s))); reflexivity.
Qed.

(** A clipboard of [n > 0] bytes: they are inserted in order at the cursor
    position, one insert record each at consecutive positions, and [E.cx]
    and [E.cy] stay as they were. *)
Lemma clipboard_paste_spec (s : state) (d : list ascii) :
  gap_inv (st_g s) -> 2 <= cap (st_g s) ->
  data (clip (st_E s)) = Some d ->
  0 < clip_len (clip (st_E s)) <= zlen d ->
  let n := clip_len (clip (st_E s)) in
  let pos := rowcol_to_pos (st_g s) (cy (st_E s)) (cx (st_E s)) in
  let s' := clipboard_paste s in
  gap_content (st_g s') =
    ztake pos (gap_content (st_g s)) ++ ztake n d
      ++ zdrop pos (gap_content (st_g s)) /\
  undoStack (history (st_E s')) =
    rev (paste_records d pos 0 (Z.to_nat n)) ++ undoStack (history (st_E s)) /\
  redoStack (history (st_E s')) = [] /\
  cx (st_E s') = cx (st_E s) /\ cy (st_E s') = cy (st_E s).
Proof.
  intros I R Hd Hn n pos s'. subst s'. unfold clipboard_paste.
  rewrite Hd. fold n. destruct (Z.eqb_spec n 0); [lia|]. fold pos.
  pose proof (gap_length_nonneg _ I) as HL.
  pose proof (rowcol_to_pos_bounds (st_g s) (cy (st_E s)) (cx (st_E s)) HL)
    as Hp. fold pos in Hp.
  pose proof (gap_move_inv _ pos I) as Im.
  pose proof (gap_move_fields _ pos I) as (Hcm & Hsm & _).
  pose proof (gap_move_length _ pos I) as HLm.
  pose proof (clipboard_paste_loop_spec d n pos (Z.to_nat n) 0
                (history (st_E s)) (gap_move (st_g s) pos)
                ltac:(lia) ltac:(lia) ltac:(lia) Im ltac:(lia) ltac:(lia))
    as (I2 & R2 & Hs2 & HL2 & Hch2 & Hu2 & Hr2).
  destruct (clipboard_paste_loop (Z.to_nat n) d n pos 0 (history (st_E s))
              (gap_move (st_g s) pos)) as [h2 g2].
  cbn [fst snd st_g st_E history cx cy] in *.
  split; [|split; [exact Hu2|split; [apply Hr2; lia|split; reflexivity]]].
  pose proof (zlen_gap_content _ I) as Hz.
  apply load_ext.
  - rewrite zlen_gap_content by exact I2.
    rewrite !zlen_app, !zlen_ztake, zlen_zdrop by lia. lia.
  - intros j Hj. rewrite zlen_gap_content in Hj by exact I2.
    rewrite load_gap_content by (assumption || lia).
    rewrite Hch2 by lia.
    rewrite load_app by lia. rewrite zlen_ztake by lia.
    rewrite Z.add_0_r.
    destruct (Z.ltb_spec j pos).
    + rewrite load_ztake by lia. rewrite gap_move_char_at by exact I.
      symmetry. apply load_gap_content; [exact I|lia].
    + rewrite load_app by lia. rewrite zlen_ztake by lia.
      zcases; try lia.
      * rewrite load_ztake by lia. reflexivity.
      * rewrite load_zdrop by lia. rewrite gap_move_char_at by exact I.
        rewrite <- load_gap_content by (assumption || lia). f_equal. lia.
Qed.

(** ** The undo and redo keys *)

(** Ctrl-Z and Ctrl-Y do to the history and to the buffer what
    [history_undo] and [history_redo] do. *)
Lemma editorUndo_history_undo (s : state) :
  (history (st_E (editorUndo s)), st_g (editorUndo s)) =
  (snd (fst (history_undo (history (st_E s)) (st_g s))),
   snd (history_undo (history (st_E s)) (st_g s))).
Proof.
  unfold editorUndo.
  destruct (history_undo (history (st_E s)) (st_g s)) as [[r h] g].
  destruct (r =? 0); [reflexivity|].
  destruct (pos_to_rowcol g (gap_start g)). reflexivity.
Qed.

Lemma editorRedo_history_redo (s : state) :
  (history (st_E (editorRedo s)), st_g (editorRedo s)) =
  (snd (fst (history_redo (history (st_E s)) (st_g s))),
   snd (history_redo (history (st_E s)) (st_g s))).
Proof.
  unfold editorRedo.
  destruct (history_redo (history (st_E s)) (st_g s)) as [[r h] g].
  destruct (r =? 0); [reflexivity|].
  destruct (pos_to_rowcol g (gap_start g)). reflexivity.
Qed.

(** * The claims *)

(** C1. After any run of single-character inserts made by
    [editorInsertChar], on a buffer of capacity at least 2 (as
    [gap_init(&g, 1024)] and every growth leave it), as many [history_undo]
    calls as there were inserts bring the logical byte sequence and the undo
    stack back to what they were before the run, and as many [history_redo]
    calls after them bring back exactly what the run had produced. *)
Theorem undo_redo_inserts (s : state) (cs : list ascii) :
  gap_inv (st_g s) -> 2 <= cap (st_g s) ->
  let s1 := insert_chars cs s in
  let n := List.length cs in
  let u := undo_n n (history (st_E s1)) (st_g s1) in
  let r := redo_n n (fst u) (snd u) in
  gap_content (snd u) = gap_content (st_g s) /\
  undoStack (fst u) = undoStack (history (st_E s)) /\
  gap_content (snd r) = gap_content (st_g s1) /\
  undoStack (fst r) = undoStack (history (st_E s1)).
Proof.
  intros I R s1 n u r.
  destruct (insert_chars_spec cs s I R)
    as (es & Hlen & Hus & Hrs & Hrep & I1 & R1).
  fold s1 in Hus, Hrs, Hrep, I1, R1.
  destruct (undo_n_spec es (history (st_E s1)) (st_g s1) _ Hus I1 R1)
    as (g2 & Hu & I2 & R2 & Hc2).
  rewrite Hlen in Hu. fold n in Hu. fold u in Hu.
  rewrite (replays_undo _ _ _ Hrep) in Hc2.
  destruct (redo_n_spec (rev es) (fst u) (snd u)
              (redoStack (history (st_E s1))))
    as (g3 & Hr & I3 & R3 & Hc3).
  { rewrite Hu. reflexivity. }
  { rewrite Hu. exact I2. }
  { rewrite Hu. exact R2. }
  rewrite length_rev, Hlen in Hr. fold n in Hr. fold r in Hr.
  rewrite Hu in Hc3. cbn [snd] in Hc3.
  rewrite Hc2, (replays_redo _ _ _ Hrep) in Hc3.
  rewrite Hr, Hu. cbn [fst snd undoStack].
  rewrite rev_involutive.
  split; [exact Hc2|]. split; [reflexivity|]. split; [exact Hc3|].
  symmetry. exact Hus.
Qed.

(** C2. For every position [p] between 0 and the length, [rowcol_to_pos]
    applied to the row and column [pos_to_rowcol] gives for [p] is [p]; so
    for a row and column that are those of an existing position, going to a
    position and back gives the same row and column. *)
Theorem rowcol_roundtrip (g : gapbuf) (p row col : Z) :
  gap_inv g ->
  0 <= p <= gap_length g ->
  pos_to_rowcol g p = (row, col) ->
  rowcol_to_pos g row col = p /\
  pos_to_rowcol g (rowcol_to_pos g row col) = (row, col).
Proof.
  intros _ Hp Hrc.
  pose proof (rowcol_to_pos_of_pos g p Hp) as H.
  rewrite Hrc in H. cbn [fst snd] in H.
  split; [exact H|]. rewrite H. exact Hrc.
Qed.

(** C3. [gap_get] into a destination of capacity below the logical length
    returns -1 and leaves the destination as it was; with capacity at least
    the length it writes the prefix and then the suffix, that is the whole
    logical sequence, over the first bytes of the destination and returns
    the length. *)
Theorem gap_get_contract (g : gapbuf) (out : list ascii) (outcap : Z) :
  gap_inv g -> outcap <= zlen out ->
  (outcap < gap_length g -> gap_get g out outcap = (-1, out)) /\
  (gap_length g <= outcap ->
   gap_get g out outcap =
   (gap_length g,
    (ztake (gap_start g) (buf g) ++ zdrop (gap_end g) (buf g))
      ++ zdrop (gap_length g) out)).
Proof.
  intros I Hout. split.
  - intros Hsmall. unfold gap_get.
    destruct (Z.ltb_spec outcap (gap_length g)); [reflexivity|lia].
  - intros Hbig. apply gap_get_ok; assumption.
Qed.

(** C4. [history_push] leaves the redo stack empty; so [history_redo] after
    an undo followed by the push of a new record, or by an
    [editorInsertChar], returns 0 and changes neither the history nor the
    buffer. *)
Theorem push_clears_redo :
  (forall h type pos ch, redoStack (history_push h type pos ch) = []) /\
  (forall h g pos ch g',
     let h1 := snd (fst (history_undo h g)) in
     let h2 := history_push h1 EDIT_INSERT pos ch in
     history_redo h2 g' = (0, h2, g')) /\
  (forall s c,
     let s2 := editorInsertChar c (editorUndo s) in
     history_redo (history (st_E s2)) (st_g s2) =
     (0, history (st_E s2), st_g s2)).
Proof.
  split; [|split]; reflexivity.
Qed.

(** C6. [gap_move] puts the gap start at the requested position clamped
    between 0 and the length, and changes nothing else one can read: the
    length, the logical sequence, every [gap_char_at] and every [gap_get]
    are as before. *)
Theorem gap_move_frame (g : gapbuf) (pos : Z) :
  gap_inv g ->
  gap_start (gap_move g pos) = clamp pos (gap_length g) /\
  0 <= clamp pos (gap_length g) <= gap_length g /\
  gap_length (gap_move g pos) = gap_length g /\
  gap_content (gap_move g pos) = gap_content g /\
  (forall i, gap_char_at (gap_move g pos) i = gap_char_at g i) /\
  (forall out outcap, outcap <= zlen out ->
     gap_get (gap_move g pos) out outcap = gap_get g out outcap).
Proof.
  intros I.
  pose proof (gap_move_fields g pos I) as (_ & Hs & _).
  pose proof (gap_move_length g pos I) as HL.
  pose proof (gap_move_content g pos I) as Hc.
  pose proof (gap_move_inv g pos I) as Im.
  split; [exact Hs|].
  split; [apply clamp_range, gap_length_nonneg, I|].
  split; [exact HL|]. split; [exact Hc|].
  split; [intros i; apply gap_move_char_at, I|].
  intros out outcap Hout.
  destruct (Z.lt_ge_cases outcap (gap_length g)) as [Hsmall|Hbig].
  - unfold gap_get. rewrite HL.
    destruct (Z.ltb_spec outcap (gap_length g)); [reflexivity|lia].
  - rewrite !gap_get_ok by (assumption || lia). rewrite HL, Hc. reflexivity.
Qed.

(** C7. On a buffer that satisfies the structural invariant and has
    capacity at least 2, as the buffer of [gap_init(&g, 1024)] has, the
    logical sequence has [cap - (gap_end - gap_start)] bytes, and
    [gap_move], [gap_insert] (through its reallocation too),
    [gap_backspace] and [gap_delete] each give a buffer that satisfies the
    invariant and has capacity at least 2 again; the length is unchanged by
    [gap_move], one more after [gap_insert], one less after a backspace or
    delete that returns 1, and the buffer is unchanged after one that
    returns 0. *)
Theorem gap_operations_keep_invariant (g : gapbuf) :
  gap_inv g -> 2 <= cap g ->
  zlen (gap_content g) = cap g - (gap_end g - gap_start g) /\
  (forall pos,
     gap_inv (gap_move g pos) /\ 2 <= cap (gap_move g pos) /\
     gap_length (gap_move g pos) = gap_length g) /\
  (forall c,
     gap_inv (gap_insert g c) /\ 2 <= cap (gap_insert g c) /\
     gap_length (gap_insert g c) = gap_length g + 1) /\
  (gap_inv (snd (gap_backspace g)) /\ 2 <= cap (snd (gap_backspace g)) /\
   (fst (gap_backspace g) = 0 /\ snd (gap_backspace g) = g \/
    fst (gap_backspace g) = 1 /\
    gap_length (snd (gap_backspace g)) = gap_length g - 1)) /\
  (gap_inv (snd (gap_delete g)) /\ 2 <= cap (snd (gap_delete g)) /\
   (fst (gap_delete g) = 0 /\ snd (gap_delete g) = g \/
    fst (gap_delete g) = 1 /\
    gap_length (snd (gap_delete g)) = gap_length g - 1)).
Proof.
  intros I R. split; [|split; [|split; [|split]]].
  - rewrite (zlen_gap_content g I). reflexivity.
  - intros pos. pose proof (gap_move_fields g pos I) as (Hc & _).
    split; [apply gap_move_inv, I|]. split; [lia|apply gap_move_length, I].
  - intros c.
    pose proof (gap_insert_spec g c I (or_intror R)) as (H1 & Hc & _ & H2 & _).
    split; [exact H1|]. split; [lia|exact H2].
  - pose proof (gap_backspace_spec g I) as (H1 & Hc & H2).
    split; [exact H1|]. split; [lia|].
    destruct H2 as [(? & ? & _)|(? & _ & _ & ? & _)]; [left|right]; split;
      assumption.
  - pose proof (gap_delete_spec g I) as (H1 & Hc & _ & H2).
    split; [exact H1|]. split; [lia|].
    destruct H2 as [(? & ? & _)|(? & _ & ? & _)]; [left|right]; split;
      assumption.
Qed.

(** The capacity cannot be dropped from the hypotheses: with capacity 1,
    which [main] never asks for, the reallocation of [gap_insert] adds
    [1 / 2 = 0] bytes.  After [gap_init(&g, 1)], an insert,
    [gap_move(&g, 0)] and a second insert, the gap start is past the gap
    end, and the buffer reads "bb" where "ba" was typed. *)
Lemma gap_insert_capacity_one :
  let g1 := gap_insert (gap_init 1) "a" in
  let g2 := gap_move g1 0 in
  let g3 := gap_insert g2 "b" in
  gap_inv (gap_init 1) /\ gap_inv g1 /\ gap_inv g2 /\
  gap_content g2 = ["a"%char] /\
  cap g3 = 1 /\ gap_start g3 = 1 /\ gap_end g3 = 0 /\
  ~ gap_inv g3 /\
  gap_length g3 = 2 /\
  gap_char_at g3 0 = "b"%char /\ gap_char_at g3 1 = "b"%char.
Proof.
  cbv zeta. unfold gap_inv.
  repeat split; try reflexivity; try (cbv; congruence).
  cbv. intros (_ & _ & H & _). apply H. reflexivity.
Qed.

(** C8. A selection begun at A and extended to B contains exactly the
    coordinates that a selection begun at B and extended to A contains. *)
Theorem selection_contains_order_independent
  (s1 s2 : selection) (ar ac br bc row col : Z) :
  selection_contains (selection_update (selection_start s1 ar ac) br bc)
    row col =
  selection_contains (selection_update (selection_start s2 br bc) ar ac)
    row col.
Proof.
  unfold selection_contains, selection_update, selection_start.
  cbn [active start_row start_col end_row end_col].
  change (1 =? 0) with false. cbv iota.
  assert (Hnorm :
    (if (ar >? br) || ((ar =? br) && (ac >? bc))
     then (br, bc, ar, ac) else (ar, ac, br, bc)) =
    (if (br >? ar) || ((br =? ar) && (bc >? ac))
     then (ar, ac, br, bc) else (br, bc, ar, ac))).
  { zcases; try lia; try reflexivity.
    assert (ar = br) by lia. assert (ac = bc) by lia. subst. reflexivity. }
  rewrite Hnorm. reflexivity.
Qed.

(** C5. [clipboard_paste] writes neither [E.cx] nor [E.cy]: after pasting
    "ab" into the empty buffer with the cursor at (0, 0), the buffer holds
    "ab", one insert record per byte is on the undo stack at consecutive
    positions, and the cursor is still at (0, 0), not at (0, 2). *)
Theorem clipboard_paste_keeps_cursor :
  (forall s, cx (st_E (clipboard_paste s)) = cx (st_E s) /\
             cy (st_E (clipboard_paste s)) = cy (st_E s)) /\
  let s := empty_state (mkClip (Some ["a"; "b"; NUL]%char) 2) in
  let s' := clipboard_paste s in
  gap_content (st_g s') = ["a"; "b"]%char /\
  undoStack (history (st_E s')) =
    [mkEdit EDIT_INSERT 1 "b"; mkEdit EDIT_INSERT 0 "a"] /\
  (cy (st_E s'), cx (st_E s')) = (0, 0) /\
  pos_to_rowcol (st_g s') (gap_start (st_g s')) = (0, 2).
Proof.
  split.
  - intros s. unfold clipboard_paste.
    destruct (data (clip (st_E s))); [|split; reflexivity].
    destruct (clip_len (clip (st_E s)) =? 0); [split; reflexivity|].
    destruct (clipboard_paste_loop _ _ _ _ _ _ _). split; reflexivity.
  - cbv zeta. repeat split; vm_compute; reflexivity.
Qed.

(** C9, as the code has it. In a C-family file [get_highlight] flips
    [in_string] at every double quote it is asked to classify, whatever
    precedes the quote, a backslash included, and leaves it as it was at
    every other byte; outside C-family files and past the end it never
    changes it. *)
Theorem get_highlight_in_string (content : list ascii) (len pos : Z)
  (filename : option string) (in_string : Z) :
  0 <= pos -> len <= zlen content ->
  snd (get_highlight content len pos filename in_string) =
  if (pos <? len) && is_c_file filename
     && Ascii.eqb (load content pos) DQUOTE
  then lnot in_string else in_string.
Proof.
  intros Hpos _. unfold get_highlight.
  rewrite Z.geb_leb.
  destruct (Z.leb_spec len pos), (Z.ltb_spec pos len); try lia;
    cbn [andb]; [reflexivity|].
  destruct (is_c_file filename); cbn [negb andb]; [|reflexivity].
  destruct (Ascii.eqb_spec (load content pos) DQUOTE) as [Hq|Hq].
  - rewrite Hq.
    change (Ascii.eqb DQUOTE "/") with false.
    change (isdigit DQUOTE) with false.
    rewrite andb_false_r. cbn [andb].
    destruct (negb (lnot in_string =? 0)); [reflexivity|].
    destruct (existsb _ _); reflexivity.
  - destruct (_ && _); [reflexivity|].
    destruct (_ && _); [reflexivity|].
    destruct (negb (in_string =? 0)); [reflexivity|].
    destruct (existsb _ _); reflexivity.
Qed.

(** C9, as stated, fails: in the two-byte snapshot of a backslash and a
    double quote of a file "a.c", the pass is outside a string before the
    quote and inside one after it. *)
Lemma escaped_quote_flips_in_string :
  let content := [BACKSLASH; DQUOTE] in
  let f := Some "a.c"%string in
  load content 0 = BACKSLASH /\ load content 1 = DQUOTE /\
  snd (highlight_pass 1 content 2 0 f 0) = 0 /\
  snd (get_highlight content 2 1 f 0) = 1 /\
  snd (highlight_pass 2 content 2 0 f 0) = 1.
Proof. cbv zeta. repeat split; vm_compute; reflexivity. Qed.

(** C10, as the code has it. [rowcol_to_pos] returns a position between 0
    and the length for every row and column, negative ones included, and
    the length itself for every row from [count_rows] on, that is past the
    last row. *)
Theorem rowcol_to_pos_in_range (g : gapbuf) (row col : Z) :
  gap_inv g ->
  0 <= rowcol_to_pos g row col <= gap_length g /\
  (count_rows g <= row -> rowcol_to_pos g row col = gap_length g).
Proof.
  intros I. pose proof (gap_length_nonneg g I) as HL. split.
  - apply rowcol_to_pos_bounds, HL.
  - intros Hrow. apply rowcol_to_pos_past; assumption.
Qed.

(** C10, as stated, fails at the last row itself: in "ab\ncd", of two rows
    and five bytes, row 1 is the last row and [rowcol_to_pos(1, 0)] is 3. *)
Lemma rowcol_to_pos_at_last_row :
  gap_inv buf_ab_cd /\
  gap_length buf_ab_cd = 5 /\
  count_rows buf_ab_cd - 1 = 1 /\
  rowcol_to_pos buf_ab_cd 1 0 = 3 /\
  rowcol_to_pos buf_ab_cd 1 0 <> gap_length buf_ab_cd.
Proof.
  unfold gap_inv. repeat split; try (vm_compute; congruence).
Qed.


(** * Further properties of the code *)

(** ** Gap buffer *)

(** X1. [gap_init] leaves a well-formed, empty buffer whatever capacity it
    is asked for: the capacity itself when positive, 1024 otherwise. *)
Theorem gap_init_empty (initial_cap : Z) :
  gap_inv (gap_init initial_cap) /\
  gap_length (gap_init initial_cap) = 0 /\
  gap_content (gap_init initial_cap) = [] /\
  cap (gap_init initial_cap) = (if initial_cap >? 0 then initial_cap else 1024).
Proof.
  unfold gap_init.
  set (c := if initial_cap >? 0 then initial_cap else 1024).
  assert (Hc : 0 < c) by (subst c; zcases; lia).
  assert (Hz : zlen (malloc c) = c) by (apply zlen_malloc; lia).
  split; [|split; [|split]].
  - unfold gap_inv. gsimp. lia.
  - unfold gap_length. gsimp. lia.
  - unfold gap_content, ztake, zdrop, zlen in *. gsimp.
    rewrite skipn_all2 by lia. reflexivity.
  - reflexivity.
Qed.

(** X2. [gap_insert], with room in the gap or capacity at least 2 to grow,
    puts the byte at the gap start of the logical sequence, keeps every
    other byte in place, through the reallocation too, and moves the gap
    start one past it. *)
Theorem gap_insert_at_gap_start (g : gapbuf) (c : ascii) :
  gap_inv g -> gap_room g ->
  gap_inv (gap_insert g c) /\
  gap_start (gap_insert g c) = gap_start g + 1 /\
  gap_content (gap_insert g c) =
    ztake (gap_start g) (gap_content g) ++ c :: zdrop (gap_start g) (gap_content g).
Proof.
  intros I R. pose proof (gap_insert_spec g c I R) as (I' & _ & Hs & _).
  split; [exact I'|]. split; [exact Hs|].
  apply (gap_insert_content g c I R).
Qed.

(** X3. [gap_backspace] with the gap at the start of the buffer returns 0
    and changes nothing; otherwise it returns 1 and removes exactly the
    byte before the gap. *)
Theorem gap_backspace_removes_before (g : gapbuf) :
  gap_inv g ->
  (gap_start g = 0 -> gap_backspace g = (0, g)) /\
  (0 < gap_start g ->
   fst (gap_backspace g) = 1 /\
   gap_inv (snd (gap_backspace g)) /\
   gap_start (snd (gap_backspace g)) = gap_start g - 1 /\
   gap_content (snd (gap_backspace g)) =
     ztake (gap_start g - 1) (gap_content g)
       ++ zdrop (gap_start g) (gap_content g)).
Proof.
  intros I. pose proof (gap_backspace_spec g I) as (I' & _ & Hcase).
  pose proof (zlen_gap_content g I) as Hz.
  pose proof I as (_ & H0 & H1 & H2).
  split.
  - intros Hs. unfold gap_backspace. rewrite Hs. reflexivity.
  - intros Hs.
    destruct Hcase as [(_ & _ & Hz0)|(Hr & _ & Hgs & HL & Hch)]; [lia|].
    split; [exact Hr|]. split; [exact I'|]. split; [exact Hgs|].
    assert (HLg : gap_start g <= gap_length g) by (unfold gap_length; lia).
    apply load_ext.
    + rewrite zlen_gap_content, zlen_app, zlen_ztake, zlen_zdrop
        by (assumption || lia). lia.
    + intros i Hi. rewrite zlen_gap_content in Hi by assumption.
      rewrite load_gap_content by (assumption || lia).
      rewrite Hch by lia.
      rewrite load_app by lia. rewrite zlen_ztake by lia.
      destruct (Z.ltb_spec i (gap_start g - 1)).
      * rewrite load_ztake by lia. symmetry.
        apply load_gap_content; [exact I|lia].
      * rewrite load_zdrop by lia.
        rewrite <- load_gap_content by (assumption || lia). f_equal. lia.
Qed.

(** X4. [gap_delete] with nothing after the gap returns 0 and changes
    nothing; otherwise it returns 1 and removes exactly the byte after the
    gap, the gap start staying where it is. *)
Theorem gap_delete_removes_after (g : gapbuf) :
  gap_inv g ->
  (gap_start g = gap_length g -> gap_delete g = (0, g)) /\
  (gap_start g < gap_length g ->
   fst (gap_delete g) = 1 /\
   gap_inv (snd (gap_delete g)) /\
   gap_start (snd (gap_delete g)) = gap_start g /\
   gap_content (snd (gap_delete g)) =
     ztake (gap_start g) (gap_content g)
       ++ zdrop (gap_start g + 1) (gap_content g)).
Proof.
  intros I. pose proof (gap_delete_spec g I) as (I' & _ & Hgs & Hcase).
  pose proof I as (_ & H0 & H1 & H2).
  split.
  - intros Hs. unfold gap_delete, gap_length in *.
    destruct (Z.eqb_spec (gap_end g) (cap g)); [reflexivity|lia].
  - intros Hs.
    destruct Hcase as [(_ & _ & Hfull)|(Hr & _ & _)]; [lia|].
    split; [exact Hr|]. split; [exact I'|]. split; [exact Hgs|].
    apply (gap_delete_content g I).
Qed.

(** X5. [gap_char_at] reads the logical sequence wherever the gap is, and
    returns NUL for a negative position and for one at or past the
    length. *)
Theorem gap_char_at_reads_content (g : gapbuf) (i : Z) :
  gap_inv g ->
  (0 <= i < gap_length g ->
   gap_char_at g i = nth (Z.to_nat i) (gap_content g) NUL) /\
  (i < 0 \/ gap_length g <= i -> gap_char_at g i = NUL).
Proof.
  intros I. split.
  - intros Hi. rewrite <- (load_gap_content g i I Hi). unfold load.
    destruct (Z.ltb_spec i 0); [lia|reflexivity].
  - apply gap_char_at_out.
Qed.

(** X6. A [gap_backspace] right after a [gap_insert] succeeds and gives
    back the logical sequence and the gap start there were before the
    insert. *)
Theorem gap_insert_backspace (g : gapbuf) (c : ascii) :
  gap_inv g -> gap_room g ->
  fst (gap_backspace (gap_insert g c)) = 1 /\
  gap_start (snd (gap_backspace (gap_insert g c))) = gap_start g /\
  gap_content (snd (gap_backspace (gap_insert g c))) = gap_content g.
Proof.
  intros I R.
  pose proof (gap_insert_spec g c I R) as (I1 & _ & Hs1 & HL1 & Hch1).
  pose proof (gap_backspace_spec _ I1) as (I2 & _ & Hcase).
  pose proof I as (_ & H0 & H1 & H2).
  destruct Hcase as [(_ & _ & Hz0)|(Hr & _ & Hgs & HL & Hch)]; [lia|].
  split; [exact Hr|]. split; [lia|].
  apply gap_content_ext; try assumption; [lia|].
  intros i Hi. rewrite HL, HL1 in Hi.
  rewrite Hch by lia. rewrite Hs1.
  replace (gap_start g + 1 - 1) with (gap_start g) by lia.
  assert (HLg : gap_start g <= gap_length g) by (unfold gap_length; lia).
  destruct (Z.ltb_spec i (gap_start g)).
  - rewrite Hch1 by lia. destruct (Z.ltb_spec i (gap_start g)); [|lia].
    reflexivity.
  - rewrite Hch1 by lia.
    destruct (Z.ltb_spec (i + 1) (gap_start g)); [lia|].
    destruct (Z.eqb_spec (i + 1) (gap_start g)); [lia|].
    f_equal. lia.
Qed.

(** ** Rows and columns *)

Lemma count_lf_app (a b : list ascii) :
  count_lf (a ++ b) = count_lf a + count_lf b.
Proof. unfold count_lf. rewrite count_occ_app. lia. Qed.

Lemma count_lf_nonneg (l : list ascii) : 0 <= count_lf l.
Proof. unfold count_lf. lia. Qed.

Lemma ztake_succ (s : list ascii) (i : Z) :
  0 <= i < zlen s -> ztake (i + 1) s = ztake i s ++ [load s i].
Proof.
  intros Hi. apply load_ext.
  - rewrite zlen_app, zlen_cons, !zlen_ztake by lia. cbn. lia.
  - intros j Hj. rewrite zlen_ztake in Hj by lia.
    rewrite load_ztake by lia. rewrite load_app by lia.
    rewrite zlen_ztake by lia.
    destruct (Z.ltb_spec j i).
    + rewrite load_ztake by lia. reflexivity.
    + rewrite load_cons by lia. replace (j - i) with 0 by lia.
      cbn. f_equal. lia.
Qed.

Lemma count_lf_ztake_succ (g : gapbuf) (i : Z) :
  gap_inv g -> 0 <= i < gap_length g ->
  count_lf (ztake (i + 1) (gap_content g)) =
  count_lf (ztake i (gap_content g))
  + (if Ascii.eqb (gap_char_at g i) LF then 1 else 0).
Proof.
  intros I Hi. pose proof (zlen_gap_content g I) as Hz.
  rewrite ztake_succ by lia. rewrite count_lf_app.
  rewrite load_gap_content by assumption.
  unfold count_lf at 2. cbn [count_occ].
  destruct (Ascii.eqb_spec (gap_char_at g i) LF) as [->|Hne].
  - destruct (ascii_dec LF LF); [reflexivity|congruence].
  - destruct (ascii_dec (gap_char_at g i) LF); [congruence|reflexivity].
Qed.

Lemma ztake_all_content (g : gapbuf) :
  gap_inv g -> ztake (gap_length g) (gap_content g) = gap_content g.
Proof.
  intros I. pose proof (zlen_gap_content g I) as Hz.
  unfold ztake, zlen in *. apply firstn_all2. lia.
Qed.

Lemma count_lf_ztake_le (g : gapbuf) (p : Z) :
  count_lf (ztake p (gap_content g)) <= count_lf (gap_content g).
Proof.
  rewrite <- (firstn_skipn (Z.to_nat p) (gap_content g)) at 2.
  rewrite count_lf_app. fold (ztake p (gap_content g)).
  pose proof (count_lf_nonneg (skipn (Z.to_nat p) (gap_content g))). lia.
Qed.

Lemma count_rows_loop_count (g : gapbuf) (fuel : nat) :
  gap_inv g ->
  forall i rows, Z.of_nat fuel = gap_length g - i -> 0 <= i ->
  count_rows_loop fuel g (gap_length g) i rows =
  rows + (count_lf (gap_content g) - count_lf (ztake i (gap_content g))).
Proof.
  intros I. induction fuel as [|f IH]; intros i rows Hf Hi;
    cbn [count_rows_loop].
  - replace i with (gap_length g) by lia. rewrite ztake_all_content by exact I.
    lia.
  - destruct (Z.ltb_spec i (gap_length g)); [|lia].
    rewrite IH by lia. rewrite count_lf_ztake_succ by (assumption || lia).
    destruct (Ascii.eqb (gap_char_at g i) LF); lia.
Qed.

Lemma count_rows_count (g : gapbuf) :
  gap_inv g -> count_rows g = 1 + count_lf (gap_content g).
Proof.
  intros I. unfold count_rows.
  pose proof (gap_length_nonneg g I).
  rewrite count_rows_loop_count by (assumption || lia).
  change (ztake 0 (gap_content g)) with (@nil ascii).
  change (count_lf []) with 0. lia.
Qed.

(** The scan of [pos_to_rowcol]: the row counts the line feeds passed, the
    column the bytes since the last of them. *)
Lemma pos_to_rowcol_loop_count (g : gapbuf) (p : Z) (fuel : nat) :
  gap_inv g -> p <= gap_length g ->
  forall i row col, Z.of_nat fuel = p - i -> 0 <= i ->
  0 <= col <= i ->
  (forall j, i - col <= j < i -> Ascii.eqb (gap_char_at g j) LF = false) ->
  (col < i -> Ascii.eqb (gap_char_at g (i - col - 1)) LF = true) ->
  let rc := pos_to_rowcol_loop fuel g p i row col in
  fst rc = row + (count_lf (ztake p (gap_content g))
                  - count_lf (ztake i (gap_content g))) /\
  0 <= snd rc <= p /\
  (forall j, p - snd rc <= j < p -> Ascii.eqb (gap_char_at g j) LF = false) /\
  (snd rc < p -> Ascii.eqb (gap_char_at g (p - snd rc - 1)) LF = true).
Proof.
  intros I Hp. induction fuel as [|f IH];
    intros i row col Hf Hi Hcol Hnl Hlf; cbn [pos_to_rowcol_loop].
  - assert (i = p) by lia. subst i. cbn [fst snd].
    split; [lia|]. split; [lia|]. split; assumption.
  - destruct (Z.ltb_spec i p); [|lia].
    pose proof (count_lf_ztake_succ g i I ltac:(lia)) as Hc.
    destruct (Ascii.eqb (gap_char_at g i) LF) eqn:Hch.
    + assert (Ha : forall j, i + 1 - 0 <= j < i + 1 ->
                Ascii.eqb (gap_char_at g j) LF = false)
        by (intros j Hj; lia).
      assert (Hb : 0 < i + 1 ->
                Ascii.eqb (gap_char_at g (i + 1 - 0 - 1)) LF = true)
        by (intros _; replace (i + 1 - 0 - 1) with i by lia; exact Hch).
      destruct (IH (i + 1) (row + 1) 0 ltac:(lia) ltac:(lia) ltac:(lia)
                  Ha Hb) as (H1 & H2 & H3 & H4).
      split; [lia|]. split; [exact H2|]. split; assumption.
    + assert (Ha : forall j, i + 1 - (col + 1) <= j < i + 1 ->
                Ascii.eqb (gap_char_at g j) LF = false).
      { intros j Hj. destruct (Z.eq_dec j i) as [->|Hne]; [exact Hch|].
        apply Hnl. lia. }
      assert (Hb : col + 1 < i + 1 ->
                Ascii.eqb (gap_char_at g (i + 1 - (col + 1) - 1)) LF = true).
      { intros Hlt.
        replace (i + 1 - (col + 1) - 1) with (i - col - 1) by lia.
        apply Hlf. lia. }
      destruct (IH (i + 1) row (col + 1) ltac:(lia) ltac:(lia) ltac:(lia)
                  Ha Hb) as (H1 & H2 & H3 & H4).
      split; [lia|]. split; [exact H2|]. split; assumption.
Qed.

(** X7. [count_rows] is one more than the number of line feeds in the
    buffer. *)
Theorem count_rows_line_feeds (g : gapbuf) :
  gap_inv g -> count_rows g = 1 + count_lf (gap_content g).
Proof. apply count_rows_count. Qed.

(** X8. For a position [p] of the buffer, the row of [pos_to_rowcol] is the
    number of line feeds before [p], so it is a row [count_rows] counts;
    the column is the distance from [p] back to the start of its line: no
    line feed lies in between, and a line feed or the start of the buffer
    lies just before. *)
Theorem pos_to_rowcol_meaning (g : gapbuf) (p : Z) :
  gap_inv g -> 0 <= p <= gap_length g ->
  let row := fst (pos_to_rowcol g p) in
  let col := snd (pos_to_rowcol g p) in
  row = count_lf (ztake p (gap_content g)) /\
  0 <= row < count_rows g /\
  0 <= col <= p /\
  (forall j, p - col <= j < p -> gap_char_at g j <> LF) /\
  (col < p -> gap_char_at g (p - col - 1) = LF).
Proof.
  intros I Hp row col. subst row col. unfold pos_to_rowcol.
  assert (Ha : forall j, 0 - 0 <= j < 0 ->
            Ascii.eqb (gap_char_at g j) LF = false) by (intros j Hj; lia).
  assert (Hb : 0 < 0 -> Ascii.eqb (gap_char_at g (0 - 0 - 1)) LF = true)
    by lia.
  destruct (pos_to_rowcol_loop_count g p (Z.to_nat p) I ltac:(lia) 0 0 0
              ltac:(lia) ltac:(lia) ltac:(lia) Ha Hb) as (H1 & H2 & H3 & H4).
  change (ztake 0 (gap_content g)) with (@nil ascii) in H1.
  change (count_lf []) with 0 in H1.
  pose proof (count_lf_ztake_le g p).
  pose proof (count_lf_nonneg (ztake p (gap_content g))).
  rewrite count_rows_count by exact I.
  split; [lia|]. split; [lia|]. split; [exact H2|]. split.
  - intros j Hj. apply Ascii.eqb_neq, H3, Hj.
  - intros Hlt. apply Ascii.eqb_eq, H4, Hlt.
Qed.

(** ** Lines *)

(** The scan of [get_line_length] from [pos]: it stops at the first line
    feed or at the end of the buffer. *)
Lemma line_length_loop_spec (g : gapbuf) (len : Z) (fuel : nat) :
  forall pos acc, len - pos <= Z.of_nat fuel ->
  let n := line_length_loop fuel g len pos acc - acc in
  0 <= n /\ (pos <= len -> pos + n <= len) /\
  (forall j, pos <= j < pos + n -> Ascii.eqb (gap_char_at g j) LF = false) /\
  (pos + n < len -> Ascii.eqb (gap_char_at g (pos + n)) LF = true).
Proof.
  induction fuel as [|f IH]; intros pos acc Hf; cbn [line_length_loop].
  - cbv zeta. rewrite Z.sub_diag. repeat split; try lia.
  - destruct (Z.ltb_spec pos len).
    + destruct (Ascii.eqb (gap_char_at g pos) LF) eqn:Hch.
      * cbv zeta. rewrite Z.sub_diag. rewrite Z.add_0_r.
        split; [lia|]. split; [lia|]. split; [intros j Hj; lia|].
        intros _. exact Hch.
      * destruct (IH (pos + 1) (acc + 1) ltac:(lia)) as (H1 & H2 & H3 & H4).
        cbv zeta.
        remember (line_length_loop f g len (pos + 1) (acc + 1)) as r.
        split; [lia|]. split; [lia|]. split.
        -- intros j Hj. destruct (Z.eq_dec j pos) as [->|Hne]; [exact Hch|].
           apply H3. lia.
        -- intros Hlt.
           replace (pos + (r - acc)) with (pos + 1 + (r - (acc + 1))) by lia.
           apply H4. lia.
    + cbv zeta. rewrite Z.sub_diag. repeat split; try lia.
Qed.

Lemma get_line_length_spec (g : gapbuf) (row : Z) :
  gap_inv g ->
  let start := rowcol_to_pos g row 0 in
  let n := get_line_length g row in
  0 <= n /\ start + n <= gap_length g /\
  (forall j, start <= j < start + n ->
     Ascii.eqb (gap_char_at g j) LF = false) /\
  (start + n < gap_length g ->
     Ascii.eqb (gap_char_at g (start + n)) LF = true).
Proof.
  intros I start n. subst start n. unfold get_line_length.
  pose proof (rowcol_to_pos_bounds g row 0 (gap_length_nonneg g I)) as Hb.
  pose proof (line_length_loop_spec g (gap_length g)
                (Z.to_nat (gap_length g - rowcol_to_pos g row 0))
                (rowcol_to_pos g row 0) 0 ltac:(lia)) as H.
  cbv zeta in H. rewrite Z.sub_0_r in H.
  destruct H as (H1 & H2 & H3 & H4).
  split; [exact H1|]. split; [apply H2; lia|]. split; assumption.
Qed.

(** The second loop of [rowcol_to_pos] advances by the columns it is short
    of, up to the end of the line. *)
Lemma rowcol_cols_loop_clamp (g : gapbuf) (len col : Z) (fuel : nat) :
  forall pos cc acc, len - pos <= Z.of_nat fuel ->
  rowcol_cols_loop fuel g len col pos cc - pos =
  Z.min (Z.max 0 (col - cc)) (line_length_loop fuel g len pos acc - acc).
Proof.
  induction fuel as [|f IH]; intros pos cc acc Hf;
    cbn [rowcol_cols_loop line_length_loop].
  - lia.
  - destruct (Z.ltb_spec pos len); cbn [andb]; [|lia].
    pose proof (line_length_loop_spec g len f (pos + 1) (acc + 1) ltac:(lia))
      as (Hn & _).
    destruct (Z.ltb_spec cc col).
    + destruct (Ascii.eqb (gap_char_at g pos) LF); [lia|].
      specialize (IH (pos + 1) (cc + 1) (acc + 1) ltac:(lia)). lia.
    + destruct (Ascii.eqb (gap_char_at g pos) LF); lia.
Qed.

(** Where the first loop of [rowcol_to_pos] stops: at the end of the
    buffer, or on the requested row with the column count at 0. *)
Lemma rowcol_rows_loop_stop (g : gapbuf) (len row : Z) (fuel : nat) :
  forall pos cr cc, len - pos <= Z.of_nat fuel ->
  let r := rowcol_rows_loop fuel g len row pos cr cc in
  len <= fst (fst r) \/
  (row <= snd (fst r) /\
   (snd r = 0 \/ (fst (fst r) = pos /\ snd (fst r) = cr /\ snd r = cc))).
Proof.
  induction fuel as [|f IH]; intros pos cr cc Hf; cbn [rowcol_rows_loop].
  - cbn [fst snd]. left. lia.
  - destruct (Z.ltb_spec pos len); cbn [andb].
    + destruct (Z.ltb_spec cr row).
      * destruct (Ascii.eqb (gap_char_at g pos) LF).
        -- destruct (IH (pos + 1) (cr + 1) 0 ltac:(lia))
             as [H1|(H1 & [H2|(_ & _ & H2)])]; [left; exact H1| |];
             right; (split; [exact H1|left; exact H2]).
        -- destruct (IH (pos + 1) cr (cc + 1) ltac:(lia))
             as [H1|(H1 & [H2|(_ & H2 & _)])];
             [left; exact H1|right; split; [exact H1|left; exact H2]|lia].
      * cbn [fst snd]. right. split; [lia|]. right. repeat split.
    + cbn [fst snd]. left. lia.
Qed.

(** X9. [get_line_length] of a row is the number of bytes from the start
    of the row, as [rowcol_to_pos] finds it, to the first line feed or the
    end of the buffer: it is not negative, the line holds no line feed, and
    a line feed or the end of the buffer follows it. *)
Theorem get_line_length_line (g : gapbuf) (row : Z) :
  gap_inv g ->
  let start := rowcol_to_pos g row 0 in
  let n := get_line_length g row in
  0 <= n /\ start + n <= gap_length g /\
  (forall j, start <= j < start + n -> gap_char_at g j <> LF) /\
  (start + n < gap_length g -> gap_char_at g (start + n) = LF).
Proof.
  intros I. destruct (get_line_length_spec g row I) as (H1 & H2 & H3 & H4).
  cbv zeta. split; [exact H1|]. split; [exact H2|]. split.
  - intros j Hj. apply Ascii.eqb_neq, H3, Hj.
  - intros Hlt. apply Ascii.eqb_eq, H4, Hlt.
Qed.

Lemma rowcol_to_pos_clamp (g : gapbuf) (row col : Z) :
  gap_inv g ->
  rowcol_to_pos g row col =
  rowcol_to_pos g row 0 + Z.min (Z.max 0 col) (get_line_length g row).
Proof.
  intros I. pose proof (gap_length_nonneg g I) as HL.
  unfold get_line_length. unfold rowcol_to_pos.
  pose proof (rowcol_rows_loop_bounds g (gap_length g) row
                (Z.to_nat (gap_length g)) 0 0 0 HL) as Hb.
  pose proof (rowcol_rows_loop_stop g (gap_length g) row
                (Z.to_nat (gap_length g)) 0 0 0 ltac:(lia)) as Hs.
  cbv zeta in Hs.
  destruct (rowcol_rows_loop (Z.to_nat (gap_length g)) g (gap_length g) row
              0 0 0) as [[pos cr] cc].
  cbn [fst snd] in *.
  assert (Hstay : forall fuel c, rowcol_cols_loop fuel g (gap_length g) c
                                   (gap_length g) cc = gap_length g).
  { intros fuel c. destruct fuel; cbn [rowcol_cols_loop]; [reflexivity|].
    rewrite Z.ltb_irrefl. reflexivity. }
  destruct (Z.eq_dec pos (gap_length g)) as [->|Hne].
  - rewrite !Hstay. rewrite Z.sub_diag. cbn [Z.to_nat line_length_loop]. lia.
  - assert (cc = 0) by (destruct Hs as [?|(_ & [?|(_ & _ & ?)])]; lia).
    subst cc.
    pose proof (rowcol_cols_loop_clamp g (gap_length g) col
                  (Z.to_nat (gap_length g - pos)) pos 0 0 ltac:(lia)) as Hc.
    rewrite !(rowcol_cols_loop_stay g (gap_length g) 0 pos).
    rewrite !Z.sub_0_r in Hc. lia.
Qed.

(** X10. [rowcol_to_pos] clamps the column to the line: the result is the
    start of the row plus the column, taken as 0 when negative and as the
    length of the line when past it. *)
Theorem rowcol_to_pos_column_clamped (g : gapbuf) (row col : Z) :
  gap_inv g ->
  rowcol_to_pos g row col =
  rowcol_to_pos g row 0 + Z.min (Z.max 0 col) (get_line_length g row).
Proof. apply rowcol_to_pos_clamp. Qed.

Lemma line_length_loop_ge (g : gapbuf) (len : Z) (fuel : nat) :
  forall pos acc, acc <= line_length_loop fuel g len pos acc.
Proof.
  induction fuel as [|f IH]; intros pos acc; cbn [line_length_loop]; [lia|].
  destruct (pos <? len); [|lia].
  destruct (Ascii.eqb (gap_char_at g pos) LF); [lia|].
  specialize (IH (pos + 1) (acc + 1)). lia.
Qed.

(** The indentation scan passes only spaces and tabs, so it stays inside
    the line. *)
Lemma line_indent_loop_bound (g : gapbuf) (len : Z) (fuel : nat) :
  forall pos ind acc,
  0 <= line_indent_loop fuel g len pos ind - ind <=
  TAB_STOP * (line_length_loop fuel g len pos acc - acc).
Proof.
  induction fuel as [|f IH]; intros pos ind acc;
    cbn [line_indent_loop line_length_loop]; unfold TAB_STOP in *.
  - lia.
  - destruct (Z.ltb_spec pos len); [|lia].
    destruct (Ascii.eqb_spec (gap_char_at g pos) " ") as [Hsp|Hsp].
    + rewrite Hsp. change (Ascii.eqb " " LF) with false. cbv iota.
      specialize (IH (pos + 1) (ind + 1) (acc + 1)). lia.
    + destruct (Ascii.eqb_spec (gap_char_at g pos) "009") as [Htab|Htab].
      * rewrite Htab. change (Ascii.eqb "009" LF) with false. cbv iota.
        specialize (IH (pos + 1) (ind + 4) (acc + 1)). lia.
      * pose proof (line_length_loop_ge g len f (pos + 1) (acc + 1)).
        destruct (Ascii.eqb (gap_char_at g pos) LF); lia.
Qed.

(** X11. [get_line_indent] of a row is between 0 and [TAB_STOP] times the
    length of the row: it counts bytes of the row only, so it is 0 for an
    empty row and for a row past the end of the buffer. *)
Theorem get_line_indent_bound (g : gapbuf) (row : Z) :
  0 <= get_line_indent g row <= TAB_STOP * get_line_length g row.
Proof.
  unfold get_line_indent, get_line_length.
  pose proof (line_indent_loop_bound g (gap_length g)
                (Z.to_nat (gap_length g - rowcol_to_pos g row 0))
                (rowcol_to_pos g row 0) 0 0) as H.
  rewrite !Z.sub_0_r in H. exact H.
Qed.

(** ** Selection and clipboard *)

(** X12. An active selection contains exactly the coordinates from its
    earlier end, included, to its later end, excluded, in the
    lexicographic order of (row, column); an inactive one contains
    nothing. *)
Theorem selection_contains_interval (sel : selection) (row col : Z) :
  let '(sr, sc, er, ec) := selection_normalize sel in
  lex_leb sr sc er ec = true /\
  selection_contains sel row col =
  if active sel =? 0 then 0
  else Z.b2z (lex_leb sr sc row col && lex_ltb row col er ec).
Proof.
  assert (Hn : let '(sr, sc, er, ec) := selection_normalize sel in
               lex_leb sr sc er ec = true).
  { unfold selection_normalize, lex_leb.
    destruct ((start_row sel >? end_row sel)
              || (start_row sel =? end_row sel)
                 && (start_col sel >? end_col sel)) eqn:Hsw;
      revert Hsw; zcases; intros; try lia; try reflexivity; discriminate. }
  change (selection_contains sel row col) with
    (if active sel =? 0 then 0
     else let '(sr, sc, er, ec) := selection_normalize sel in
          if (row <? sr) || (row >? er) then 0
          else if (row =? sr) && (row =? er)
               then Z.b2z ((col >=? sc) && (col <? ec))
          else if row =? sr then Z.b2z (col >=? sc)
          else if row =? er then Z.b2z (col <? ec)
          else 1).
  destruct (selection_normalize sel) as [[[sr sc] er] ec].
  split; [exact Hn|].
  destruct (active sel =? 0); [reflexivity|].
  unfold lex_leb, lex_ltb. clear Hn.
  zcases; try lia; reflexivity.
Qed.

(** The loop of [clipboard_copy] fills the first [copy_len] bytes of the
    block with the bytes of the buffer from [start_pos] on. *)
Lemma clipboard_copy_loop_spec (g : gapbuf) (start_pos copy_len : Z)
  (fuel : nat) :
  forall i d, Z.of_nat fuel = copy_len - i -> 0 <= i ->
  copy_len <= zlen d ->
  let d' := clipboard_copy_loop fuel g start_pos copy_len i d in
  zlen d' = zlen d /\
  (forall j, 0 <= j ->
     load d' j = if (i <=? j) && (j <? copy_len)
                 then gap_char_at g (start_pos + j) else load d j).
Proof.
  induction fuel as [|f IH]; intros i d Hf Hi Hd; cbn [clipboard_copy_loop].
  - cbv zeta. split; [reflexivity|]. intros j Hj. zcases; try lia; reflexivity.
  - destruct (Z.ltb_spec i copy_len); [|lia].
    destruct (IH (i + 1) (store d i (gap_char_at g (start_pos + i)))
                ltac:(lia) ltac:(lia) ltac:(rewrite zlen_store; lia))
      as (Hz & Hl).
    cbv zeta. split; [rewrite Hz; apply zlen_store|].
    intros j Hj. rewrite Hl by lia.
    rewrite load_store by lia.
    zcases; try lia; try reflexivity. subst. reflexivity.
Qed.

Lemma zlen_slice (a b : Z) (s : list ascii) :
  0 <= a -> a <= b -> b <= zlen s -> zlen (slice a b s) = b - a.
Proof.
  intros. unfold slice. rewrite zlen_ztake; [lia|].
  rewrite zlen_zdrop; lia.
Qed.

Lemma load_slice (a b : Z) (s : list ascii) (j : Z) :
  0 <= a -> 0 <= j < b - a -> load (slice a b s) j = load s (a + j).
Proof.
  intros. unfold slice. rewrite load_ztake by lia. apply load_zdrop; lia.
Qed.

Lemma clipboard_copy_spec (c : clipboard) (sel : selection) (g : gapbuf) :
  gap_inv g ->
  let '(sr, sc, er, ec) := selection_normalize sel in
  let a := rowcol_to_pos g sr sc in
  let b := rowcol_to_pos g er ec in
  (active sel = 0 \/ b <= a -> clipboard_copy c sel g = c) /\
  (active sel <> 0 -> a < b ->
   clipboard_copy c sel g =
   mkClip (Some (slice a b (gap_content g) ++ [NUL])) (b - a)).
Proof.
  intros I. unfold clipboard_copy.
  destruct (selection_normalize sel) as [[[sr sc] er] ec].
  pose proof (gap_length_nonneg g I) as HL.
  pose proof (rowcol_to_pos_bounds g sr sc HL) as Ha.
  pose proof (rowcol_to_pos_bounds g er ec HL) as Hb.
  pose proof (zlen_gap_content g I) as Hz.
  set (a := rowcol_to_pos g sr sc) in *.
  set (b := rowcol_to_pos g er ec) in *.
  clearbody a b. split.
  - intros [H|H].
    + rewrite H. reflexivity.
    + destruct (active sel =? 0); [reflexivity|].
      destruct (Z.leb_spec (b - a) 0); [reflexivity|lia].
  - intros Hact Hab.
    destruct (Z.eqb_spec (active sel) 0); [contradiction|].
    destruct (Z.leb_spec (b - a) 0); [lia|].
    assert (Hm : zlen (malloc (b - a + 1)) = b - a + 1)
      by (apply zlen_malloc; lia).
    destruct (clipboard_copy_loop_spec g a (b - a) (Z.to_nat (b - a)) 0
                (malloc (b - a + 1)) ltac:(lia) ltac:(lia) ltac:(lia))
      as (Hlen & Hload).
    f_equal. f_equal. apply load_ext.
    + rewrite zlen_store, Hlen, Hm, zlen_app, zlen_slice by lia. cbn. lia.
    + intros j Hj. rewrite zlen_store, Hlen, Hm in Hj.
      rewrite load_store by lia. rewrite load_app by lia.
      rewrite zlen_slice by lia.
      destruct (Z.eqb_spec j (b - a)) as [->|Hne].
      * destruct (Z.ltb_spec (b - a) (b - a)); [lia|].
        rewrite Z.sub_diag. reflexivity.
      * destruct (Z.ltb_spec j (b - a)); [|lia].
        rewrite Hload by lia.
        destruct (Z.leb_spec 0 j); [|lia].
        destruct (Z.ltb_spec j (b - a)); [|lia]. cbn [andb].
        rewrite load_slice by lia.
        symmetry. apply load_gap_content; [exact I|lia].
Qed.

(** X13. [clipboard_copy] leaves the clipboard as it was when the
    selection is inactive or its two ends map to an empty range of the
    buffer; otherwise the clipboard holds exactly the bytes of the buffer
    between the two ends, earlier end first, followed by a NUL, and [len]
    is their number. *)
Theorem clipboard_copy_selected_bytes (c : clipboard) (sel : selection)
  (g : gapbuf) :
  gap_inv g ->
  let '(sr, sc, er, ec) := selection_normalize sel in
  let a := rowcol_to_pos g sr sc in
  let b := rowcol_to_pos g er ec in
  (active sel = 0 \/ b <= a -> clipboard_copy c sel g = c) /\
  (active sel <> 0 -> a < b ->
   clipboard_copy c sel g =
   mkClip (Some (slice a b (gap_content g) ++ [NUL])) (b - a)).
Proof. apply clipboard_copy_spec. Qed.

(** The loop of [selection_delete], entered with the gap at [a] and at
    least [b - i] bytes after it. *)
Lemma selection_delete_loop_spec (a b : Z) (fuel : nat) :
  forall (i : Z) (h : editHistory) (g : gapbuf),
  Z.of_nat fuel = b - i -> 0 <= a ->
  gap_inv g -> gap_start g = a -> a + (b - i) <= gap_length g ->
  let r := selection_delete_loop fuel a b i h g in
  gap_inv (snd r) /\ cap (snd r) = cap g /\ gap_start (snd r) = a /\
  gap_length (snd r) = gap_length g - (b - i) /\
  (forall j, 0 <= j < gap_length g - (b - i) ->
     gap_char_at (snd r) j =
     if j <? a then gap_char_at g j else gap_char_at g (j + (b - i))) /\
  undoStack (fst r) =
    delete_records a (slice a (a + (b - i)) (gap_content g)) ++ undoStack h /\
  (fuel <> O -> redoStack (fst r) = []) /\
  replays (gap_content g)
    (delete_records a (slice a (a + (b - i)) (gap_content g)))
    (gap_content (snd r)).
Proof.
  induction fuel as [|f IH]; intros i h g Hf Ha I Hgs Hlen;
    cbn [selection_delete_loop].
  - cbv zeta. cbn [fst snd]. replace (b - i) with 0 by lia.
    rewrite Z.add_0_r. unfold slice. rewrite Z.sub_diag.
    change (ztake 0 (zdrop a (gap_content g))) with (@nil ascii).
    split; [exact I|]. split; [reflexivity|]. split; [exact Hgs|].
    split; [lia|]. split.
    { intros j Hj. rewrite Z.add_0_r. destruct (j <? a); reflexivity. }
    split; [reflexivity|]. split; [congruence|]. apply replays_nil.
  - destruct (Z.ltb_spec i b); [|lia].
    pose proof (zlen_gap_content g I) as Hz.
    pose proof (gap_delete_spec g I) as (I1 & Hc1 & Hs1 & Hcase).
    pose proof (gap_delete_content g I) as Hcont1.
    destruct Hcase as [(_ & _ & Hfull)|(_ & _ & HL1 & Hch1)]; [lia|].
    set (g1 := snd (gap_delete g)) in *.
    set (ch := gap_char_at g a).
    set (h1 := history_push h EDIT_DELETE a ch).
    assert (Hh1 : undoStack h1 = mkEdit EDIT_DELETE a ch :: undoStack h)
      by reflexivity.
    assert (Hr1 : redoStack h1 = []) by reflexivity.
    assert (Hchl : ch = load (gap_content g) a)
      by (symmetry; apply load_gap_content; [exact I|lia]).
    destruct (IH (i + 1) h1 g1 ltac:(lia) Ha I1 ltac:(lia) ltac:(lia))
      as (I2 & Hc2 & Hs2 & HL2 & Hch2 & Hu2 & Hr2 & Hrep2).
    clearbody g1 h1.
    set (r := selection_delete_loop f a b (i + 1) h1 g1) in *.
    assert (Hr0 : f = O -> redoStack (fst r) = [])
      by (intros ->; subst r; cbn [selection_delete_loop fst]; exact Hr1).
    clearbody r. cbv zeta.
    assert (Hsl : slice a (a + (b - i)) (gap_content g) =
                  ch :: slice a (a + (b - (i + 1))) (gap_content g1)).
    { apply load_ext.
      - rewrite zlen_cons, !zlen_slice; try lia.
        rewrite zlen_gap_content by exact I1. lia.
      - intros j Hj. rewrite zlen_slice in Hj by lia.
        rewrite load_slice by lia. rewrite load_cons by lia.
        destruct (Z.eqb_spec j 0) as [->|Hne].
        + rewrite Z.add_0_r. symmetry. exact Hchl.
        + rewrite load_slice by lia. rewrite Hcont1, Hgs.
          rewrite load_list_delete by lia.
          destruct (Z.ltb_spec (a + (j - 1)) a); [lia|]. f_equal. lia. }
    split; [exact I2|]. split; [lia|]. split; [exact Hs2|].
    split; [lia|]. split.
    { intros j Hj. rewrite Hch2 by lia.
      destruct (Z.ltb_spec j a).
      - rewrite Hch1 by lia.
        destruct (Z.ltb_spec j (gap_start g)); [reflexivity|lia].
      - rewrite Hch1 by lia.
        destruct (Z.ltb_spec (j + (b - (i + 1))) (gap_start g)); [lia|].
        f_equal. lia. }
    split.
    { rewrite Hu2, Hh1, Hsl. unfold delete_records. cbn [map rev].
      rewrite <- app_assoc. reflexivity. }
    split.
    { intros _. destruct f as [|f'].
      - apply Hr0. reflexivity.
      - apply Hr2. discriminate. }
    rewrite Hsl. unfold delete_records. cbn [map rev].
    eapply replays_app; [|exact Hrep2].
    eapply replays_cons; [apply replays_nil| |].
    + unfold redo_content. cbn [e_type e_pos]. rewrite clamp_id by lia.
      rewrite Hcont1, Hgs. reflexivity.
    + unfold undo_content. cbn [e_type e_pos e_ch].
      rewrite zlen_gap_content by exact I1. rewrite clamp_id by lia.
      rewrite Hcont1, Hgs, Hchl. apply list_insert_delete. lia.
Qed.

Lemma length_delete_records (pos : Z) (bs : list ascii) :
  List.length (delete_records pos bs) = List.length bs.
Proof. unfold delete_records. rewrite length_rev, length_map. reflexivity. Qed.

Lemma selection_delete_spec (s : state) :
  gap_inv (st_g s) -> active (sel (st_E s)) <> 0 ->
  let '(sr, sc, er, ec) := selection_normalize (sel (st_E s)) in
  let a := rowcol_to_pos (st_g s) sr sc in
  let b := Z.max a (rowcol_to_pos (st_g s) er ec) in
  let s' := selection_delete s in
  let recs := delete_records a (slice a b (gap_content (st_g s))) in
  gap_inv (st_g s') /\ cap (st_g s') = cap (st_g s) /\
  gap_content (st_g s') =
    ztake a (gap_content (st_g s)) ++ zdrop b (gap_content (st_g s)) /\
  undoStack (history (st_E s')) = recs ++ undoStack (history (st_E s)) /\
  List.length recs = Z.to_nat (b - a) /\
  replays (gap_content (st_g s)) recs (gap_content (st_g s')) /\
  (cy (st_E s'), cx (st_E s')) = (sr, sc) /\
  active (sel (st_E s')) = 0.
Proof.
  intros I Hact. unfold selection_delete.
  destruct (Z.eqb_spec (active (sel (st_E s))) 0); [contradiction|].
  destruct (selection_normalize (sel (st_E s))) as [[[sr sc] er] ec].
  pose proof (gap_length_nonneg _ I) as HL.
  pose proof (rowcol_to_pos_bounds (st_g s) sr sc HL) as Ha.
  pose proof (rowcol_to_pos_bounds (st_g s) er ec HL) as Hb.
  pose proof (zlen_gap_content _ I) as Hz.
  set (a := rowcol_to_pos (st_g s) sr sc) in *.
  set (e := rowcol_to_pos (st_g s) er ec) in *.
  clearbody a e.
  pose proof (gap_move_inv _ a I) as Im.
  pose proof (gap_move_fields _ a I) as (Hcm & Hsm & _).
  pose proof (gap_move_length _ a I) as HLm.
  pose proof (gap_move_content _ a I) as Hcontm.
  cbv zeta.
  destruct (Z.le_gt_cases a e) as [Hle|Hgt].
  - rewrite Z.max_r by lia.
    pose proof (selection_delete_loop_spec a e (Z.to_nat (e - a)) a
                  (history (st_E s)) (gap_move (st_g s) a)
                  ltac:(lia) ltac:(lia) Im ltac:(lia) ltac:(lia))
      as (I2 & Hc2 & Hs2 & HL2 & Hch2 & Hu2 & _ & Hrep2).
    destruct (selection_delete_loop (Z.to_nat (e - a)) a e a
                (history (st_E s)) (gap_move (st_g s) a)) as [h2 g2].
    cbn [fst snd st_g st_E history cx cy sel active selection_clear] in *.
    replace (a + (e - a)) with e in * by lia.
    rewrite Hcontm in *.
    split; [exact I2|]. split; [lia|]. split.
    { apply load_ext.
      - rewrite zlen_gap_content, zlen_app, zlen_ztake, zlen_zdrop
          by (assumption || lia). lia.
      - intros j Hj. rewrite zlen_gap_content in Hj by exact I2.
        rewrite load_gap_content by (assumption || lia).
        rewrite Hch2 by lia. rewrite !gap_move_char_at by exact I.
        rewrite load_app by lia. rewrite zlen_ztake by lia.
        destruct (Z.ltb_spec j a).
        + rewrite load_ztake by lia. symmetry.
          apply load_gap_content; [exact I|lia].
        + rewrite load_zdrop by lia.
          rewrite <- load_gap_content by (assumption || lia). f_equal. lia. }
    split; [exact Hu2|]. split.
    { rewrite length_delete_records. unfold zlen in *.
      pose proof (zlen_slice a e (gap_content (st_g s)) ltac:(lia)
                    ltac:(lia) ltac:(unfold zlen; lia)) as Hsl.
      unfold zlen in Hsl. lia. }
    split; [exact Hrep2|]. split; reflexivity.
  - rewrite Z.max_l by lia.
    replace (Z.to_nat (e - a)) with O by lia.
    cbn [selection_delete_loop st_g st_E history cx cy sel active
         selection_clear].
    unfold slice. rewrite Z.sub_diag.
    change (ztake 0 (zdrop a (gap_content (st_g s)))) with (@nil ascii).
    cbn [delete_records map rev app List.length].
    split; [exact Im|]. split; [exact Hcm|]. split.
    { rewrite Hcontm. unfold ztake, zdrop. symmetry. apply firstn_skipn. }
    split; [reflexivity|]. split; [reflexivity|].
    split; [rewrite Hcontm; apply replays_nil|]. split; reflexivity.
Qed.

(** X14. [selection_delete] does nothing when the selection is inactive;
    otherwise it removes from the buffer exactly the bytes between the
    positions of the two ends, pushes one delete record per removed byte,
    all at the start position and each with its byte, puts the cursor on
    the earlier end and clears the selection. *)
Theorem selection_delete_removes_range (s : state) :
  gap_inv (st_g s) ->
  (active (sel (st_E s)) = 0 -> selection_delete s = s) /\
  (active (sel (st_E s)) <> 0 ->
   let '(sr, sc, er, ec) := selection_normalize (sel (st_E s)) in
   let a := rowcol_to_pos (st_g s) sr sc in
   let b := Z.max a (rowcol_to_pos (st_g s) er ec) in
   let s' := selection_delete s in
   gap_content (st_g s') =
     ztake a (gap_content (st_g s)) ++ zdrop b (gap_content (st_g s)) /\
   undoStack (history (st_E s')) =
     delete_records a (slice a b (gap_content (st_g s)))
       ++ undoStack (history (st_E s)) /\
   (cy (st_E s'), cx (st_E s')) = (sr, sc) /\
   active (sel (st_E s')) = 0).
Proof.
  intros I. split.
  - intros H. unfold selection_delete. rewrite H. reflexivity.
  - intros Hact. pose proof (selection_delete_spec s I Hact) as H.
    destruct (selection_normalize (sel (st_E s))) as [[[sr sc] er] ec].
    cbv zeta in *. destruct H as (_ & _ & H1 & H2 & _ & _ & H3 & H4).
    split; [exact H1|]. split; [exact H2|]. split; assumption.
Qed.

(** X15. After [selection_delete], as many [history_undo] calls as bytes
    were removed bring the logical sequence and the undo stack back to what
    they were, and as many [history_redo] calls after them remove the bytes
    again. *)
Theorem selection_delete_undo_redo (s : state) :
  gap_inv (st_g s) -> 2 <= cap (st_g s) ->
  active (sel (st_E s)) <> 0 ->
  let s' := selection_delete s in
  let n := (List.length (gap_content (st_g s))
            - List.length (gap_content (st_g s')))%nat in
  let u := undo_n n (history (st_E s')) (st_g s') in
  let r := redo_n n (fst u) (snd u) in
  gap_content (snd u) = gap_content (st_g s) /\
  undoStack (fst u) = undoStack (history (st_E s)) /\
  gap_content (snd r) = gap_content (st_g s') /\
  undoStack (fst r) = undoStack (history (st_E s')).
Proof.
  intros I R Hact s' n u r.
  pose proof (selection_delete_spec s I Hact) as H.
  destruct (selection_normalize (sel (st_E s))) as [[[sr sc] er] ec].
  cbv zeta in H. fold s' in H.
  set (a := rowcol_to_pos (st_g s) sr sc) in *.
  set (b := Z.max a (rowcol_to_pos (st_g s) er ec)) in *.
  set (recs := delete_records a (slice a b (gap_content (st_g s)))) in *.
  destruct H as (I1 & Hc1 & Hcont & Hus & Hlen & Hrep & _ & _).
  assert (Hn : n = List.length recs).
  { subst n. rewrite Hlen.
    pose proof (gap_length_nonneg _ I) as HL.
    pose proof (rowcol_to_pos_bounds (st_g s) sr sc HL) as Ha.
    pose proof (rowcol_to_pos_bounds (st_g s) er ec HL) as Hb.
    pose proof (zlen_gap_content _ I) as Hz.
    pose proof (zlen_gap_content _ I1) as Hz1.
    assert (Hz' : zlen (gap_content (st_g s')) =
                  zlen (gap_content (st_g s)) - (b - a)).
    { rewrite Hcont, zlen_app, zlen_ztake, zlen_zdrop; fold a in Ha; lia. }
    unfold zlen in *. fold a in Ha. lia. }
  destruct (undo_n_spec recs (history (st_E s')) (st_g s') _ Hus I1
              ltac:(lia)) as (g2 & Hu & I2 & R2 & Hc2).
  rewrite <- Hn in Hu. fold u in Hu.
  rewrite (replays_undo _ _ _ Hrep) in Hc2.
  destruct (redo_n_spec (rev recs) (fst u) (snd u)
              (redoStack (history (st_E s'))))
    as (g3 & Hr & I3 & R3 & Hc3).
  { rewrite Hu. reflexivity. }
  { rewrite Hu. exact I2. }
  { rewrite Hu. exact R2. }
  rewrite length_rev, <- Hn in Hr. fold r in Hr.
  rewrite Hu in Hc3. cbn [snd] in Hc3.
  rewrite Hc2, (replays_redo _ _ _ Hrep) in Hc3.
  rewrite Hr, Hu. cbn [fst snd undoStack]. rewrite rev_involutive.
  split; [exact Hc2|]. split; [reflexivity|]. split; [exact Hc3|].
  symmetry. exact Hus.
Qed.

(** ** Copy, cut and paste *)

(** One [gap_insert] at the gap start with its record pushed. *)
Lemma gap_insert_replays (g : gapbuf) (c : ascii) (ty : editType) :
  gap_inv g -> 2 <= cap g ->
  ty = EDIT_INSERT \/ (ty = EDIT_INSERT_NEWLINE /\ c = LF) ->
  replays (gap_content g) [mkEdit ty (gap_start g) c]
    (gap_content (gap_insert g c)).
Proof.
  intros I R Hty.
  pose proof (gap_insert_content g c I (or_intror R)) as Hc.
  pose proof (zlen_gap_content g I) as Hz.
  assert (Hgs : 0 <= gap_start g <= gap_length g)
    by (destruct I as (_ & ? & ? & ?); unfold gap_length; lia).
  eapply replays_cons; [apply replays_nil| |].
  - unfold redo_content. cbn [e_type e_pos e_ch].
    rewrite clamp_id by lia. rewrite Hc.
    destruct Hty as [->|[-> ->]]; reflexivity.
  - unfold undo_content. cbn [e_type e_pos e_ch]. rewrite Hc.
    rewrite zlen_list_insert by lia. rewrite clamp_id by lia.
    destruct Hty as [->|[-> ->]]; apply list_delete_insert; lia.
Qed.

Lemma length_paste_records (d : list ascii) (pos : Z) (n : nat) :
  forall i, List.length (paste_records d pos i n) = n.
Proof.
  induction n as [|n IH]; intros i; cbn [paste_records List.length];
    [reflexivity|]. rewrite IH. reflexivity.
Qed.

(** The records of the paste loop replay what it does to the buffer. *)
Lemma clipboard_paste_loop_replays (d : list ascii) (len pos : Z)
  (fuel : nat) :
  forall (i : Z) (h : editHistory) (g : gapbuf),
  Z.of_nat fuel = len - i ->
  gap_inv g -> 2 <= cap g -> gap_start g = pos + i ->
  replays (gap_content g) (rev (paste_records d pos i fuel))
    (gap_content (snd (clipboard_paste_loop fuel d len pos i h g))).
Proof.
  induction fuel as [|f IH]; intros i h g Hf I R Hgs;
    cbn [clipboard_paste_loop paste_records rev snd].
  - apply replays_nil.
  - destruct (Z.ltb_spec i len); [|lia].
    pose proof (gap_insert_spec g (load d i) I (or_intror R))
      as (I1 & Hc1 & Hs1 & _).
    eapply replays_app.
    + rewrite <- Hgs. apply gap_insert_replays; auto.
    + apply IH; [lia|exact I1|lia|lia].
Qed.

(** X16. After a [clipboard_paste] of [n] bytes, [n] calls of
    [history_undo] bring the logical sequence and the undo stack back to
    what they were before the paste. *)
Theorem clipboard_paste_undo (s : state) (d : list ascii) :
  gap_inv (st_g s) -> 2 <= cap (st_g s) ->
  data (clip (st_E s)) = Some d ->
  0 < clip_len (clip (st_E s)) ->
  let s' := clipboard_paste s in
  let n := Z.to_nat (clip_len (clip (st_E s))) in
  let u := undo_n n (history (st_E s')) (st_g s') in
  gap_content (snd u) = gap_content (st_g s) /\
  undoStack (fst u) = undoStack (history (st_E s)).
Proof.
  intros I R Hd Hn s' n u. subst s' n u. unfold clipboard_paste.
  rewrite Hd. destruct (Z.eqb_spec (clip_len (clip (st_E s))) 0); [lia|].
  set (len := clip_len (clip (st_E s))) in *.
  set (cnt := Z.to_nat len).
  set (pos := rowcol_to_pos (st_g s) (cy (st_E s)) (cx (st_E s))).
  pose proof (gap_length_nonneg _ I) as HL.
  pose proof (rowcol_to_pos_bounds (st_g s) (cy (st_E s)) (cx (st_E s)) HL)
    as Hp. fold pos in Hp.
  pose proof (gap_move_inv _ pos I) as Im.
  pose proof (gap_move_fields _ pos I) as (Hcm & Hsm & _).
  pose proof (gap_move_content _ pos I) as Hcont.
  pose proof (clipboard_paste_loop_spec d len pos cnt 0 (history (st_E s))
                (gap_move (st_g s) pos) ltac:(lia) ltac:(lia) ltac:(lia)
                Im ltac:(lia) ltac:(lia))
    as (I2 & R2 & _ & _ & _ & Hu2 & _).
  pose proof (clipboard_paste_loop_replays d len pos cnt 0 (history (st_E s))
                (gap_move (st_g s) pos) ltac:(lia) Im ltac:(lia)
                ltac:(lia)) as Hrep.
  destruct (clipboard_paste_loop cnt d len pos 0 (history (st_E s))
              (gap_move (st_g s) pos)) as [h2 g2].
  cbn [fst snd st_g st_E history] in *.
  destruct (undo_n_spec (rev (paste_records d pos 0 cnt)) h2 g2 _ Hu2 I2 R2)
    as (g3 & Hu & _ & _ & Hc3).
  rewrite length_rev, length_paste_records in Hu.
  rewrite Hu. cbn [fst snd undoStack].
  rewrite (replays_undo _ _ _ Hrep), Hcont in Hc3.
  split; [exact Hc3|reflexivity].
Qed.

Lemma ztake_slice_nul (a b : Z) (s : list ascii) :
  0 <= a -> a <= b -> b <= zlen s ->
  ztake (b - a) (slice a b s ++ [NUL]) = slice a b s.
Proof.
  intros Ha Hab Hb. pose proof (zlen_slice a b s Ha Hab Hb) as Hz.
  unfold ztake, zlen in *. rewrite firstn_app.
  rewrite firstn_all2 by lia.
  replace (Z.to_nat (b - a) - List.length (slice a b s))%nat with O by lia.
  apply app_nil_r.
Qed.

(** X17. Ctrl-C on a selection of a non-empty range and then Ctrl-V insert
    at the cursor position a copy of exactly the selected bytes, in
    order; nothing is removed, since the copy clears the selection. *)
Theorem copy_then_paste (s : state) :
  gap_inv (st_g s) -> 2 <= cap (st_g s) ->
  active (sel (st_E s)) <> 0 ->
  let '(sr, sc, er, ec) := selection_normalize (sel (st_E s)) in
  let a := rowcol_to_pos (st_g s) sr sc in
  let b := rowcol_to_pos (st_g s) er ec in
  let pos := rowcol_to_pos (st_g s) (cy (st_E s)) (cx (st_E s)) in
  a < b ->
  gap_content (st_g (editorPaste (editorCopy s))) =
    ztake pos (gap_content (st_g s)) ++ slice a b (gap_content (st_g s))
      ++ zdrop pos (gap_content (st_g s)).
Proof.
  intros I R Hact.
  pose proof (clipboard_copy_spec (clip (st_E s)) (sel (st_E s)) (st_g s) I)
    as Hcopy.
  destruct (selection_normalize (sel (st_E s))) as [[[sr sc] er] ec].
  cbv zeta in *. intros Hab. destruct Hcopy as (_ & Hcopy).
  specialize (Hcopy Hact Hab).
  pose proof (gap_length_nonneg _ I) as HL.
  pose proof (rowcol_to_pos_bounds (st_g s) sr sc HL) as Ha.
  pose proof (rowcol_to_pos_bounds (st_g s) er ec HL) as Hb.
  pose proof (zlen_gap_content _ I) as Hz.
  unfold editorCopy, editorPaste.
  destruct (Z.eqb_spec (active (sel (st_E s))) 0); [contradiction|].
  cbn [st_E sel selection_clear active]. change (0 =? 0) with true. cbv iota.
  rewrite Hcopy.
  set (a := rowcol_to_pos (st_g s) sr sc) in *.
  set (b := rowcol_to_pos (st_g s) er ec) in *.
  set (d := slice a b (gap_content (st_g s)) ++ [NUL]).
  set (s1 := mkState _ (st_g s)).
  assert (Hzs : zlen (slice a b (gap_content (st_g s))) = b - a)
    by (apply zlen_slice; lia).
  destruct (clipboard_paste_spec s1 d I R eq_refl) as (Hc & _).
  { subst s1 d. cbn [st_E clip clip_len]. rewrite zlen_app, Hzs. cbn. lia. }
  cbv zeta in Hc. subst s1. cbn [st_g st_E clip clip_len cx cy] in Hc.
  rewrite Hc. subst d. rewrite ztake_slice_nul by lia. reflexivity.
Qed.

(** [pos_to_rowcol] looks only at the bytes before the position. *)
Lemma pos_to_rowcol_loop_prefix (g1 g2 : gapbuf) (p : Z) (fuel : nat) :
  forall i row col, 0 <= i ->
  (forall j, i <= j < p -> gap_char_at g1 j = gap_char_at g2 j) ->
  pos_to_rowcol_loop fuel g1 p i row col =
  pos_to_rowcol_loop fuel g2 p i row col.
Proof.
  induction fuel as [|f IH]; intros i row col Hi Hch;
    cbn [pos_to_rowcol_loop]; [reflexivity|].
  destruct (Z.ltb_spec i p); [|reflexivity].
  rewrite Hch by lia.
  destruct (Ascii.eqb (gap_char_at g2 i) LF); apply IH; try lia;
    intros j Hj; apply Hch; lia.
Qed.

(** X18. Ctrl-X on a selection of a non-empty range and then Ctrl-V give
    the buffer back as it was, when the earlier end of the selection is the
    row and column of the position it maps to (no column past the end of
    its line, no row past the last). *)
Theorem cut_then_paste (s : state) :
  gap_inv (st_g s) -> 2 <= cap (st_g s) ->
  active (sel (st_E s)) <> 0 ->
  let '(sr, sc, er, ec) := selection_normalize (sel (st_E s)) in
  let a := rowcol_to_pos (st_g s) sr sc in
  let b := rowcol_to_pos (st_g s) er ec in
  a < b -> pos_to_rowcol (st_g s) a = (sr, sc) ->
  gap_content (st_g (editorPaste (editorCut s))) = gap_content (st_g s).
Proof.
  intros I R Hact.
  pose proof (clipboard_copy_spec (clip (st_E s)) (sel (st_E s)) (st_g s) I)
    as Hcopy.
  unfold editorCut.
  destruct (Z.eqb_spec (active (sel (st_E s))) 0); [contradiction|].
  set (s0 := mkState _ (st_g s)).
  pose proof (selection_delete_spec s0 I Hact) as Hdel.
  change (sel (st_E s0)) with (sel (st_E s)) in Hdel.
  change (st_g s0) with (st_g s) in Hdel.
  destruct (selection_normalize (sel (st_E s))) as [[[sr sc] er] ec].
  cbv zeta in *. intros Hab Hrc. destruct Hcopy as (_ & Hcopy).
  specialize (Hcopy Hact Hab).
  pose proof (gap_length_nonneg _ I) as HL.
  pose proof (rowcol_to_pos_bounds (st_g s) sr sc HL) as Ha.
  pose proof (rowcol_to_pos_bounds (st_g s) er ec HL) as Hb.
  pose proof (zlen_gap_content _ I) as Hz.
  set (a := rowcol_to_pos (st_g s) sr sc) in *.
  set (b := rowcol_to_pos (st_g s) er ec) in *.
  rewrite Z.max_r in Hdel by lia.
  destruct Hdel as (I2 & Hcap2 & Hc2 & _ & _ & _ & Hcur & Hsel).
  assert (Hclip : clip (st_E (selection_delete s0)) =
                  mkClip (Some (slice a b (gap_content (st_g s)) ++ [NUL]))
                    (b - a)).
  { unfold selection_delete.
    destruct (active (sel (st_E s0)) =? 0); [exact Hcopy|].
    destruct (selection_normalize (sel (st_E s0))) as [[[? ?] ?] ?].
    destruct (selection_delete_loop _ _ _ _ _ _). exact Hcopy. }
  set (s2 := selection_delete s0) in *. clearbody s2. clear s0.
  unfold editorPaste. rewrite Hsel. change (0 =? 0) with true. cbv iota.
  assert (Hzs : zlen (slice a b (gap_content (st_g s))) = b - a)
    by (apply zlen_slice; lia).
  pose proof (zlen_gap_content _ I2) as Hz2.
  assert (HL2 : gap_length (st_g s2) = gap_length (st_g s) - (b - a)).
  { rewrite <- Hz2, Hc2, zlen_app, zlen_ztake, zlen_zdrop; lia. }
  assert (Hpre : forall j, 0 <= j < a ->
            gap_char_at (st_g s2) j = gap_char_at (st_g s) j).
  { intros j Hj. rewrite <- !load_gap_content by (assumption || lia).
    rewrite Hc2. rewrite load_app by lia. rewrite zlen_ztake by lia.
    destruct (Z.ltb_spec j a); [|lia]. apply load_ztake. lia. }
  assert (Hpos : rowcol_to_pos (st_g s2) (cy (st_E s2)) (cx (st_E s2)) = a).
  { inversion Hcur as [[Hy Hx]]. 
    pose proof (rowcol_to_pos_of_pos (st_g s2) a ltac:(lia)) as Hrt.
    assert (Hsame : pos_to_rowcol (st_g s2) a = (sr, sc)).
    { rewrite <- Hrc. unfold pos_to_rowcol.
      apply pos_to_rowcol_loop_prefix; [lia|].
      intros j Hj. apply Hpre. lia. }
    rewrite Hsame in Hrt. cbn [fst snd] in Hrt. rewrite Hy, Hx. exact Hrt. }
  destruct (clipboard_paste_spec s2 _ I2 ltac:(lia)
              ltac:(rewrite Hclip; reflexivity)) as (Hc & _).
  { rewrite Hclip. cbn [clip_len]. rewrite zlen_app, Hzs. cbn. lia. }
  cbv zeta in Hc. rewrite Hc, Hpos, Hclip. cbn [clip_len].
  rewrite ztake_slice_nul by lia. rewrite Hc2.
  apply load_ext.
  - rewrite !zlen_app, Hzs, zlen_ztake, zlen_zdrop;
      rewrite ?zlen_app, ?zlen_ztake, ?zlen_zdrop; lia.
  - intros j Hj.
    assert (Hj' : 0 <= j < zlen (gap_content (st_g s))).
    { revert Hj. rewrite !zlen_app, Hzs, zlen_ztake, zlen_zdrop;
        rewrite ?zlen_app, ?zlen_ztake, ?zlen_zdrop; lia. }
    clear Hj.
    assert (Hzc : zlen (ztake a (gap_content (st_g s))
                        ++ zdrop b (gap_content (st_g s))) =
                  zlen (gap_content (st_g s)) - (b - a))
      by (rewrite zlen_app, zlen_ztake, zlen_zdrop; lia).
    rewrite load_app by lia. rewrite zlen_ztake by lia.
    destruct (Z.ltb_spec j a).
    + rewrite load_ztake by lia. rewrite load_app by lia.
      rewrite zlen_ztake by lia.
      destruct (Z.ltb_spec j a); [|lia]. apply load_ztake. lia.
    + rewrite load_app by lia. rewrite Hzs.
      destruct (Z.ltb_spec (j - a) (b - a)).
      * rewrite load_slice by lia. f_equal. lia.
      * rewrite load_zdrop by lia. rewrite load_app by lia.
        rewrite zlen_ztake by lia.
        destruct (Z.ltb_spec (a + (j - a - (b - a))) a); [lia|].
        rewrite load_zdrop by lia. f_equal. lia.
Qed.

(** ** Deleting and typing a new line *)

(** The first loop of [rowcol_to_pos] counts the line feeds it passes. *)
Lemma rowcol_rows_loop_count (g : gapbuf) (row : Z) (fuel : nat) :
  gap_inv g ->
  forall pos cr cc, 0 <= pos <= gap_length g ->
  let r := rowcol_rows_loop fuel g (gap_length g) row pos cr cc in
  snd (fst r) =
    cr + (count_lf (ztake (fst (fst r)) (gap_content g))
          - count_lf (ztake pos (gap_content g))) /\
  (cr <= row -> snd (fst r) <= row) /\
  ((fst (fst r) = pos /\ snd (fst r) = cr) \/
   (row <= snd (fst r) ->
    Ascii.eqb (gap_char_at g (fst (fst r) - 1)) LF = true)).
Proof.
  intros I. induction fuel as [|f IH]; intros pos cr cc Hpos;
    cbn [rowcol_rows_loop].
  - cbn [fst snd]. split; [lia|]. split; [lia|]. left. split; reflexivity.
  - destruct (Z.ltb_spec pos (gap_length g)); cbn [andb].
    + destruct (Z.ltb_spec cr row).
      * pose proof (count_lf_ztake_succ g pos I ltac:(lia)) as Hc.
        destruct (Ascii.eqb (gap_char_at g pos) LF) eqn:Hch.
        -- destruct (IH (pos + 1) (cr + 1) 0 ltac:(lia))
             as (H1 & H2 & H3).
           cbv zeta in *. split; [lia|]. split; [intros _; apply H2; lia|].
           right. intros Hrow.
           destruct H3 as [(Hp & _)|H3]; [|exact (H3 Hrow)].
           rewrite Hp. replace (pos + 1 - 1) with pos by lia. exact Hch.
        -- destruct (IH (pos + 1) cr (cc + 1) ltac:(lia))
             as (H1 & H2 & H3).
           cbv zeta in *. split; [lia|]. split; [intros _; apply H2; lia|].
           right. intros Hrow.
           destruct H3 as [(_ & Hr)|H3]; [lia|exact (H3 Hrow)].
      * cbn [fst snd]. split; [lia|]. split; [lia|]. left.
        split; reflexivity.
    + cbn [fst snd]. split; [lia|]. split; [lia|]. left. split; reflexivity.
Qed.

(** When the first loop of [rowcol_to_pos] stops on the requested row, the
    column count is 0 unless the loop took no step. *)
Lemma rowcol_rows_loop_col (g : gapbuf) (len row : Z) (fuel : nat) :
  forall pos cr cc,
  let r := rowcol_rows_loop fuel g len row pos cr cc in
  row <= snd (fst r) ->
  snd r = 0 \/ (fst (fst r) = pos /\ snd (fst r) = cr /\ snd r = cc).
Proof.
  induction fuel as [|f IH]; intros pos cr cc; cbn [rowcol_rows_loop].
  - cbn [fst snd]. intros _. right. repeat split.
  - destruct (Z.ltb_spec pos len); cbn [andb].
    + destruct (Z.ltb_spec cr row).
      * destruct (Ascii.eqb (gap_char_at g pos) LF).
        -- intros Hr. destruct (IH (pos + 1) (cr + 1) 0 Hr)
             as [Hz|(_ & _ & Hz)]; left; exact Hz.
        -- intros Hr. destruct (IH (pos + 1) cr (cc + 1) Hr)
             as [Hz|(_ & Hz & _)]; [left; exact Hz|].
           cbv zeta in *. lia.
      * cbn [fst snd]. intros _. right. repeat split.
    + cbn [fst snd]. intros _. right. repeat split.
Qed.

(** The start of a row after the first and up to the last is just after a
    line feed. *)
Lemma rowcol_to_pos_row_start (g : gapbuf) (row : Z) :
  gap_inv g -> 0 < row < count_rows g ->
  0 < rowcol_to_pos g row 0 /\
  gap_char_at g (rowcol_to_pos g row 0 - 1) = LF.
Proof.
  intros I Hrow. pose proof (gap_length_nonneg g I) as HL.
  rewrite count_rows_count in Hrow by exact I.
  unfold rowcol_to_pos.
  pose proof (rowcol_rows_loop_count g row (Z.to_nat (gap_length g)) I
                0 0 0 ltac:(lia)) as (Hc & Hle & Hlf).
  pose proof (rowcol_rows_loop_stop g (gap_length g) row
                (Z.to_nat (gap_length g)) 0 0 0 ltac:(lia)) as Hs.
  pose proof (rowcol_rows_loop_bounds g (gap_length g) row
                (Z.to_nat (gap_length g)) 0 0 0 HL) as Hb.
  pose proof (rowcol_rows_loop_col g (gap_length g) row
                (Z.to_nat (gap_length g)) 0 0 0) as Hcol.
  cbv zeta in *.
  destruct (rowcol_rows_loop (Z.to_nat (gap_length g)) g (gap_length g) row
              0 0 0) as [[pos cr] cc].
  cbn [fst snd] in *.
  change (ztake 0 (gap_content g)) with (@nil ascii) in Hc.
  change (count_lf []) with 0 in Hc.
  assert (Hcr : row <= cr).
  { destruct Hs as [Hend|(Hr & _)]; [|exact Hr].
    assert (pos = gap_length g) by lia. subst pos.
    rewrite ztake_all_content in Hc by exact I. lia. }
  assert (Hcc : cc = 0) by (destruct (Hcol Hcr) as [?|(_ & _ & ?)]; lia).
  subst cc. rewrite rowcol_cols_loop_stay.
  destruct Hlf as [(Hp & Hr)|Hlf]; [lia|].
  specialize (Hlf Hcr).
  assert (0 < pos).
  { destruct (Z.eq_dec pos 0) as [->|]; [|lia].
    rewrite gap_char_at_out in Hlf by lia. discriminate. }
  split; [assumption|]. apply Ascii.eqb_eq. exact Hlf.
Qed.

Lemma gap_backspace_content (g : gapbuf) :
  gap_inv g -> 0 < gap_start g ->
  gap_content (snd (gap_backspace g)) =
  list_delete (gap_start g - 1) (gap_content g).
Proof.
  intros I Hs. pose proof (gap_backspace_spec g I) as (I' & _ & Hcase).
  pose proof (zlen_gap_content g I) as Hz.
  pose proof I as (_ & H0 & H1 & H2).
  assert (HLg : gap_start g <= gap_length g) by (unfold gap_length; lia).
  destruct Hcase as [(_ & _ & Hz0)|(Hr & _ & Hgs & HL & Hch)]; [lia|].
  apply load_ext.
  - rewrite zlen_gap_content, zlen_list_delete by (assumption || lia). lia.
  - intros i Hi. rewrite zlen_gap_content in Hi by assumption.
    rewrite load_gap_content by (assumption || lia).
    rewrite Hch by lia. rewrite load_list_delete by lia.
    destruct (Z.ltb_spec i (gap_start g - 1));
      symmetry; apply load_gap_content; try assumption; lia.
Qed.

(** A delete record replays the removal of the byte it names, and a
    newline-delete record the removal of a line feed. *)
Lemma delete_record_replays (s : list ascii) (p : Z) (ty : editType)
  (ch : ascii) :
  0 <= p < zlen s ->
  (ty = EDIT_DELETE /\ ch = load s p) \/
  (ty = EDIT_DELETE_NEWLINE /\ load s p = LF) ->
  replays s [mkEdit ty p ch] (list_delete p s).
Proof.
  intros Hp Hty. eapply replays_cons; [apply replays_nil| |].
  - unfold redo_content. cbn [e_type e_pos]. rewrite clamp_id by lia.
    destruct Hty as [(-> & _)|(-> & _)]; reflexivity.
  - unfold undo_content. cbn [e_type e_pos e_ch].
    rewrite zlen_list_delete by lia. rewrite clamp_id by lia.
    destruct Hty as [(-> & ->)|(-> & <-)]; apply list_insert_delete; lia.
Qed.

(** [gap_move] to a position past the start and then [gap_backspace]. *)
Lemma gap_move_backspace (g : gapbuf) (p : Z) :
  gap_inv g -> 0 < p <= gap_length g ->
  let gm := gap_move g p in
  fst (gap_backspace gm) = 1 /\
  gap_inv (snd (gap_backspace gm)) /\
  cap (snd (gap_backspace gm)) = cap g /\
  gap_char_at gm (p - 1) = load (gap_content g) (p - 1) /\
  gap_content (snd (gap_backspace gm)) = list_delete (p - 1) (gap_content g).
Proof.
  intros I Hp gm. subst gm.
  pose proof (gap_move_inv g p I) as Im.
  pose proof (gap_move_fields g p I) as (Hcm & Hsm & _).
  cbv zeta in Hsm. rewrite Z.min_l, Z.max_r in Hsm by lia.
  pose proof (gap_backspace_spec _ Im) as (Ib & Hcb & Hcase).
  destruct Hcase as [(_ & _ & Hz0)|(Hr & _)]; [lia|].
  split; [exact Hr|]. split; [exact Ib|]. split; [lia|]. split.
  - rewrite gap_move_char_at by exact I. symmetry.
    apply load_gap_content; [exact I|lia].
  - rewrite gap_backspace_content by (assumption || lia).
    rewrite Hsm, gap_move_content by exact I. reflexivity.
Qed.

(** X19. [editorDelChar] removes the byte just before the position of the
    cursor, at column 0 the one that ends the row above, and pushes one
    record; a [history_undo] then gives the buffer back, provided that at
    column 0 the cursor is on a row the buffer has.  With the cursor at
    (0, 0), or at a position that is the start of the buffer, nothing is
    removed and nothing is pushed. *)
Theorem editorDelChar_undo (s : state) :
  gap_inv (st_g s) -> 2 <= cap (st_g s) ->
  let E := st_E s in
  let c := gap_content (st_g s) in
  let pos := if cx E >? 0 then rowcol_to_pos (st_g s) (cy E) (cx E)
             else if cy E >? 0 then rowcol_to_pos (st_g s) (cy E) 0
             else 0 in
  let s' := editorDelChar s in
  (pos = 0 ->
   gap_content (st_g s') = c /\ history (st_E s') = history E) /\
  (0 < pos ->
   gap_content (st_g s') = ztake (pos - 1) c ++ zdrop pos c /\
   List.length (undoStack (history (st_E s'))) =
     S (List.length (undoStack (history E))) /\
   (0 < cx E \/ cy E < count_rows (st_g s) ->
    gap_content (snd (history_undo (history (st_E s')) (st_g s'))) = c)).
Proof.
  intros I R E c pos s'. subst E c pos s'.
  pose proof (gap_length_nonneg _ I) as HL.
  pose proof (zlen_gap_content _ I) as Hz.
  unfold editorDelChar.
  assert (Hstep : forall p ty ch x y,
    0 <= p <= gap_length (st_g s) ->
    (0 < p ->
     (ty = EDIT_DELETE /\ ch = load (gap_content (st_g s)) (p - 1)) \/
     (ty = EDIT_DELETE_NEWLINE /\
      (0 < cx (st_E s) \/ cy (st_E s) < count_rows (st_g s) ->
       load (gap_content (st_g s)) (p - 1) = LF))) ->
    let s' :=
      (let '(r, g) := gap_backspace (gap_move (st_g s) p) in
       if r =? 0 then mkState (st_E s) g
       else mkState (mkConfig x y 1
                       (history_push (history (st_E s)) ty (p - 1) ch)
                       (sel (st_E s)) (clip (st_E s))) g) in
    (p = 0 -> gap_content (st_g s') = gap_content (st_g s) /\
              history (st_E s') = history (st_E s)) /\
    (0 < p ->
     gap_content (st_g s') =
       ztake (p - 1) (gap_content (st_g s)) ++ zdrop p (gap_content (st_g s))
     /\ List.length (undoStack (history (st_E s'))) =
        S (List.length (undoStack (history (st_E s)))) /\
     (0 < cx (st_E s) \/ cy (st_E s) < count_rows (st_g s) ->
      gap_content (snd (history_undo (history (st_E s')) (st_g s'))) =
      gap_content (st_g s)))).
  { intros p ty ch x y Hp Hty. cbv zeta. split.
    - intros ->. pose proof (gap_move_inv (st_g s) 0 I) as Im.
      pose proof (gap_move_fields (st_g s) 0 I) as (_ & Hsm & _).
      cbv zeta in Hsm. rewrite Z.min_l in Hsm by lia.
      unfold gap_backspace. rewrite Hsm. cbn [Z.eqb Z.max].
      cbn [st_g st_E]. split; [apply gap_move_content, I|reflexivity].
    - intros Hp0.
      destruct (gap_move_backspace (st_g s) p I ltac:(lia))
        as (Hr & Ib & Hcb & _ & Hcont).
      cbv zeta in *.
      destruct (gap_backspace (gap_move (st_g s) p)) as [r gb].
      cbn [fst snd] in *. subst r. cbn [Z.eqb st_g st_E history].
      replace (p - 1 + 1) with p in * by lia.
      split; [rewrite Hcont; unfold list_delete;
              replace (p - 1 + 1) with p by lia; reflexivity|].
      split; [reflexivity|]. intros Hcur.
      destruct (history_undo_step
                  (history_push (history (st_E s)) ty (p - 1) ch) gb _ _
                  eq_refl Ib ltac:(lia)) as (gu & Hu & _ & _ & Hcu).
      rewrite Hu. cbn [snd]. rewrite Hcu, Hcont.
      assert (Hrep : replays (gap_content (st_g s))
                [mkEdit ty (p - 1) ch]
                (list_delete (p - 1) (gap_content (st_g s)))).
      { apply delete_record_replays; [lia|].
        destruct (Hty Hp0) as [Hd|(Hd & Hlf)]; [left; exact Hd|].
        right. split; [exact Hd|]. apply Hlf, Hcur. }
      exact (replays_undo _ _ _ Hrep). }
  destruct (Z.ltb_spec 0 (cx (st_E s))) as [Hx|Hx];
    rewrite (Z.gtb_ltb (cx (st_E s)) 0);
    [destruct (Z.ltb_spec 0 (cx (st_E s))); [|lia]
    |destruct (Z.ltb_spec 0 (cx (st_E s))); [lia|]].
  - set (p := rowcol_to_pos (st_g s) (cy (st_E s)) (cx (st_E s))).
    pose proof (rowcol_to_pos_bounds (st_g s) (cy (st_E s)) (cx (st_E s)) HL)
      as Hp. fold p in Hp.
    pose proof (gap_move_backspace (st_g s) p I) as Hmb.
    apply (Hstep p EDIT_DELETE
             (gap_char_at (gap_move (st_g s) p) (p - 1))
             (cx (st_E s) - 1) (cy (st_E s)) Hp).
    intros Hp0. left. split; [reflexivity|].
    destruct (Hmb ltac:(lia)) as (_ & _ & _ & Hch & _). exact Hch.
  - rewrite (Z.gtb_ltb (cy (st_E s)) 0).
    destruct (Z.ltb_spec 0 (cy (st_E s))) as [Hy|Hy].
    + set (p := rowcol_to_pos (st_g s) (cy (st_E s)) 0).
      pose proof (rowcol_to_pos_bounds (st_g s) (cy (st_E s)) 0 HL) as Hp.
      fold p in Hp.
      apply (Hstep p EDIT_DELETE_NEWLINE LF
               (get_line_length (st_g s) (cy (st_E s) - 1))
               (cy (st_E s) - 1) Hp).
      intros Hp0. right. split; [reflexivity|]. intros [Hc|Hc]; [lia|].
      destruct (rowcol_to_pos_row_start (st_g s) (cy (st_E s)) I
                  ltac:(lia)) as (_ & Hlf).
      fold p in Hlf. rewrite <- Hlf.
      apply load_gap_content; [exact I|lia].
    + split; [intros _; split; reflexivity|lia].
Qed.

(** X20. With an active selection the Delete key is [selection_delete].
    With none, it removes the byte at the position of the cursor and
    pushes one record, and a [history_undo] then gives the buffer back; at
    the end of the buffer it removes nothing and pushes nothing. *)
Theorem editorDelForward_undo (s : state) :
  gap_inv (st_g s) -> 2 <= cap (st_g s) ->
  let E := st_E s in
  let c := gap_content (st_g s) in
  let pos := rowcol_to_pos (st_g s) (cy E) (cx E) in
  let s' := editorDelForward s in
  (active (sel E) <> 0 -> s' = selection_delete s) /\
  (active (sel E) = 0 ->
   (pos = gap_length (st_g s) ->
    gap_content (st_g s') = c /\ history (st_E s') = history E) /\
   (pos < gap_length (st_g s) ->
    gap_content (st_g s') = ztake pos c ++ zdrop (pos + 1) c /\
    undoStack (history (st_E s')) =
      mkEdit EDIT_DELETE pos (nth (Z.to_nat pos) c NUL)
        :: undoStack (history E) /\
    gap_content (snd (history_undo (history (st_E s')) (st_g s'))) = c)).
Proof.
  intros I R E c pos s'. subst E c s'.
  pose proof (gap_length_nonneg _ I) as HL.
  pose proof (zlen_gap_content _ I) as Hz.
  pose proof (rowcol_to_pos_bounds (st_g s) (cy (st_E s)) (cx (st_E s)) HL)
    as Hp. fold pos in Hp.
  unfold editorDelForward. cbv zeta.
  destruct (Z.eqb_spec (active (sel (st_E s))) 0) as [Ha|Ha];
    cbn [negb]; (split; [intros Hact|intros Hact]);
    try reflexivity; try contradiction.
  fold pos.
  pose proof (gap_move_inv _ pos I) as Im.
  pose proof (gap_move_fields _ pos I) as (Hcm & Hsm & _).
  cbv zeta in Hsm. rewrite Z.min_l, Z.max_r in Hsm by lia.
  pose proof (gap_move_length _ pos I) as HLm.
  pose proof (gap_move_delete_content (st_g s) pos I) as (Id & Hcd & Hcont).
  cbv zeta in Id, Hcd, Hcont.
  rewrite clamp_id in Hcont by lia.
  pose proof (gap_delete_spec _ Im) as (_ & _ & _ & Hcase).
  destruct (gap_delete (gap_move (st_g s) pos)) as [r gd].
  cbn [fst snd] in *.
  destruct Hcase as [(-> & Hsame & Hfull)|(-> & Hlt & _)];
    cbn [Z.eqb st_g st_E history].
  - split; [|lia]. intros _. split; [|reflexivity].
    rewrite Hcont. apply list_delete_end. lia.
  - split; [lia|]. intros _.
    assert (Hch : gap_char_at (gap_move (st_g s) pos) pos =
                  nth (Z.to_nat pos) (gap_content (st_g s)) NUL).
    { rewrite gap_move_char_at by exact I.
      rewrite <- load_gap_content by (assumption || lia).
      unfold load. destruct (Z.ltb_spec pos 0); [lia|reflexivity]. }
    split; [exact Hcont|]. split; [rewrite Hch; reflexivity|].
    destruct (history_undo_step
                (history_push (history (st_E s)) EDIT_DELETE pos
                   (gap_char_at (gap_move (st_g s) pos) pos)) gd _ _
                eq_refl Id ltac:(lia)) as (gu & Hu & _ & _ & Hcu).
    rewrite Hu. cbn [snd]. rewrite Hcu, Hcont.
    assert (Hrep : replays (gap_content (st_g s))
              [mkEdit EDIT_DELETE pos
                 (gap_char_at (gap_move (st_g s) pos) pos)]
              (list_delete pos (gap_content (st_g s)))).
    { apply delete_record_replays; [lia|]. left. split; [reflexivity|].
      rewrite gap_move_char_at by exact I. symmetry.
      apply load_gap_content; [exact I|lia]. }
    exact (replays_undo _ _ _ Hrep).
Qed.

Lemma load_repeat (c : ascii) (n : nat) (i : Z) :
  0 <= i < Z.of_nat n -> load (repeat c n) i = c.
Proof.
  intros Hi. unfold load. destruct (Z.ltb_spec i 0); [lia|].
  apply nth_repeat_lt. lia.
Qed.

(** The indentation loop of [editorInsertNewline] is the paste loop on a
    clipboard of spaces, one position further. *)
Lemma newline_indent_loop_paste (n pos : Z) (k : nat) (fuel : nat) :
  forall i x h g, 0 <= i -> n <= Z.of_nat k ->
  newline_indent_loop fuel n pos i x h g =
  (x + Z.min (Z.of_nat fuel) (Z.max 0 (n - i)),
   fst (clipboard_paste_loop fuel (repeat " "%char k) n (pos + 1) i h g),
   snd (clipboard_paste_loop fuel (repeat " "%char k) n (pos + 1) i h g)).
Proof.
  induction fuel as [|f IH]; intros i x h g Hi Hk;
    cbn [newline_indent_loop clipboard_paste_loop].
  - cbn [fst snd]. f_equal. f_equal. lia.
  - destruct (Z.ltb_spec i n).
    + rewrite load_repeat by lia. rewrite IH by lia.
      f_equal. f_equal. lia.
    + cbn [fst snd]. f_equal. f_equal. lia.
Qed.

(** X21. [editorInsertNewline] puts at the position of the cursor a line
    feed followed by as many spaces as [get_line_indent] counts for the
    cursor's row once the line feed is in, and moves the cursor to the row
    below at that column; one [history_undo] per byte inserted gives the
    buffer and the undo stack back. *)
Theorem editorInsertNewline_undo (s : state) :
  gap_inv (st_g s) -> 2 <= cap (st_g s) ->
  let E := st_E s in
  let c := gap_content (st_g s) in
  let pos := rowcol_to_pos (st_g s) (cy E) (cx E) in
  let indent :=
    get_line_indent (gap_insert (gap_move (st_g s) pos) LF) (cy E) in
  let s' := editorInsertNewline s in
  let u := undo_n (S (Z.to_nat indent)) (history (st_E s')) (st_g s') in
  gap_content (st_g s') =
    ztake pos c ++ LF :: repeat " "%char (Z.to_nat indent) ++ zdrop pos c /\
  (cy (st_E s'), cx (st_E s')) = (cy E + 1, indent) /\
  gap_content (snd u) = c /\
  undoStack (fst u) = undoStack (history E).
Proof.
  intros I R E c pos indent s' u. subst E c s' u.
  pose proof (gap_length_nonneg _ I) as HL.
  pose proof (zlen_gap_content _ I) as Hz.
  pose proof (rowcol_to_pos_bounds (st_g s) (cy (st_E s)) (cx (st_E s)) HL)
    as Hp. fold pos in Hp.
  unfold editorInsertNewline. fold pos.
  pose proof (gap_move_inv _ pos I) as Im.
  pose proof (gap_move_fields _ pos I) as (Hcm & Hsm & _).
  cbv zeta in Hsm. rewrite Z.min_l, Z.max_r in Hsm by lia.
  pose proof (gap_move_content _ pos I) as Hcontm.
  assert (Rm : gap_room (gap_move (st_g s) pos)) by (right; lia).
  pose proof (gap_insert_spec _ LF Im Rm) as (I1 & Hc1 & Hs1 & HL1 & _).
  rewrite (gap_move_length _ pos I) in HL1.
  pose proof (gap_insert_content _ LF Im Rm) as Hcont1.
  pose proof (gap_insert_replays _ LF EDIT_INSERT_NEWLINE Im ltac:(lia)
                (or_intror (conj eq_refl eq_refl))) as Hrep1.
  rewrite Hsm, Hcontm in Hcont1, Hrep1.
  set (g1 := gap_insert (gap_move (st_g s) pos) LF) in *.
  fold indent.
  pose proof (get_line_indent_bound g1 (cy (st_E s))) as Hind.
  fold indent in Hind. destruct Hind as (Hind & _).
  set (h1 := history_push (history (st_E s)) EDIT_INSERT_NEWLINE pos LF).
  assert (Hh1 : undoStack h1 =
                mkEdit EDIT_INSERT_NEWLINE pos LF
                  :: undoStack (history (st_E s))) by reflexivity.
  set (k := Z.to_nat indent).
  rewrite (newline_indent_loop_paste indent pos k k 0 0 h1 g1) by lia.
  set (d := repeat " "%char k).
  pose proof (clipboard_paste_loop_spec d indent (pos + 1) k 0 h1 g1
                ltac:(lia) ltac:(lia) ltac:(lia) I1 ltac:(lia) ltac:(lia))
    as (I2 & R2 & _ & HL2 & Hch2 & Hu2 & _).
  pose proof (clipboard_paste_loop_replays d indent (pos + 1) k 0 h1 g1
                ltac:(lia) I1 ltac:(lia) ltac:(lia)) as Hrep2.
  destruct (clipboard_paste_loop k d indent (pos + 1) 0 h1 g1) as [h2 g2].
  cbn [fst snd st_g st_E history cx cy] in *. clearbody g1 h1.
  pose proof (zlen_gap_content _ I1) as Hz1.
  assert (Hzd : zlen d = indent)
    by (subst d k; unfold zlen; rewrite repeat_length; lia).
  assert (Hld : forall i, 0 <= i < indent -> load d i = " "%char)
    by (intros i Hi; subst d k; apply load_repeat; lia).
  assert (Hk : Z.of_nat k = indent) by (subst k; lia).
  clearbody d k.
  split.
  { apply load_ext.
    - rewrite zlen_gap_content by exact I2.
      rewrite zlen_app, zlen_cons, zlen_app, zlen_ztake, zlen_zdrop by lia.
      lia.
    - intros j Hj. rewrite zlen_gap_content in Hj by exact I2.
      rewrite load_gap_content by (assumption || lia).
      rewrite Hch2 by lia. rewrite Z.add_0_r.
      rewrite load_app by lia. rewrite zlen_ztake by lia.
      destruct (Z.ltb_spec j (pos + 1)).
      + rewrite <- load_gap_content by (assumption || lia).
        rewrite Hcont1, load_list_insert by lia.
        destruct (Z.ltb_spec j pos).
        * rewrite load_ztake by lia. reflexivity.
        * rewrite load_cons by lia.
          destruct (Z.eqb_spec j pos); [|lia].
          destruct (Z.eqb_spec (j - pos) 0); [reflexivity|lia].
      + destruct (Z.ltb_spec j pos); [lia|].
        rewrite load_cons by lia.
        destruct (Z.eqb_spec (j - pos) 0); [lia|].
        rewrite load_app by lia. rewrite Hzd.
        destruct (Z.ltb_spec j (pos + 1 + indent)).
        * destruct (Z.ltb_spec (j - pos - 1) indent); [|lia].
          f_equal. lia.
        * destruct (Z.ltb_spec (j - pos - 1) indent); [lia|].
          rewrite <- load_gap_content by (assumption || lia).
          rewrite Hcont1, load_list_insert by lia.
          destruct (Z.ltb_spec (j - (indent - 0)) pos); [lia|].
          destruct (Z.eqb_spec (j - (indent - 0)) pos); [lia|].
          rewrite load_zdrop by lia. f_equal. lia. }
  split.
  { f_equal. lia. }
  assert (Hus : undoStack h2 =
                (rev (paste_records d (pos + 1) 0 k)
                 ++ [mkEdit EDIT_INSERT_NEWLINE pos LF])
                ++ undoStack (history (st_E s)))
    by (rewrite Hu2, Hh1, <- app_assoc; reflexivity).
  pose proof (replays_app _ _ _ _ _ Hrep1 Hrep2) as Hrep.
  destruct (undo_n_spec _ h2 g2 _ Hus I2 R2) as (g3 & Hu & _ & _ & Hc3).
  rewrite length_app, length_rev, length_paste_records in Hu.
  cbn [List.length] in Hu. replace (k + 1)%nat with (S k) in Hu by lia.
  rewrite Hu. cbn [fst snd undoStack].
  rewrite (replays_undo _ _ _ Hrep) in Hc3.
  split; [exact Hc3|reflexivity].
Qed.

(** Bytes inserted one after the other at the gap. *)
Lemma fold_gap_insert_spec (bs : list ascii) :
  forall g, gap_inv g -> 2 <= cap g ->
  let g' := fold_left gap_insert bs g in
  gap_inv g' /\ 2 <= cap g' /\
  gap_start g' = gap_start g + zlen bs /\
  gap_content g' =
    ztake (gap_start g) (gap_content g) ++ bs
      ++ zdrop (gap_start g) (gap_content g).
Proof.
  induction bs as [|b bs IH]; intros g I R; cbn [fold_left].
  - cbv zeta. split; [exact I|]. split; [exact R|].
    split; [unfold zlen; cbn; lia|].
    cbn [app]. unfold ztake, zdrop. symmetry. apply firstn_skipn.
  - pose proof (gap_insert_spec g b I (or_intror R)) as (I1 & Hc1 & Hs1 & _).
    pose proof (gap_insert_content g b I (or_intror R)) as Hcont1.
    destruct (IH (gap_insert g b) I1 ltac:(lia)) as (I2 & R2 & Hs2 & Hc2).
    cbv zeta in *. split; [exact I2|]. split; [exact R2|].
    split; [rewrite Hs2, Hs1, zlen_cons; lia|].
    rewrite Hc2, Hs1, Hcont1.
    pose proof (zlen_gap_content g I) as Hz.
    assert (Hgs : 0 <= gap_start g <= gap_length g)
      by (destruct I as (_ & ? & ? & ?); unfold gap_length; lia).
    unfold list_insert.
    assert (Ht : ztake (gap_start g + 1)
                   (ztake (gap_start g) (gap_content g)
                    ++ b :: zdrop (gap_start g) (gap_content g)) =
                 ztake (gap_start g) (gap_content g) ++ [b]).
    { unfold ztake, zlen in *. rewrite firstn_app.
      rewrite firstn_all2 by (rewrite length_firstn; lia).
      rewrite length_firstn.
      replace (Z.to_nat (gap_start g + 1)
               - Init.Nat.min (Z.to_nat (gap_start g))
                   (List.length (gap_content g)))%nat with 1%nat by lia.
      reflexivity. }
    assert (Hd : zdrop (gap_start g + 1)
                   (ztake (gap_start g) (gap_content g)
                    ++ b :: zdrop (gap_start g) (gap_content g)) =
                 zdrop (gap_start g) (gap_content g)).
    { unfold ztake, zdrop, zlen in *. rewrite skipn_app.
      rewrite skipn_all2 by (rewrite length_firstn; lia).
      rewrite length_firstn.
      replace (Z.to_nat (gap_start g + 1)
               - Init.Nat.min (Z.to_nat (gap_start g))
                   (List.length (gap_content g)))%nat with 1%nat by lia.
      reflexivity. }
    rewrite Ht, Hd, <- app_assoc. reflexivity.
Qed.

(** X22. When [fopen] fails, [editorOpen] leaves the buffer, the history
    and the dirty flag as they were.  Otherwise it puts the bytes of the
    lines it reads, in order, at the gap of a buffer of capacity at least
    2, growing it as needed; in the empty buffer [main] starts with, the
    buffer then holds exactly the file.  The history is left as it was and
    the dirty flag is cleared. *)
Theorem editorOpen_loads (s : state) :
  gap_inv (st_g s) -> 2 <= cap (st_g s) ->
  editorOpen None s = s /\
  forall lines : list (list ascii),
  let s' := editorOpen (Some lines) s in
  gap_inv (st_g s') /\
  gap_content (st_g s') =
    ztake (gap_start (st_g s)) (gap_content (st_g s)) ++ List.concat lines
      ++ zdrop (gap_start (st_g s)) (gap_content (st_g s)) /\
  (gap_length (st_g s) = 0 -> gap_content (st_g s') = List.concat lines) /\
  history (st_E s') = history (st_E s) /\
  dirty (st_E s') = 0.
Proof.
  intros I R. split; [reflexivity|]. intros lines s'. subst s'.
  unfold editorOpen. cbn [st_g st_E history dirty].
  assert (H : forall g, gap_inv g -> 2 <= cap g ->
            fold_left editorOpen_line lines g =
            fold_left gap_insert (List.concat lines) g).
  { clear. induction lines as [|l ls IH]; intros g I R; cbn [fold_left List.concat].
    - reflexivity.
    - rewrite fold_left_app. unfold editorOpen_line at 2.
      destruct (fold_gap_insert_spec l g I R) as (I1 & R1 & _).
      apply IH; assumption. }
  rewrite H by assumption.
  destruct (fold_gap_insert_spec (List.concat lines) (st_g s) I R)
    as (I1 & _ & _ & Hc).
  cbv zeta in *.
  split; [exact I1|]. split; [exact Hc|]. split; [|split; reflexivity].
  intros HL. rewrite Hc.
  pose proof (zlen_gap_content _ I) as Hz. rewrite HL in Hz.
  assert (Hnil : gap_content (st_g s) = []).
  { destruct (gap_content (st_g s)); [reflexivity|].
    unfold zlen in Hz. cbn in Hz. lia. }
  rewrite Hnil. unfold ztake, zdrop. rewrite firstn_nil, skipn_nil.
  apply app_nil_r.
Qed.

(** ** Append buffer, keys and scrolling *)

(** X23. [abufAppend] adds the bytes after the pending ones when they fit
    with room to spare, and otherwise drops them whole: it never appends a
    part, never writes past the array, and [abuf_len] stays below
    [ABUF_SIZE]. *)
Theorem abufAppend_fits_or_drops (a : abuf_state) (s : list ascii) (len : Z) :
  zlen (abuf a) = ABUF_SIZE -> 0 <= abuf_len a < ABUF_SIZE ->
  0 <= len <= zlen s ->
  let a' := abufAppend a s len in
  zlen (abuf a') = ABUF_SIZE /\ 0 <= abuf_len a' < ABUF_SIZE /\
  (abuf_len a + len < ABUF_SIZE ->
   abuf_len a' = abuf_len a + len /\
   ztake (abuf_len a') (abuf a') =
     ztake (abuf_len a) (abuf a) ++ ztake len s) /\
  (ABUF_SIZE <= abuf_len a + len -> a' = a).
Proof.
  intros Hz Hl Hlen a'. subst a'. unfold abufAppend.
  destruct (Z.ltb_spec (abuf_len a + len) ABUF_SIZE) as [Hfit|Hfull].
  - cbn [abuf abuf_len].
    assert (Hm : zlen (memcpy (abuf a) (abuf_len a) s 0 len) = ABUF_SIZE)
      by (rewrite zlen_memcpy; lia).
    split; [exact Hm|]. split; [lia|]. split; [|lia].
    intros _. split; [reflexivity|].
    apply load_ext.
    + rewrite zlen_app, !zlen_ztake by lia. reflexivity.
    + intros j Hj. rewrite zlen_ztake in Hj by lia.
      rewrite load_ztake by lia. rewrite load_memcpy by lia.
      rewrite load_app by lia. rewrite zlen_ztake by lia.
      destruct (Z.leb_spec (abuf_len a) j), (Z.ltb_spec j (abuf_len a));
        try lia; cbn [andb].
      * destruct (Z.ltb_spec j (abuf_len a + len)); [|lia].
        rewrite load_ztake by lia. f_equal; lia.
      * rewrite load_ztake by lia. reflexivity.
  - split; [exact Hz|]. split; [exact Hl|]. split; [lia|]. reflexivity.
Qed.

(** X24. The shift flag [0x1000] that [editorReadKey] ors into an arrow key
    is read back by [is_shift_arrow] and taken off by [get_base_key]; a
    key code below [0x1000] carries no flag and is its own base key. *)
Theorem shift_flag_roundtrip (key : Z) :
  0 <= key < 4096 ->
  get_base_key (Z.lor key 4096) = key /\
  is_shift_arrow (Z.lor key 4096) = 4096 /\
  get_base_key key = key /\
  is_shift_arrow key = 0.
Proof.
  intros Hk. unfold get_base_key, is_shift_arrow.
  change 4095 with (Z.ones 12). change 4096 with (2 ^ 12).
  assert (Hhigh : forall n, 12 <= n -> Z.testbit key n = false).
  { intros n Hn. destruct (Z.eq_dec key 0) as [->|Hne].
    - apply Z.bits_0.
    - apply Z.bits_above_log2; [lia|].
      assert (Z.log2 key < 12) by (apply Z.log2_lt_pow2; lia). lia. }
  repeat split; apply Z.bits_inj'; intros n Hn.
  - rewrite Z.land_spec, Z.lor_spec, Z.pow2_bits_eqb by lia.
    destruct (Z.lt_ge_cases n 12).
    + rewrite Z.ones_spec_low by lia.
      destruct (Z.eqb_spec 12 n); [lia|]. rewrite orb_false_r, andb_true_r.
      reflexivity.
    + rewrite Z.ones_spec_high by lia. rewrite Hhigh by lia.
      apply andb_false_r.
  - rewrite Z.land_spec, Z.lor_spec, Z.pow2_bits_eqb by lia.
    destruct (Z.eqb_spec 12 n) as [<-|Hne].
    + rewrite orb_true_r. reflexivity.
    + rewrite orb_false_r, andb_false_r. reflexivity.
  - rewrite Z.land_spec.
    destruct (Z.lt_ge_cases n 12).
    + rewrite Z.ones_spec_low by lia. apply andb_true_r.
    + rewrite Z.ones_spec_high by lia. rewrite Hhigh by lia. reflexivity.
  - rewrite Z.land_spec, Z.pow2_bits_eqb, Z.bits_0 by lia.
    destruct (Z.eqb_spec 12 n) as [<-|Hne].
    + rewrite Hhigh by lia. reflexivity.
    + apply andb_false_r.
Qed.

(** Line numbers of a buffer of fewer than 1000 rows take at most three
    digits. *)
Lemma num_width_bounds (g : gapbuf) :
  count_rows g < 1000 -> 2 <= num_width g <= 4.
Proof.
  intros Hr.
  assert (H1 : 1 <= count_rows g) by apply count_rows_loop_mono.
  unfold num_width, snprintf_int_len.
  destruct (Z.ltb_spec (count_rows g) 0); [lia|].
  change (decimal_digits 10 (count_rows g)) with
    (if count_rows g <? 10 then 1
     else 1 + (if count_rows g / 10 <? 10 then 1
               else 1 + decimal_digits 8 (count_rows g / 10 / 10))).
  destruct (Z.ltb_spec (count_rows g) 10); [lia|].
  destruct (Z.ltb_spec (count_rows g / 10) 10); [lia|].
  assert (H3 : count_rows g / 10 / 10 < 10).
  { apply Z.div_lt_upper_bound; [lia|].
    apply Z.div_lt_upper_bound; lia. }
  cbn [decimal_digits].
  destruct (Z.ltb_spec (count_rows g / 10 / 10) 10); lia.
Qed.

(** X25. In a window of at least 3 rows and 6 columns on a buffer of fewer
    than 1000 rows, with the cursor, the offsets and the window size
    between 0 and 2^30 (so that no sum leaves the range of [int]),
    [editorScroll] leaves the offsets such that the cursor line
    [editorRefreshScreen] sends to the terminal is one of the
    [screenrows - 2] lines it draws, the cursor column is right of the
    line numbers and within the [screencols] columns of the terminal, and
    the column of the cursor passes the test for being drawn; it changes
    no offset when the cursor is within its thresholds already. *)
Theorem editorScroll_shows_cursor (x y : Z) (v : viewport) (g : gapbuf) :
  count_rows g < 1000 ->
  3 <= screenrows v < 1073741824 -> 6 <= screencols v < 1073741824 ->
  0 <= rowoff v < 1073741824 -> 0 <= coloff v < 1073741824 ->
  0 <= x < 1073741824 -> 0 <= y < 1073741824 ->
  let v' := editorScroll x y v in
  let nw := num_width g in
  1 <= cursor_line v' y <= screenrows v - 2 /\
  nw + 2 <= cursor_column v' nw x <= screencols v /\
  column_drawn v' nw x = true /\
  (rowoff v <= y < rowoff v + screenrows v - 2 -> rowoff v' = rowoff v) /\
  (coloff v <= x < coloff v + screencols v - 5 -> coloff v' = coloff v).
Proof.
  intros Hn Hr Hc Hro Hco Hx Hy v' nw. subst v'.
  pose proof (num_width_bounds g Hn) as Hw. fold nw in Hw. clearbody nw.
  unfold cursor_line, cursor_column, column_drawn, editorScroll.
  cbn [rowoff coloff screenrows screencols].
  zcases; cbn [andb]; repeat split; try lia; try reflexivity.
Qed.

(** ** Cursor coordinates *)

(** The start of a row the buffer has lies after exactly [row] line
    feeds. *)
Lemma rowcol_to_pos_row_count (g : gapbuf) (row : Z) :
  gap_inv g -> 0 <= row < count_rows g ->
  count_lf (ztake (rowcol_to_pos g row 0) (gap_content g)) = row /\
  (rowcol_to_pos g row 0 = 0 \/
   gap_char_at g (rowcol_to_pos g row 0 - 1) = LF).
Proof.
  intros I Hrow. pose proof (gap_length_nonneg g I) as HL.
  destruct (Z.eq_dec row 0) as [->|Hne].
  - assert (H0 : rowcol_to_pos g 0 0 = 0).
    { unfold rowcol_to_pos.
      destruct (Z.to_nat (gap_length g)); cbn [rowcol_rows_loop];
        [|rewrite andb_false_r]; apply rowcol_cols_loop_stay. }
    rewrite H0. split; [reflexivity|left; reflexivity].
  - destruct (rowcol_to_pos_row_start g row I ltac:(lia)) as (Hpos & Hlf).
    split; [|right; exact Hlf].
    rewrite count_rows_count in Hrow by exact I.
    unfold rowcol_to_pos.
    pose proof (rowcol_rows_loop_count g row (Z.to_nat (gap_length g)) I
                  0 0 0 ltac:(lia)) as (Hc & Hle & _).
    pose proof (rowcol_rows_loop_stop g (gap_length g) row
                  (Z.to_nat (gap_length g)) 0 0 0 ltac:(lia)) as Hs.
    pose proof (rowcol_rows_loop_bounds g (gap_length g) row
                  (Z.to_nat (gap_length g)) 0 0 0 HL) as Hb.
    pose proof (rowcol_rows_loop_col g (gap_length g) row
                  (Z.to_nat (gap_length g)) 0 0 0) as Hcol.
    cbv zeta in *.
    destruct (rowcol_rows_loop (Z.to_nat (gap_length g)) g (gap_length g)
                row 0 0 0) as [[pos cr] cc].
    cbn [fst snd] in *.
    change (ztake 0 (gap_content g)) with (@nil ascii) in Hc.
    change (count_lf []) with 0 in Hc.
    assert (Hcr : row <= cr).
    { destruct Hs as [Hend|(Hr & _)]; [|exact Hr].
      assert (pos = gap_length g) by lia. subst pos.
      rewrite ztake_all_content in Hc by exact I. lia. }
    assert (Hcc : cc = 0) by (destruct (Hcol Hcr) as [?|(_ & _ & ?)]; lia).
    subst cc. rewrite rowcol_cols_loop_stay. lia.
Qed.

(** A stretch without line feeds adds nothing to the count. *)
Lemma count_lf_ztake_stretch (g : gapbuf) (a : Z) (n : nat) :
  gap_inv g -> 0 <= a -> a + Z.of_nat n <= gap_length g ->
  (forall j, a <= j < a + Z.of_nat n ->
     Ascii.eqb (gap_char_at g j) LF = false) ->
  count_lf (ztake (a + Z.of_nat n) (gap_content g)) =
  count_lf (ztake a (gap_content g)).
Proof.
  intros I Ha. induction n as [|n IH]; intros Hb Hnl.
  - rewrite Z.add_0_r. reflexivity.
  - replace (a + Z.of_nat (S n)) with (a + Z.of_nat n + 1) by lia.
    rewrite count_lf_ztake_succ by (assumption || lia).
    rewrite Hnl by lia. rewrite IH; [lia|lia|].
    intros j Hj. apply Hnl. lia.
Qed.

Lemma rowcol_in_range_roundtrip (g : gapbuf) (row col : Z) :
  gap_inv g -> 0 <= row < count_rows g ->
  0 <= col <= get_line_length g row ->
  pos_to_rowcol g (rowcol_to_pos g row col) = (row, col).
Proof.
  intros I Hrow Hcol.
  pose proof (gap_length_nonneg g I) as HL.
  destruct (get_line_length_spec g row I) as (Hn & Hend & Hnl & _).
  destruct (rowcol_to_pos_row_count g row I Hrow) as (Hcnt & Hstart).
  pose proof (rowcol_to_pos_bounds g row 0 HL) as Hb.
  rewrite (rowcol_to_pos_clamp g row col I).
  rewrite Z.max_r, Z.min_l by lia.
  set (start := rowcol_to_pos g row 0) in *.
  assert (Ha : forall j, 0 - 0 <= j < 0 ->
            Ascii.eqb (gap_char_at g j) LF = false) by (intros j Hj; lia).
  assert (Hb0 : 0 < 0 -> Ascii.eqb (gap_char_at g (0 - 0 - 1)) LF = true)
    by lia.
  destruct (pos_to_rowcol_loop_count g (start + col)
              (Z.to_nat (start + col)) I ltac:(lia) 0 0 0
              ltac:(lia) ltac:(lia) ltac:(lia) Ha Hb0)
    as (H1 & H2 & H3 & H4).
  cbv zeta in *. fold (pos_to_rowcol g (start + col)) in *.
  change (ztake 0 (gap_content g)) with (@nil ascii) in H1.
  change (count_lf []) with 0 in H1.
  destruct (pos_to_rowcol g (start + col)) as [r c]. cbn [fst snd] in *.
  f_equal.
  - rewrite H1.
    replace (start + col) with (start + Z.of_nat (Z.to_nat col)) by lia.
    rewrite count_lf_ztake_stretch; try assumption; try lia.
    intros j Hj. apply Hnl. lia.
  - destruct (Z.lt_trichotomy c col) as [Hlt|[Heq|Hgt]]; [|exact Heq|].
    + specialize (H4 ltac:(lia)).
      rewrite Hnl in H4 by lia. discriminate.
    + destruct Hstart as [H0|Hlf]; [lia|].
      specialize (H3 (start - 1) ltac:(lia)).
      rewrite Hlf in H3. discriminate.
Qed.

(** X26. A row the buffer has and a column within its line are the
    coordinates of a position: [rowcol_to_pos] and then [pos_to_rowcol]
    give them back. *)
Theorem rowcol_pos_rowcol (g : gapbuf) (row col : Z) :
  gap_inv g -> 0 <= row < count_rows g ->
  0 <= col <= get_line_length g row ->
  pos_to_rowcol g (rowcol_to_pos g row col) = (row, col).
Proof. apply rowcol_in_range_roundtrip. Qed.

(** X27. The arrow keys, Home and End keep a cursor that is on a row of
    the buffer and within its line on such a row and within its line;
    the keys that are not cursor keys leave it where it is. *)
Theorem editorMoveCursor_in_range (key : Z) (v : viewport) (g : gapbuf)
  (x y : Z) :
  gap_inv g -> 0 <= y < count_rows g -> 0 <= x <= get_line_length g y ->
  let x' := fst (editorMoveCursor key v g x y) in
  let y' := snd (editorMoveCursor key v g x y) in
  (key <> PAGE_UP -> key <> PAGE_DOWN ->
   0 <= y' < count_rows g /\ 0 <= x' <= get_line_length g y') /\
  (key < ARROW_LEFT \/ PAGE_DOWN < key -> (x', y') = (x, y)).
Proof.
  intros I Hy Hx x' y'. subst x' y'.
  assert (Hlen : forall r, 0 <= get_line_length g r)
    by (intros r; apply (get_line_length_spec g r I)).
  pose proof (Hlen (y - 1)). pose proof (Hlen (y + 1)). pose proof (Hlen y).
  unfold editorMoveCursor, ARROW_LEFT, ARROW_RIGHT, ARROW_UP, ARROW_DOWN,
    HOME_KEY, END_KEY, PAGE_UP, PAGE_DOWN.
  split.
  - intros Hpu Hpd.
    repeat match goal with
    | |- context [key =? ?k] =>
        destruct (Z.eqb_spec key k); [zcases; cbn [fst snd]; lia|]
    end.
    cbn [fst snd]. lia.
  - intros Hk.
    repeat match goal with
    | |- context [key =? ?k] => destruct (Z.eqb_spec key k); [lia|]
    end.
    reflexivity.
Qed.

(** ** File types *)

Lemma strrchr_suffix (s : string) (c : ascii) (r : string) :
  strrchr s c = Some r -> exists base, s = (base ++ r)%string.
Proof.
  revert r. induction s as [|a s IH]; intros r; cbn [strrchr].
  - discriminate.
  - destruct (strrchr s c) as [r'|].
    + intros Hr. inversion Hr; subst r'.
      destruct (IH r eq_refl) as (base & ->).
      exists (String a base). reflexivity.
    + destruct (Ascii.eqb a c); [|discriminate].
      intros Hr. inversion Hr. exists EmptyString. reflexivity.
Qed.

Lemma strrchr_append (base ext : string) (c : ascii) :
  strrchr ext c = Some ext ->
  strrchr (base ++ ext) c = Some ext.
Proof.
  intros Hext. induction base as [|a base IH]; cbn [String.append strrchr].
  - exact Hext.
  - rewrite IH. reflexivity.
Qed.

(** X28. A file is taken for C-family exactly when its name ends in ".c",
    ".h", ".cpp" or ".cc"; for any other name, and for no name,
    [get_highlight] classifies every byte as normal and leaves the string
    state alone. *)
Theorem is_c_file_by_extension (filename : option string) :
  (is_c_file filename = true <->
   exists f base, filename = Some f /\
     (f = base ++ ".c" \/ f = base ++ ".h" \/
      f = base ++ ".cpp" \/ f = base ++ ".cc")%string) /\
  (is_c_file filename = false ->
   forall content len pos in_string,
   get_highlight content len pos filename in_string = (HL_NORMAL, in_string)).
Proof.
  split; [split|].
  - destruct filename as [f|]; [|discriminate]. cbn [is_c_file].
    destruct (strrchr f ".") as [ext|] eqn:Hext; [|discriminate].
    destruct (strrchr_suffix f "." ext Hext) as (base & Hf).
    intros H. exists f, base. split; [reflexivity|].
    destruct (String.eqb_spec ext ".c") as [-> | _ ]; [tauto|].
    destruct (String.eqb_spec ext ".h") as [-> | _ ]; [tauto|].
    destruct (String.eqb_spec ext ".cpp") as [-> | _ ]; [tauto|].
    destruct (String.eqb_spec ext ".cc") as [-> | _ ]; [tauto|].
    discriminate.
  - intros (f & base & -> & H). cbn [is_c_file].
    destruct H as [-> | [-> | [-> | ->]]];
      rewrite strrchr_append by reflexivity; reflexivity.
  - intros H content len pos in_string. unfold get_highlight. rewrite H.
    destruct (pos >=? len); reflexivity.
Qed.

(** ** Select all *)

(** The last row ends where the buffer ends. *)
Lemma last_row_end (g : gapbuf) :
  gap_inv g ->
  rowcol_to_pos g (count_rows g - 1)
    (get_line_length g (count_rows g - 1)) = gap_length g.
Proof.
  intros I. set (y := count_rows g - 1).
  pose proof (count_rows_count g I) as Hrows.
  pose proof (count_lf_nonneg (gap_content g)) as Hnn.
  assert (Hy : 0 <= y < count_rows g) by (subst y; lia).
  destruct (get_line_length_spec g y I) as (Hn & Hend & Hnl & Hlf).
  destruct (rowcol_to_pos_row_count g y I Hy) as (Hcnt & _).
  pose proof (rowcol_to_pos_bounds g y 0 (gap_length_nonneg g I)) as Hb.
  rewrite (rowcol_to_pos_clamp g y _ I).
  rewrite Z.max_r, Z.min_l by lia.
  set (start := rowcol_to_pos g y 0) in *.
  set (n := get_line_length g y) in *.
  destruct (Z.eq_dec (start + n) (gap_length g)) as [Heq|Hne]; [exact Heq|].
  exfalso. specialize (Hlf ltac:(lia)).
  pose proof (count_lf_ztake_succ g (start + n) I ltac:(lia)) as Hs.
  rewrite Hlf in Hs.
  pose proof (count_lf_ztake_stretch g start (Z.to_nat n) I ltac:(lia)
                ltac:(lia)) as Hst.
  rewrite Z2Nat.id in Hst by lia. rewrite Hst in Hs by exact Hnl.
  pose proof (count_lf_ztake_le g (start + n + 1)). lia.
Qed.

(** X29. Ctrl-A and then Ctrl-C put the whole of a buffer that is not
    empty in the clipboard: the selection runs from position 0 to the end
    of the last row, which is the end of the buffer. *)
Theorem select_all_then_copy (s : state) :
  gap_inv (st_g s) -> 0 < gap_length (st_g s) ->
  clip (st_E (editorCopy (editorSelectAll s))) =
  mkClip (Some (gap_content (st_g s) ++ [NUL])) (gap_length (st_g s)).
Proof.
  intros I HL. unfold editorCopy, editorSelectAll.
  cbn [st_E st_g sel clip selection_update selection_start active
       start_row start_col end_row end_col].
  change (1 =? 0) with false. cbv iota. cbn [st_E clip].
  set (y := count_rows (st_g s) - 1).
  set (x := get_line_length (st_g s) y).
  pose proof (count_rows_count _ I) as Hrows.
  pose proof (count_lf_nonneg (gap_content (st_g s))) as Hnn.
  destruct (get_line_length_spec (st_g s) y I) as (Hx & _).
  fold x in Hx.
  pose proof (clipboard_copy_spec (clip (st_E s)) (mkSel 1 0 0 y x)
                (st_g s) I) as Hcopy.
  assert (Hnorm : selection_normalize (mkSel 1 0 0 y x) = (0, 0, y, x)).
  { unfold selection_normalize. cbn [start_row start_col end_row end_col].
    subst y. zcases; try lia; reflexivity. }
  rewrite Hnorm in Hcopy. cbv zeta in Hcopy. destruct Hcopy as (_ & Hcopy).
  assert (Ha : rowcol_to_pos (st_g s) 0 0 = 0).
  { destruct (rowcol_to_pos_row_count (st_g s) 0 I ltac:(lia)) as (_ & [H|H]);
      [exact H|].
    pose proof (rowcol_to_pos_bounds (st_g s) 0 0 ltac:(lia)) as Hb.
    destruct (Z.eq_dec (rowcol_to_pos (st_g s) 0 0) 0) as [H0|H0];
      [exact H0|].
    unfold rowcol_to_pos in *.
    destruct (Z.to_nat (gap_length (st_g s))); cbn [rowcol_rows_loop] in *;
      [|rewrite andb_false_r in *]; rewrite rowcol_cols_loop_stay in H0;
      congruence. }
  pose proof (last_row_end (st_g s) I) as Hb. fold y in Hb. fold x in Hb.
  rewrite Ha, Hb in Hcopy.
  change (selection_update (selection_start (sel (st_E s)) 0 0) y x)
    with (mkSel 1 0 0 y x).
  rewrite Hcopy by (cbn [active]; lia).
  f_equal; [|lia]. f_equal. f_equal.
  unfold slice. rewrite Z.sub_0_r. change (zdrop 0 ?l) with l.
  apply ztake_all_content, I.
Qed.

(** ** Well-formedness *)

Lemma history_undo_wf (h : editHistory) (g : gapbuf) :
  gap_inv g -> 2 <= cap g ->
  gap_inv (snd (history_undo h g)) /\ 2 <= cap (snd (history_undo h g)).
Proof.
  intros I R. destruct (undoStack h) as [|e u] eqn:Hu.
  - unfold history_undo. rewrite Hu. split; assumption.
  - destruct (history_undo_step h g e u Hu I R) as (g' & -> & I' & R' & _).
    split; assumption.
Qed.

Lemma history_redo_wf (h : editHistory) (g : gapbuf) :
  gap_inv g -> 2 <= cap g ->
  gap_inv (snd (history_redo h g)) /\ 2 <= cap (snd (history_redo h g)).
Proof.
  intros I R. destruct (redoStack h) as [|e r] eqn:Hr.
  - unfold history_redo. rewrite Hr. split; assumption.
  - destruct (history_redo_step h g e r Hr I R) as (g' & -> & I' & R' & _).
    split; assumption.
Qed.

Lemma selection_delete_wf (s : state) :
  well_formed s -> well_formed (selection_delete s).
Proof.
  intros (I & R). destruct (Z.eq_dec (active (sel (st_E s))) 0) as [H|H].
  - unfold selection_delete. rewrite H. split; assumption.
  - pose proof (selection_delete_spec s I H) as Hd.
    destruct (selection_normalize (sel (st_E s))) as [[[sr sc] er] ec].
    cbv zeta in Hd. destruct Hd as (I' & Hc & _). split; [exact I'|lia].
Qed.

Lemma clipboard_paste_wf (s : state) :
  well_formed s -> well_formed (clipboard_paste s).
Proof.
  intros (I & R). unfold clipboard_paste.
  destruct (data (clip (st_E s))) as [d|]; [|split; assumption].
  destruct (Z.eqb_spec (clip_len (clip (st_E s))) 0); [split; assumption|].
  set (len := clip_len (clip (st_E s))) in *.
  set (pos := rowcol_to_pos (st_g s) (cy (st_E s)) (cx (st_E s))).
  pose proof (gap_length_nonneg _ I) as HL.
  pose proof (rowcol_to_pos_bounds (st_g s) (cy (st_E s)) (cx (st_E s)) HL)
    as Hp. fold pos in Hp.
  pose proof (gap_move_inv _ pos I) as Im.
  pose proof (gap_move_fields _ pos I) as (Hcm & Hsm & _).
  destruct (Z.lt_ge_cases len 0) as [Hneg|Hpos].
  - replace (Z.to_nat len) with O by lia. cbn [clipboard_paste_loop].
    split; cbn [st_g]; [exact Im|lia].
  - pose proof (clipboard_paste_loop_spec d len pos (Z.to_nat len) 0
                  (history (st_E s)) (gap_move (st_g s) pos)
                  ltac:(lia) ltac:(lia) ltac:(lia) Im ltac:(lia)
                  ltac:(lia)) as (I2 & R2 & _).
    destruct (clipboard_paste_loop (Z.to_nat len) d len pos 0
                (history (st_E s)) (gap_move (st_g s) pos)) as [h2 g2].
    split; [exact I2|exact R2].
Qed.

Lemma editorInsertNewline_wf (s : state) :
  well_formed s -> well_formed (editorInsertNewline s).
Proof.
  intros (I & R). unfold editorInsertNewline.
  set (pos := rowcol_to_pos (st_g s) (cy (st_E s)) (cx (st_E s))).
  pose proof (gap_length_nonneg _ I) as HL.
  pose proof (rowcol_to_pos_bounds (st_g s) (cy (st_E s)) (cx (st_E s)) HL)
    as Hp. fold pos in Hp.
  pose proof (gap_move_inv _ pos I) as Im.
  pose proof (gap_move_fields _ pos I) as (Hcm & Hsm & _).
  cbv zeta in Hsm. rewrite Z.min_l, Z.max_r in Hsm by lia.
  assert (Rm : gap_room (gap_move (st_g s) pos)) by (right; lia).
  pose proof (gap_insert_spec _ LF Im Rm) as (I1 & Hc1 & Hs1 & _).
  set (g1 := gap_insert (gap_move (st_g s) pos) LF) in *.
  set (indent := get_line_indent g1 (cy (st_E s))).
  pose proof (get_line_indent_bound g1 (cy (st_E s))) as (Hind & _).
  fold indent in Hind.
  rewrite (newline_indent_loop_paste indent pos (Z.to_nat indent)
             (Z.to_nat indent) 0 0) by lia.
  pose proof (clipboard_paste_loop_spec
                (repeat " "%char (Z.to_nat indent)) indent (pos + 1)
                (Z.to_nat indent) 0
                (history_push (history (st_E s)) EDIT_INSERT_NEWLINE pos LF)
                g1 ltac:(lia) ltac:(lia) ltac:(lia) I1 ltac:(lia)
                ltac:(lia)) as (I2 & R2 & _).
  split; [exact I2|exact R2].
Qed.

Lemma editorDelChar_wf (s : state) :
  well_formed s -> well_formed (editorDelChar s).
Proof.
  intros (I & R). unfold editorDelChar.
  assert (H : forall p E1 E2,
    well_formed
      (let '(r, g) := gap_backspace (gap_move (st_g s) p) in
       if r =? 0 then mkState E1 g else mkState E2 g)).
  { intros p E1 E2.
    pose proof (gap_move_inv _ p I) as Im.
    pose proof (gap_move_fields _ p I) as (Hcm & _).
    pose proof (gap_backspace_spec _ Im) as (Ib & Hcb & _).
    destruct (gap_backspace (gap_move (st_g s) p)) as [r g].
    cbn [fst snd] in *.
    destruct (r =? 0); split; cbn [st_g]; try assumption; lia. }
  destruct (cx (st_E s) >? 0); [apply H|].
  destruct (cy (st_E s) >? 0); [apply H|]. split; assumption.
Qed.

Lemma editorDelForward_wf (s : state) :
  well_formed s -> well_formed (editorDelForward s).
Proof.
  intros (I & R). unfold editorDelForward. cbv zeta.
  destruct (negb (active (sel (st_E s)) =? 0));
    [apply selection_delete_wf; split; assumption|].
  set (p := rowcol_to_pos (st_g s) (cy (st_E s)) (cx (st_E s))).
  pose proof (gap_move_inv _ p I) as Im.
  pose proof (gap_move_fields _ p I) as (Hcm & _).
  pose proof (gap_delete_spec _ Im) as (Id & Hcd & _).
  destruct (gap_delete (gap_move (st_g s) p)) as [r g].
  cbn [fst snd] in *.
  destruct (r =? 0); split; cbn [st_g]; try assumption; lia.
Qed.

(** X30. Every editing operation keeps the buffer well formed: from a
    buffer that satisfies the structural invariant and has capacity at
    least 2, typing a byte or a new line, Backspace, Delete, copy, cut,
    paste, deleting the selection, undo and redo all leave a buffer that
    satisfies the invariant and has capacity at least 2. *)
Theorem editing_keeps_well_formed (s : state) (c : ascii) :
  well_formed s ->
  well_formed (editorInsertChar c s) /\
  well_formed (editorInsertNewline s) /\
  well_formed (editorDelChar s) /\
  well_formed (editorDelForward s) /\
  well_formed (editorCopy s) /\
  well_formed (editorCut s) /\
  well_formed (editorPaste s) /\
  well_formed (selection_delete s) /\
  well_formed (editorUndo s) /\
  well_formed (editorRedo s).
Proof.
  intros W. pose proof W as (I & R).
  split; [|split; [|split; [|split; [|split; [|split; [|split;
    [|split; [|split]]]]]]]].
  - destruct (editorInsertChar_spec c s I R) as (I' & R' & _).
    split; assumption.
  - apply editorInsertNewline_wf, W.
  - apply editorDelChar_wf, W.
  - apply editorDelForward_wf, W.
  - unfold editorCopy. destruct (active (sel (st_E s)) =? 0); exact W.
  - unfold editorCut. destruct (active (sel (st_E s)) =? 0); [exact W|].
    apply selection_delete_wf. exact W.
  - unfold editorPaste. apply clipboard_paste_wf.
    destruct (active (sel (st_E s)) =? 0); [exact W|].
    apply selection_delete_wf, W.
  - apply selection_delete_wf, W.
  - pose proof (editorUndo_history_undo s) as H.
    pose proof (history_undo_wf (history (st_E s)) (st_g s) I R) as Hw.
    apply (f_equal snd) in H. cbn [snd] in H.
    unfold well_formed. rewrite H. exact Hw.
  - pose proof (editorRedo_history_redo s) as H.
    pose proof (history_redo_wf (history (st_E s)) (st_g s) I R) as Hw.
    apply (f_equal snd) in H. cbn [snd] in H.
    unfold well_formed. rewrite H. exact Hw.
Qed.

End Editor.

(** * The theorems at concrete inputs *)

Lemma buf_ab_cd_inv : gap_inv buf_ab_cd.
Proof. unfold gap_inv. repeat split; vm_compute; congruence. Defined.

(** "a" typed into the buffer [gap_init(&g, 1024)] leaves, as [main]
    calls it. *)
Lemma gap_operations_keep_invariant_witness :
  let g := gap_init (fun _ : nat => NUL) 1024 in
  gap_inv (gap_insert (fun _ : nat => NUL) g "a") /\
  2 <= cap (gap_insert (fun _ : nat => NUL) g "a") /\
  gap_length (gap_insert (fun _ : nat => NUL) g "a") = 1.
Proof.
  intros g.
  assert (Hi : gap_inv g)
    by (unfold gap_inv; repeat split; vm_compute; congruence).
  assert (Hc : 2 <= cap g) by (vm_compute; congruence).
  destruct (gap_operations_keep_invariant (fun _ : nat => NUL) g Hi Hc)
    as (_ & _ & Hins & _).
  exact (Hins "a"%char).
Defined.

(** "XY" typed at the start of "ab\ncd", undone twice, redone twice. *)
Lemma undo_redo_inserts_witness :
  let uninit := fun _ : nat => NUL in
  let s := mkState (mkConfig 0 0 0 history_init (mkSel 0 0 0 0 0)
                      (mkClip None 0)) buf_ab_cd in
  let s1 := insert_chars uninit ["X"; "Y"]%char s in
  let u := undo_n uninit 2 (history (st_E s1)) (st_g s1) in
  let r := redo_n uninit 2 (fst u) (snd u) in
  gap_content (snd u) = gap_content (st_g s) /\
  undoStack (fst u) = undoStack (history (st_E s)) /\
  gap_content (snd r) = gap_content (st_g s1) /\
  undoStack (fst r) = undoStack (history (st_E s1)).
Proof.
  intros uninit s.
  apply (undo_redo_inserts uninit s ["X"; "Y"]%char).
  - exact buf_ab_cd_inv.
  - vm_compute. congruence.
Defined.

(** Position 3 of "ab\ncd" is row 1, column 0. *)
Lemma rowcol_roundtrip_witness :
  rowcol_to_pos buf_ab_cd 1 0 = 3 /\
  pos_to_rowcol buf_ab_cd (rowcol_to_pos buf_ab_cd 1 0) = (1, 0).
Proof.
  apply (rowcol_roundtrip buf_ab_cd 3 1 0).
  - exact buf_ab_cd_inv.
  - vm_compute. split; congruence.
  - reflexivity.
Defined.

(** "ab\ncd" into four bytes, and into eight. *)
Lemma gap_get_contract_witness :
  let out4 := ["z"; "z"; "z"; "z"]%char in
  let out8 := ["z"; "z"; "z"; "z"; "z"; "z"; "z"; "z"]%char in
  gap_get buf_ab_cd out4 4 = (-1, out4) /\
  gap_get buf_ab_cd out8 8 =
    (5, ["a"; "b"; LF; "c"; "d"; "z"; "z"; "z"]%char).
Proof.
  intros out4 out8. split.
  - apply (gap_get_contract buf_ab_cd out4 4).
    + exact buf_ab_cd_inv.
    + vm_compute. congruence.
    + vm_compute. reflexivity.
  - apply (gap_get_contract buf_ab_cd out8 8).
    + exact buf_ab_cd_inv.
    + vm_compute. congruence.
    + vm_compute. congruence.
Defined.

(** The gap of "ab\ncd" moved to position 2, and to position 9. *)
Lemma gap_move_frame_witness :
  gap_start (gap_move buf_ab_cd 2) = 2 /\
  gap_start (gap_move buf_ab_cd 9) = 5 /\
  gap_content (gap_move buf_ab_cd 2) = gap_content buf_ab_cd.
Proof.
  destruct (gap_move_frame buf_ab_cd 2 buf_ab_cd_inv)
    as (H2 & _ & _ & Hc & _).
  destruct (gap_move_frame buf_ab_cd 9 buf_ab_cd_inv) as (H9 & _).
  split; [exact H2|]. split; [exact H9|exact Hc].
Defined.

(** The escaped quote of the two-byte snapshot. *)
Lemma get_highlight_in_string_witness :
  snd (get_highlight [BACKSLASH; DQUOTE] 2 1 (Some "a.c"%string) 0) = 1.
Proof.
  apply (get_highlight_in_string [BACKSLASH; DQUOTE] 2 1
           (Some "a.c"%string) 0).
  - vm_compute. congruence.
  - vm_compute. congruence.
Defined.

(** Row 2 of "ab\ncd", which has rows 0 and 1. *)
Lemma rowcol_to_pos_in_range_witness :
  0 <= rowcol_to_pos buf_ab_cd 2 0 <= 5 /\ rowcol_to_pos buf_ab_cd 2 0 = 5.
Proof.
  destruct (rowcol_to_pos_in_range buf_ab_cd 2 0 buf_ab_cd_inv) as (Hr & Hp).
  split; [exact Hr|]. apply Hp. vm_compute. congruence.
Defined.

Lemma buf_ab_c_inv : gap_inv buf_ab_c.
Proof. unfold gap_inv. repeat split; vm_compute; congruence. Defined.

Lemma buf_sp_x_inv : gap_inv buf_sp_x.
Proof. unfold gap_inv. repeat split; vm_compute; congruence. Defined.

(** "X" put at the end of "ab\ncd", whose gap has one free byte. *)
Lemma gap_insert_at_gap_start_witness :
  gap_inv (gap_insert (fun _ : nat => NUL) buf_ab_cd "X") /\
  gap_start (gap_insert (fun _ : nat => NUL) buf_ab_cd "X") = 6 /\
  gap_content (gap_insert (fun _ : nat => NUL) buf_ab_cd "X") =
    ["a"; "b"; LF; "c"; "d"; "X"]%char.
Proof.
  apply (gap_insert_at_gap_start (fun _ : nat => NUL) buf_ab_cd "X"%char).
  - exact buf_ab_cd_inv.
  - left. vm_compute. reflexivity.
Defined.

(** Backspace after the "b" of "ab\nc". *)
Lemma gap_backspace_removes_before_witness :
  fst (gap_backspace buf_ab_c) = 1 /\
  gap_content (snd (gap_backspace buf_ab_c)) = ["a"; LF; "c"]%char.
Proof.
  destruct (gap_backspace_removes_before buf_ab_c buf_ab_c_inv) as [_ H].
  destruct H as (H1 & _ & _ & H2).
  - vm_compute. reflexivity.
  - split; [exact H1|exact H2].
Defined.

(** Delete before the line feed of "ab\nc". *)
Lemma gap_delete_removes_after_witness :
  fst (gap_delete buf_ab_c) = 1 /\
  gap_content (snd (gap_delete buf_ab_c)) = ["a"; "b"; "c"]%char.
Proof.
  destruct (gap_delete_removes_after buf_ab_c buf_ab_c_inv) as [_ H].
  destruct H as (H1 & _ & _ & H2).
  - vm_compute. reflexivity.
  - split; [exact H1|exact H2].
Defined.

(** The byte across the gap of "ab\nc", and a position past its end. *)
Lemma gap_char_at_reads_content_witness :
  gap_char_at buf_ab_c 2 = LF /\ gap_char_at buf_ab_c 7 = NUL.
Proof.
  split.
  - apply (proj1 (gap_char_at_reads_content buf_ab_c 2 buf_ab_c_inv)).
    vm_compute. split; congruence.
  - apply (proj2 (gap_char_at_reads_content buf_ab_c 7 buf_ab_c_inv)).
    right. vm_compute. congruence.
Defined.

(** "X" typed into the full buffer "ab\ncd" and taken back. *)
Lemma gap_insert_backspace_witness :
  fst (gap_backspace (gap_insert (fun _ : nat => NUL) buf_ab_cd "X")) = 1 /\
  gap_start (snd (gap_backspace
                    (gap_insert (fun _ : nat => NUL) buf_ab_cd "X"))) = 5 /\
  gap_content (snd (gap_backspace
                      (gap_insert (fun _ : nat => NUL) buf_ab_cd "X"))) =
    ["a"; "b"; LF; "c"; "d"]%char.
Proof.
  apply (gap_insert_backspace (fun _ : nat => NUL) buf_ab_cd "X"%char).
  - exact buf_ab_cd_inv.
  - right. vm_compute. congruence.
Defined.

(** "ab\ncd" has two rows. *)
Lemma count_rows_line_feeds_witness : count_rows buf_ab_cd = 2.
Proof. exact (count_rows_line_feeds buf_ab_cd buf_ab_cd_inv). Defined.

(** Position 4 of "ab\ncd" is in row 1, one byte after the line feed. *)
Lemma pos_to_rowcol_meaning_witness :
  fst (pos_to_rowcol buf_ab_cd 4) = 1 /\
  gap_char_at buf_ab_cd (4 - snd (pos_to_rowcol buf_ab_cd 4) - 1) = LF.
Proof.
  assert (Hp : 0 <= 4 <= gap_length buf_ab_cd)
    by (vm_compute; split; congruence).
  destruct (pos_to_rowcol_meaning buf_ab_cd 4 buf_ab_cd_inv Hp)
    as (Hr & _ & _ & _ & Hlf).
  split; [exact Hr|]. apply Hlf. vm_compute. reflexivity.
Defined.

(** Row 0 of "ab\ncd" has two bytes, and the line feed follows. *)
Lemma get_line_length_line_witness :
  0 <= get_line_length buf_ab_cd 0 /\ gap_char_at buf_ab_cd 2 = LF.
Proof.
  destruct (get_line_length_line buf_ab_cd 0 buf_ab_cd_inv)
    as (Hn & _ & _ & Hlf).
  split; [exact Hn|]. apply Hlf. vm_compute. reflexivity.
Defined.

(** Column 9 of row 1 of "ab\ncd" is the end of the row. *)
Lemma rowcol_to_pos_column_clamped_witness :
  rowcol_to_pos buf_ab_cd 1 9 = 3 + 2.
Proof. exact (rowcol_to_pos_column_clamped buf_ab_cd 1 9 buf_ab_cd_inv). Defined.

(** A selection dragged back from (1, 1) to (0, 1) in "ab\ncd". *)
Lemma clipboard_copy_selected_bytes_witness :
  clipboard_copy (fun _ : nat => NUL) (mkClip None 0) (mkSel 1 1 1 0 1)
    buf_ab_cd
  = mkClip (Some ["b"; LF; "c"; NUL]%char) 3.
Proof.
  apply (proj2 (clipboard_copy_selected_bytes (fun _ : nat => NUL)
                  (mkClip None 0) (mkSel 1 1 1 0 1) buf_ab_cd buf_ab_cd_inv)).
  - vm_compute. congruence.
  - vm_compute. reflexivity.
Defined.

(** The selection from (0, 1) to (1, 1) of "ab\ncd" deleted. *)
Lemma selection_delete_removes_range_witness :
  let s' := selection_delete
              (editor_on buf_ab_cd 0 0 (mkSel 1 0 1 1 1) (mkClip None 0)) in
  gap_content (st_g s') = ["a"; "d"]%char /\
  undoStack (history (st_E s')) =
    [mkEdit EDIT_DELETE 1 "c"; mkEdit EDIT_DELETE 1 LF;
     mkEdit EDIT_DELETE 1 "b"]%char /\
  (cy (st_E s'), cx (st_E s')) = (0, 1) /\
  active (sel (st_E s')) = 0.
Proof.
  apply (proj2 (selection_delete_removes_range
                  (editor_on buf_ab_cd 0 0 (mkSel 1 0 1 1 1) (mkClip None 0))
                  buf_ab_cd_inv)).
  vm_compute. congruence.
Defined.

(** The same deletion, undone three times and redone three times. *)
Lemma selection_delete_undo_redo_witness :
  let s := editor_on buf_ab_cd 0 0 (mkSel 1 0 1 1 1) (mkClip None 0) in
  let s' := selection_delete s in
  let u := undo_n (fun _ : nat => NUL) 3 (history (st_E s')) (st_g s') in
  let r := redo_n (fun _ : nat => NUL) 3 (fst u) (snd u) in
  gap_content (snd u) = gap_content (st_g s) /\
  undoStack (fst u) = undoStack (history (st_E s)) /\
  gap_content (snd r) = gap_content (st_g s') /\
  undoStack (fst r) = undoStack (history (st_E s')).
Proof.
  apply (selection_delete_undo_redo (fun _ : nat => NUL)
           (editor_on buf_ab_cd 0 0 (mkSel 1 0 1 1 1) (mkClip None 0))).
  - exact buf_ab_cd_inv.
  - vm_compute. congruence.
  - vm_compute. congruence.
Defined.

(** "XY" pasted at column 2 of row 0 of "ab\ncd" and undone twice. *)
Lemma clipboard_paste_undo_witness :
  let s := editor_on buf_ab_cd 2 0 (mkSel 0 0 0 0 0)
             (mkClip (Some ["X"; "Y"; NUL]%char) 2) in
  let s' := clipboard_paste (fun _ : nat => NUL) s in
  let u := undo_n (fun _ : nat => NUL) 2 (history (st_E s')) (st_g s') in
  gap_content (snd u) = ["a"; "b"; LF; "c"; "d"]%char /\
  undoStack (fst u) = [].
Proof.
  apply (clipboard_paste_undo (fun _ : nat => NUL)
           (editor_on buf_ab_cd 2 0 (mkSel 0 0 0 0 0)
              (mkClip (Some ["X"; "Y"; NUL]%char) 2))
           ["X"; "Y"; NUL]%char).
  - exact buf_ab_cd_inv.
  - vm_compute. congruence.
  - reflexivity.
  - vm_compute. reflexivity.
Defined.

(** "ab" of "ab\ncd" copied and pasted at the start of row 1. *)
Lemma copy_then_paste_witness :
  gap_content
    (st_g (editorPaste (fun _ : nat => NUL)
             (editorCopy (fun _ : nat => NUL)
                (editor_on buf_ab_cd 0 1 (mkSel 1 0 0 0 2) (mkClip None 0)))))
  = ["a"; "b"; LF; "a"; "b"; "c"; "d"]%char.
Proof.
  apply (copy_then_paste (fun _ : nat => NUL)
           (editor_on buf_ab_cd 0 1 (mkSel 1 0 0 0 2) (mkClip None 0))).
  - exact buf_ab_cd_inv.
  - vm_compute. congruence.
  - vm_compute. congruence.
  - vm_compute. reflexivity.
Defined.

(** "b\nc" of "ab\ncd" cut and pasted back. *)
Lemma cut_then_paste_witness :
  gap_content
    (st_g (editorPaste (fun _ : nat => NUL)
             (editorCut (fun _ : nat => NUL)
                (editor_on buf_ab_cd 0 0 (mkSel 1 0 1 1 1) (mkClip None 0)))))
  = ["a"; "b"; LF; "c"; "d"]%char.
Proof.
  apply (cut_then_paste (fun _ : nat => NUL)
           (editor_on buf_ab_cd 0 0 (mkSel 1 0 1 1 1) (mkClip None 0))).
  - exact buf_ab_cd_inv.
  - vm_compute. congruence.
  - vm_compute. congruence.
  - vm_compute. reflexivity.
  - vm_compute. reflexivity.
Defined.

(** Backspace with the cursor after the "c" of "ab\ncd", then undo. *)
Lemma editorDelChar_undo_witness :
  let s := editor_on buf_ab_cd 1 1 (mkSel 0 0 0 0 0) (mkClip None 0) in
  let s' := editorDelChar s in
  gap_content (st_g s') = ["a"; "b"; LF; "d"]%char /\
  gap_content (snd (history_undo (fun _ : nat => NUL)
                      (history (st_E s')) (st_g s')))
  = ["a"; "b"; LF; "c"; "d"]%char.
Proof.
  assert (Hc : 2 <= cap buf_ab_cd) by (vm_compute; congruence).
  destruct (editorDelChar_undo (fun _ : nat => NUL)
              (editor_on buf_ab_cd 1 1 (mkSel 0 0 0 0 0) (mkClip None 0))
              buf_ab_cd_inv Hc) as [_ H].
  destruct H as (H1 & _ & H2).
  - vm_compute. reflexivity.
  - split; [exact H1|]. apply H2. left. vm_compute. reflexivity.
Defined.

(** Delete with the cursor before the "d" of "ab\ncd" and no selection,
    then undo; and Delete with "ab" selected. *)
Lemma editorDelForward_undo_witness :
  let s := editor_on buf_ab_cd 1 1 (mkSel 0 0 0 0 0) (mkClip None 0) in
  let s' := editorDelForward s in
  let t := editor_on buf_ab_cd 1 1 (mkSel 1 0 0 0 2) (mkClip None 0) in
  editorDelForward t = selection_delete t /\
  gap_content (st_g (editorDelForward t)) = [LF; "c"; "d"]%char /\
  gap_content (st_g s') = ["a"; "b"; LF; "c"]%char /\
  undoStack (history (st_E s')) = [mkEdit EDIT_DELETE 4 "d"%char] /\
  gap_content (snd (history_undo (fun _ : nat => NUL)
                      (history (st_E s')) (st_g s')))
  = ["a"; "b"; LF; "c"; "d"]%char.
Proof.
  intros s s' t.
  assert (Hc : 2 <= cap buf_ab_cd) by (vm_compute; congruence).
  assert (Ht : editorDelForward t = selection_delete t).
  { apply (proj1 (editorDelForward_undo (fun _ : nat => NUL) t
                    buf_ab_cd_inv Hc)).
    vm_compute. congruence. }
  split; [exact Ht|]. split; [rewrite Ht; reflexivity|].
  apply (proj2 (editorDelForward_undo (fun _ : nat => NUL) s
                  buf_ab_cd_inv Hc)).
  - reflexivity.
  - vm_compute. reflexivity.
Defined.

(** Enter at the end of the indented line " x". *)
Lemma editorInsertNewline_undo_witness :
  let s := editor_on buf_sp_x 2 0 (mkSel 0 0 0 0 0) (mkClip None 0) in
  let s' := editorInsertNewline (fun _ : nat => NUL) s in
  let u := undo_n (fun _ : nat => NUL) 2 (history (st_E s')) (st_g s') in
  gap_content (st_g s') = [" "; "x"; LF; " "]%char /\
  (cy (st_E s'), cx (st_E s')) = (1, 1) /\
  gap_content (snd u) = [" "; "x"]%char /\
  undoStack (fst u) = [].
Proof.
  apply (editorInsertNewline_undo (fun _ : nat => NUL)
           (editor_on buf_sp_x 2 0 (mkSel 0 0 0 0 0) (mkClip None 0))).
  - exact buf_sp_x_inv.
  - vm_compute. congruence.
Defined.

(** A file of two lines, and one that cannot be opened, on the buffer
    [gap_init(&g, 2)] leaves. *)
Lemma editorOpen_loads_witness :
  let s := editor_on (gap_init (fun _ : nat => NUL) 2) 0 0
             (mkSel 0 0 0 0 0) (mkClip None 0) in
  editorOpen (fun _ : nat => NUL) None s = s /\
  gap_content
    (st_g (editorOpen (fun _ : nat => NUL)
             (Some [["h"; "i"; LF]; ["y"; "o"; LF]]%char) s))
  = ["h"; "i"; LF; "y"; "o"; LF]%char.
Proof.
  intros s.
  assert (Hi : gap_inv (st_g s))
    by (unfold gap_inv; repeat split; vm_compute; congruence).
  assert (Hc : 2 <= cap (st_g s)) by (vm_compute; congruence).
  destruct (editorOpen_loads (fun _ : nat => NUL) s Hi Hc) as (Hn & Hs).
  split; [exact Hn|].
  destruct (Hs [["h"; "i"; LF]; ["y"; "o"; LF]]%char) as (_ & _ & H & _).
  apply H. vm_compute. reflexivity.
Defined.

(** Two bytes appended to an empty output buffer, and two that do not fit. *)
Lemma abufAppend_fits_or_drops_witness :
  let a := mkAbuf (repeat NUL (Z.to_nat ABUF_SIZE)) 0 in
  let b := mkAbuf (repeat NUL (Z.to_nat ABUF_SIZE)) (ABUF_SIZE - 1) in
  abuf_len (abufAppend a ["h"; "i"]%char 2) = 2 /\
  abufAppend b ["h"; "i"]%char 2 = b.
Proof.
  intros a b.
  assert (Hz : zlen (repeat NUL (Z.to_nat ABUF_SIZE)) = ABUF_SIZE)
    by (vm_compute; reflexivity).
  assert (Hl : 0 <= 2 <= zlen ["h"; "i"]%char) by (vm_compute; split; congruence).
  assert (Ha : 0 <= abuf_len a < ABUF_SIZE) by (vm_compute; split; congruence).
  assert (Hb : 0 <= abuf_len b < ABUF_SIZE) by (vm_compute; split; congruence).
  destruct (abufAppend_fits_or_drops a ["h"; "i"]%char 2 Hz Ha Hl)
    as (_ & _ & Hfit & _).
  destruct (abufAppend_fits_or_drops b ["h"; "i"]%char 2 Hz Hb Hl)
    as (_ & _ & _ & Hdrop).
  split.
  - apply Hfit. vm_compute. reflexivity.
  - apply Hdrop. vm_compute. congruence.
Defined.

(** Shift with the left arrow. *)
Lemma shift_flag_roundtrip_witness :
  get_base_key (Z.lor ARROW_LEFT 4096) = ARROW_LEFT /\
  is_shift_arrow (Z.lor ARROW_LEFT 4096) = 4096.
Proof.
  assert (Hk : 0 <= ARROW_LEFT < 4096) by (vm_compute; split; congruence).
  destruct (shift_flag_roundtrip ARROW_LEFT Hk) as (H1 & H2 & _).
  split; [exact H1|exact H2].
Defined.

(** The cursor at row 30, column 100, in a window of 24 rows and 80
    columns scrolled to the top left, on "ab\ncd". *)
Lemma editorScroll_shows_cursor_witness :
  let v' := editorScroll 100 30 (mkView 0 0 24 80) in
  1 <= cursor_line v' 30 <= 24 - 2 /\
  num_width buf_ab_cd + 2 <= cursor_column v' (num_width buf_ab_cd) 100
    <= 80 /\
  column_drawn v' (num_width buf_ab_cd) 100 = true.
Proof.
  destruct (editorScroll_shows_cursor 100 30 (mkView 0 0 24 80) buf_ab_cd)
    as (H1 & H2 & H3 & _).
  - vm_compute. reflexivity.
  - vm_compute. split; [congruence|reflexivity].
  - vm_compute. split; [congruence|reflexivity].
  - vm_compute. split; [congruence|reflexivity].
  - vm_compute. split; [congruence|reflexivity].
  - vm_compute. split; [congruence|reflexivity].
  - vm_compute. split; [congruence|reflexivity].
  - split; [exact H1|]. split; [exact H2|exact H3].
Defined.

(** The end of row 1 of "ab\ncd". *)
Lemma rowcol_pos_rowcol_witness :
  pos_to_rowcol buf_ab_cd (rowcol_to_pos buf_ab_cd 1 2) = (1, 2).
Proof.
  apply (rowcol_pos_rowcol buf_ab_cd 1 2).
  - exact buf_ab_cd_inv.
  - vm_compute. split; congruence.
  - vm_compute. split; congruence.
Defined.

(** The right arrow at the end of row 0 of "ab\ncd". *)
Lemma editorMoveCursor_in_range_witness :
  let x' := fst (editorMoveCursor ARROW_RIGHT (mkView 0 0 24 80)
                   buf_ab_cd 2 0) in
  let y' := snd (editorMoveCursor ARROW_RIGHT (mkView 0 0 24 80)
                   buf_ab_cd 2 0) in
  0 <= y' < count_rows buf_ab_cd /\ 0 <= x' <= get_line_length buf_ab_cd y'.
Proof.
  assert (Hy : 0 <= 0 < count_rows buf_ab_cd)
    by (vm_compute; split; congruence).
  assert (Hx : 0 <= 2 <= get_line_length buf_ab_cd 0)
    by (vm_compute; split; congruence).
  apply (proj1 (editorMoveCursor_in_range ARROW_RIGHT (mkView 0 0 24 80)
                  buf_ab_cd 2 0 buf_ab_cd_inv Hy Hx)).
  - vm_compute. congruence.
  - vm_compute. congruence.
Defined.

(** "main.cpp" is a C-family name, "notes.txt" is not. *)
Lemma is_c_file_by_extension_witness :
  is_c_file (Some "main.cpp"%string) = true /\
  get_highlight [DQUOTE] 1 0 (Some "notes.txt"%string) 0 = (HL_NORMAL, 0).
Proof.
  split.
  - apply (proj1 (is_c_file_by_extension (Some "main.cpp"%string))).
    exists "main.cpp"%string, "main"%string.
    split; [reflexivity|]. right. right. left. reflexivity.
  - apply (proj2 (is_c_file_by_extension (Some "notes.txt"%string))).
    reflexivity.
Defined.

(** Ctrl-A and Ctrl-C on "ab\ncd". *)
Lemma select_all_then_copy_witness :
  clip (st_E (editorCopy (fun _ : nat => NUL)
                (editorSelectAll
                   (editor_on buf_ab_cd 0 0 (mkSel 0 0 0 0 0)
                      (mkClip None 0)))))
  = mkClip (Some ["a"; "b"; LF; "c"; "d"; NUL]%char) 5.
Proof.
  apply (select_all_then_copy (fun _ : nat => NUL)
           (editor_on buf_ab_cd 0 0 (mkSel 0 0 0 0 0) (mkClip None 0))).
  - exact buf_ab_cd_inv.
  - vm_compute. reflexivity.
Defined.

(** "X" typed into, and a selection cut from, "ab\ncd". *)
Lemma editing_keeps_well_formed_witness :
  let s := editor_on buf_ab_cd 0 0 (mkSel 1 0 1 1 1) (mkClip None 0) in
  well_formed (editorInsertChar (fun _ : nat => NUL) "X" s) /\
  well_formed (editorCut (fun _ : nat => NUL) s).
Proof.
  intros s.
  assert (Hw : well_formed s).
  { split; [exact buf_ab_cd_inv|]. vm_compute. congruence. }
  destruct (editing_keeps_well_formed (fun _ : nat => NUL) s "X"%char Hw)
    as (H1 & _ & _ & _ & _ & H6 & _).
  split; [exact H1|exact H6].
Defined.
